(** * Verification of the Solid / Motion One binding layer (src/index.js)

    The development embeds the adapter of [src/index.js]: the [Presence]
    container, the state binder [createAndBindMotionState], the primitive
    [createMotion], the directive [motion], [MotionComponent] and the
    [Motion] proxy.  Stateful code is written in a state monad over a
    [World] that holds what the JavaScript keeps in closures, in the host
    runtime and in the animation engine. *)

From stdpp Require Import gmap strings list fin_maps.

Open Scope string_scope.
Open Scope list_scope.
Open Scope nat_scope.

(* ===================================================================== *)
(** ** JavaScript values and objects *)
(* ===================================================================== *)

(** The values that can sit in a props or options object.  Numbers are
    integers here: no claim depends on fractions. *)
#[warnings="-register-all"]
Inductive value : Type :=
| VUndefined
| VNull
| VBool (b : bool)
| VNum (n : Z)
| VStr (s : string)
| VObj (fields : list (string * value)).

(** JavaScript truthiness, as used by [&&], [||] and [?:]. *)
Definition truthy (v : value) : bool :=
  match v with
  | VUndefined | VNull => false
  | VBool b => b
  | VNum n => negb (n =? 0)%Z
  | VStr s => negb (String.eqb s "")
  | VObj _ => true
  end.

(** [v === false] *)
Definition is_false (v : value) : bool :=
  match v with
  | VBool false => true
  | _ => false
  end.

(** [a || b] *)
Definition js_or (a b : value) : value := if truthy a then a else b.

(** A plain object: own properties by name. *)
Abbreviation Obj := (gmap string value).

(** [o.k]: a missing property reads [undefined]. *)
Definition get (o : Obj) (k : string) : value := default VUndefined (o !! k).

(** The reactive store: the values of the signals that props and options
    producers read. *)
Abbreviation Store := (gmap string value).

(** A props object of the host framework: every property is a getter
    over the reactive store. *)
Definition Props : Type := Store → Obj.

(** A zero-argument producer of options, [() => options]. *)
Definition Accessor : Type := Store → Obj.

(** What a caller may hand to [createMotion]: a function or a plain
    options object. *)
Inductive OptionsArg : Type :=
| OFun (f : Accessor)
| OStatic (o : Obj).

(** [isFunction] of [@motionone/utils]: [typeof v === "function"]. *)
Definition isFunction (v : OptionsArg) : bool :=
  match v with
  | OFun _ => true
  | OStatic _ => false
  end.

(* ===================================================================== *)
(** ** Identities, callbacks and the recorded calls *)
(* ===================================================================== *)

(** Animation-state handles, elements, the [initial] variables of
    [Presence] instances and switch transitions are identified by
    numbers drawn from one counter. *)
Abbreviation StateId := nat (only parsing).
Abbreviation El := nat (only parsing).
Abbreviation CellId := nat (only parsing).
Abbreviation SwitchId := nat (only parsing).

(** The value of [PresenceContext]: an accessor of a boolean.  [Presence]
    provides the closure [() => initial] over its own variable; a caller
    of [createMotion] may pass any accessor, here a constant one. *)
Inductive PresenceState : Type :=
| PCell (c : CellId)
| PConst (v : value).

(** The functions that the source registers as event listeners:
    the [unmount] procedure returned by [state.mount], and the [remove]
    closure that the switch transition hands to [onExit] (with or
    without the entering step to run afterwards). *)
Inductive Callback : Type :=
| CbUnmount (s : StateId) (el : El)
| CbRemove (sw : SwitchId) (el : El) (enter_after : bool).

(** Calls made on the animation engine, on the DOM and on the host
    runtime, in the order in which they happen. *)
Inductive Call : Type :=
| CCreateMotionState (s : StateId) (opts : Obj) (parent : option StateId)
| CMount (s : StateId) (el : El)
| CUpdate (s : StateId) (opts : Obj)
| CSetActive (s : StateId) (name : string) (on : bool)
| CUnmount (s : StateId)
| CAddEventListener (el : El) (type : string) (cb : Callback)
| CCreateEffect (s : StateId)
| CRemove (sw : SwitchId) (el : El).

(** The two modes that [Presence] can select for the switch transition. *)
Inductive TransitionMode : Type := Parallel | OutIn.

(** Entries of the owner's context chain: a provider of
    [PresenceContext] or of [ParentContext]. *)
Inductive CtxEntry : Type :=
| EPresence (p : PresenceState)
| EParent (s : option StateId).

(** One binding made by [createAndBindMotionState]: what the closures of
    its [onMount] callback capture. *)
Record Binding : Type := mkBinding {
  b_state : StateId;
  b_el : El;
  b_options : Accessor;
  b_presence : option PresenceState
}.

(** The local state of one [createSwitchTransition]. *)
Record Switch : Type := mkSwitch {
  sw_mode : TransitionMode;
  sw_returned : list El;
  sw_next : option El;
  sw_exiting : bool;
  sw_prev : option El;
  sw_ctx : list CtxEntry
}.

Record World : Type := mkWorld {
  w_store : Store;
  w_log : list Call;
  w_next : nat;
  w_ctx : list CtxEntry;
  w_cells : gmap CellId bool;
  w_opts : gmap StateId Obj;
  w_mounted : gmap El StateId;
  w_onmount : list Binding;
  w_cleanups : list Binding;
  w_effects : list Binding;
  w_listeners : list (El * Callback);
  w_switches : gmap SwitchId Switch
}.

Definition empty_world : World :=
  mkWorld ∅ [] 0 [] ∅ ∅ ∅ [] [] [] [] ∅.

(* ===================================================================== *)
(** ** The state monad *)
(* ===================================================================== *)

Definition M (A : Type) : Type := World → A * World.

Definition ret {A} (a : A) : M A := fun w => (a, w).

Definition bind {A B} (m : M A) (k : A → M B) : M B :=
  fun w => let (a, w') := m w in k a w'.

Declare Scope js_scope.
Delimit Scope js_scope with js.
Notation "'let*' x ':=' m 'in' k" := (bind m (fun x => k))
  (at level 10, x name, m at level 100, k at level 200) : js_scope.
Open Scope js_scope.

Definition exec {A} (m : M A) (w : World) : World := snd (m w).
Definition eval {A} (m : M A) (w : World) : A := fst (m w).

Definition gets {A} (f : World → A) : M A := fun w => (f w, w).
Definition modify (f : World → World) : M unit := fun w => (tt, f w).

Definition set_log (f : list Call → list Call) (w : World) : World :=
  mkWorld (w_store w) (f (w_log w)) (w_next w) (w_ctx w) (w_cells w) (w_opts w)
    (w_mounted w) (w_onmount w) (w_cleanups w) (w_effects w) (w_listeners w)
    (w_switches w).
Definition set_next (f : nat → nat) (w : World) : World :=
  mkWorld (w_store w) (w_log w) (f (w_next w)) (w_ctx w) (w_cells w) (w_opts w)
    (w_mounted w) (w_onmount w) (w_cleanups w) (w_effects w) (w_listeners w)
    (w_switches w).
Definition set_ctx (f : list CtxEntry → list CtxEntry) (w : World) : World :=
  mkWorld (w_store w) (w_log w) (w_next w) (f (w_ctx w)) (w_cells w) (w_opts w)
    (w_mounted w) (w_onmount w) (w_cleanups w) (w_effects w) (w_listeners w)
    (w_switches w).
Definition set_cells (f : gmap CellId bool → gmap CellId bool) (w : World) : World :=
  mkWorld (w_store w) (w_log w) (w_next w) (w_ctx w) (f (w_cells w)) (w_opts w)
    (w_mounted w) (w_onmount w) (w_cleanups w) (w_effects w) (w_listeners w)
    (w_switches w).
Definition set_opts (f : gmap StateId Obj → gmap StateId Obj) (w : World) : World :=
  mkWorld (w_store w) (w_log w) (w_next w) (w_ctx w) (w_cells w) (f (w_opts w))
    (w_mounted w) (w_onmount w) (w_cleanups w) (w_effects w) (w_listeners w)
    (w_switches w).
Definition set_mounted (f : gmap El StateId → gmap El StateId) (w : World) : World :=
  mkWorld (w_store w) (w_log w) (w_next w) (w_ctx w) (w_cells w) (w_opts w)
    (f (w_mounted w)) (w_onmount w) (w_cleanups w) (w_effects w) (w_listeners w)
    (w_switches w).
Definition set_onmount (f : list Binding → list Binding) (w : World) : World :=
  mkWorld (w_store w) (w_log w) (w_next w) (w_ctx w) (w_cells w) (w_opts w)
    (w_mounted w) (f (w_onmount w)) (w_cleanups w) (w_effects w) (w_listeners w)
    (w_switches w).
Definition set_cleanups (f : list Binding → list Binding) (w : World) : World :=
  mkWorld (w_store w) (w_log w) (w_next w) (w_ctx w) (w_cells w) (w_opts w)
    (w_mounted w) (w_onmount w) (f (w_cleanups w)) (w_effects w) (w_listeners w)
    (w_switches w).
Definition set_effects (f : list Binding → list Binding) (w : World) : World :=
  mkWorld (w_store w) (w_log w) (w_next w) (w_ctx w) (w_cells w) (w_opts w)
    (w_mounted w) (w_onmount w) (w_cleanups w) (f (w_effects w)) (w_listeners w)
    (w_switches w).
Definition set_listeners (f : list (El * Callback) → list (El * Callback))
    (w : World) : World :=
  mkWorld (w_store w) (w_log w) (w_next w) (w_ctx w) (w_cells w) (w_opts w)
    (w_mounted w) (w_onmount w) (w_cleanups w) (w_effects w) (f (w_listeners w))
    (w_switches w).
Definition set_switches (f : gmap SwitchId Switch → gmap SwitchId Switch)
    (w : World) : World :=
  mkWorld (w_store w) (w_log w) (w_next w) (w_ctx w) (w_cells w) (w_opts w)
    (w_mounted w) (w_onmount w) (w_cleanups w) (w_effects w) (w_listeners w)
    (f (w_switches w)).
Definition set_store (st : Store) (w : World) : World :=
  mkWorld st (w_log w) (w_next w) (w_ctx w) (w_cells w) (w_opts w)
    (w_mounted w) (w_onmount w) (w_cleanups w) (w_effects w) (w_listeners w)
    (w_switches w).

(** Record one call at the end of the log. *)
Definition emit (c : Call) : M unit := modify (set_log (fun l => l ++ [c])).

(** A fresh identity. *)
Definition fresh : M nat :=
  fun w => (w_next w, set_next S w).

(** Call a producer: it reads the current reactive store. *)
Definition call (f : Accessor) : M Obj := gets (fun w => f (w_store w)).

(** [for (const x of l) f(x)] *)
Fixpoint for_each {A} (l : list A) (f : A → M unit) : M unit :=
  match l with
  | [] => ret tt
  | x :: l' => let* _ := f x in for_each l' f
  end.

(* ===================================================================== *)
(** ** The animation engine ([@motionone/dom]) and the DOM *)
(* ===================================================================== *)

(** These are the imported operations that the source calls.  Each one
    records its call; the engine also keeps the options of every handle
    ([getOptions]) and the table [mountedStates] from element to handle. *)

(** [createMotionState(options, parentState)] *)
Definition createMotionState (opts : Obj) (parent : option StateId) : M StateId :=
  let* s := fresh in
  let* _ := modify (set_opts (insert s opts)) in
  let* _ := emit (CCreateMotionState s opts parent) in
  ret s.

(** [state.mount(el)]: returns the [unmount] procedure. *)
Definition state_mount (s : StateId) (el : El) : M Callback :=
  let* _ := modify (set_mounted (insert el s)) in
  let* _ := emit (CMount s el) in
  ret (CbUnmount s el).

(** The [unmount] procedure returned by [state.mount(el)]. *)
Definition unmount (s : StateId) (el : El) : M unit :=
  let* _ := modify (set_mounted (delete el)) in
  emit (CUnmount s).

(** [state.update(options)] *)
Definition state_update (s : StateId) (opts : Obj) : M unit :=
  let* _ := modify (set_opts (insert s opts)) in
  emit (CUpdate s opts).

(** [state.setActive(name, on)] *)
Definition state_setActive (s : StateId) (name : string) (on : bool) : M unit :=
  emit (CSetActive s name on).

(** [state.getOptions()] *)
Definition state_getOptions (s : StateId) : M Obj :=
  gets (fun w => default ∅ (w_opts w !! s)).

(** [mountedStates.get(el)] *)
Definition mountedStates_get (el : El) : M (option StateId) :=
  gets (fun w => w_mounted w !! el).

(** [el.addEventListener(type, cb)].  Every function that the source
    registers is a closure created for that registration, so the DOM
    never finds it already present; the listener stays registered. *)
Definition addEventListener (el : El) (type : string) (cb : Callback) : M unit :=
  let* _ := modify (set_listeners (fun l => l ++ [(el, cb)])) in
  emit (CAddEventListener el type cb).

(* ===================================================================== *)
(** ** The host runtime ([solid-js]) *)
(* ===================================================================== *)

(** [createComponent(Context.Provider, { value, get children() {...} })]:
    the children are evaluated with the provided value first in the
    owner's context chain. *)
Definition provide {A} (e : CtxEntry) (children : M A) : M A :=
  let* saved := gets w_ctx in
  let* _ := modify (set_ctx (fun c => e :: c)) in
  let* r := children in
  let* _ := modify (set_ctx (fun _ => saved)) in
  ret r.

Fixpoint lookup_presence (c : list CtxEntry) : option PresenceState :=
  match c with
  | [] => None
  | EPresence p :: _ => Some p
  | EParent _ :: c' => lookup_presence c'
  end.

Fixpoint lookup_parent (c : list CtxEntry) : option StateId :=
  match c with
  | [] => None
  | EParent s :: _ => s
  | EPresence _ :: c' => lookup_parent c'
  end.

(** [useContext(PresenceContext)]: the nearest provider's value, or
    [undefined] (the context has no default). *)
Definition usePresenceContext : M (option PresenceState) :=
  gets (fun w => lookup_presence (w_ctx w)).

(** [useContext(ParentContext)] *)
Definition useParentContext : M (option StateId) :=
  gets (fun w => lookup_parent (w_ctx w)).

(** [onMount(fn)]: the callback is queued; the runtime runs it after
    the render (see [flush]). *)
Definition onMount (b : Binding) : M unit :=
  modify (set_onmount (fun l => l ++ [b])).

(** [onCleanup(fn)] *)
Definition onCleanup (b : Binding) : M unit :=
  modify (set_cleanups (fun l => l ++ [b])).

(* ===================================================================== *)
(** ** The state binder *)
(* ===================================================================== *)

(** [presenceState?.()] *)
Definition read_presence (p : option PresenceState) : M value :=
  match p with
  | None => ret VUndefined
  | Some (PConst v) => ret v
  | Some (PCell c) =>
      gets (fun w => match w_cells w !! c with
                     | Some b => VBool b
                     | None => VUndefined
                     end)
  end.

(** [const onCompleteExit = (el, fn) => el.addEventListener("motioncomplete", fn)] *)
Definition onCompleteExit (el : El) (fn : Callback) : M unit :=
  addEventListener el "motioncomplete" fn.

(** The body of the effect [() => state.update(options())]. *)
Definition run_effect (b : Binding) : M unit :=
  let* o := call (b_options b) in
  state_update (b_state b) o.

(** [createEffect(fn)], as a mount callback calls it: the computation is
    installed and queued.  The runtime runs it for the first time after
    the mount callbacks of the batch (see [flush]), unless its owner is
    disposed before that, and again each time a dependency changes. *)
Definition createEffect (b : Binding) : M unit :=
  let* _ := emit (CCreateEffect (b_state b)) in
  modify (set_effects (fun l => l ++ [b])).

(** The callback given to [onCleanup]:
    [if (presenceState && options().exit) {...} else unmount()] *)
Definition run_cleanup (b : Binding) : M unit :=
  let* cond :=
    match b_presence b with
    | Some _ => let* o := call (b_options b) in ret (get o "exit")
    | None => ret VUndefined
    end in
  if truthy cond then
    let* _ := state_setActive (b_state b) "exit" true in
    onCompleteExit (b_el b) (CbUnmount (b_state b) (b_el b))
  else
    unmount (b_state b) (b_el b).

(** The callback given to [onMount].  [options] is the function that
    line 67 has already called, so the [isFunction] test is made on a
    function. *)
Definition run_mount (b : Binding) : M unit :=
  let* _ := state_mount (b_state b) (b_el b) in
  let* _ := onCleanup b in
  if isFunction (OFun (b_options b)) then createEffect b else ret tt.

(** [createAndBindMotionState(el, options, presenceState, parentState)].
    The style map that the source also returns is not part of the model. *)
Definition createAndBindMotionState (el : El) (options : Accessor)
    (presenceState : option PresenceState) (parentState : option StateId)
    : M StateId :=
  let* flag := read_presence presenceState in
  let* o := call options in
  let* state :=
    createMotionState
      (if is_false flag then <["initial" := VBool false]> o else o)
      parentState in
  let* _ := onMount (mkBinding state el options presenceState) in
  ret state.

(** [createMotion(target, options, presenceState)].  The loop that writes
    the style map to the target (lines 94 to 96) is not part of the
    model. *)
Definition createMotion (target : El) (options : OptionsArg)
    (presenceState : option PresenceState) : M StateId :=
  createAndBindMotionState target
    (match options with
     | OFun f => f
     | OStatic o => fun _ => o
     end)
    presenceState None.

(** [motion(el, props)] *)
Definition motion (el : El) (props : OptionsArg) : M unit :=
  let* p := usePresenceContext in
  let* _ := createMotion el props p in
  ret tt.

(* ===================================================================== *)
(** ** The switch transition
       ([createSwitchTransition] of [@solid-primitives/transition-group]) *)
(* ===================================================================== *)

(** The primitive is imported, not defined, by the source; this is its
    behaviour for the two modes that [Presence] selects and for the one
    hook, [onExit], that [Presence] passes. *)

Definition update_switch (sw : SwitchId) (f : Switch → Switch) : M unit :=
  modify (set_switches (fun m =>
    match m !! sw with
    | Some s => <[sw := f s]> m
    | None => m
    end)).

Definition switch_set_next (n : option El) (s : Switch) : Switch :=
  mkSwitch (sw_mode s) (sw_returned s) n (sw_exiting s) (sw_prev s) (sw_ctx s).
Definition switch_set_exiting (b : bool) (s : Switch) : Switch :=
  mkSwitch (sw_mode s) (sw_returned s) (sw_next s) b (sw_prev s) (sw_ctx s).
Definition switch_set_prev (p : option El) (s : Switch) : Switch :=
  mkSwitch (sw_mode s) (sw_returned s) (sw_next s) (sw_exiting s) p (sw_ctx s).
Definition switch_set_returned (f : list El → list El) (s : Switch) : Switch :=
  mkSwitch (sw_mode s) (f (sw_returned s)) (sw_next s) (sw_exiting s) (sw_prev s)
    (sw_ctx s).

(** [enterTransition()]: the pending child, if any, joins the rendered
    list. *)
Definition enterTransition (sw : SwitchId) : M unit :=
  let* st := gets (fun w => w_switches w !! sw) in
  match st with
  | Some s =>
      match sw_next s with
      | Some el =>
          update_switch sw (fun s =>
            switch_set_returned (cons el) (switch_set_next None s))
      | None => ret tt
      end
  | None => ret tt
  end.

(** The [remove] closure that [exitTransition] passes to [onExit]. *)
Definition run_remove (sw : SwitchId) (el : El) (enter_after : bool) : M unit :=
  let* _ := emit (CRemove sw el) in
  let* _ := update_switch sw (fun s =>
    switch_set_returned (filter (fun e => e ≠ el)) (switch_set_exiting false s)) in
  if enter_after then enterTransition sw else ret tt.

(** The [onExit] hook of [Presence] (lines 46 to 49):
    [const state = mountedStates.get(el);
     if (state && state.getOptions().exit) onCompleteExit(el, remove);
     else remove();] *)
Definition Presence_onExit (sw : SwitchId) (el : El) (enter_after : bool) : M unit :=
  let* state := mountedStates_get el in
  let* cond :=
    match state with
    | Some s => let* o := state_getOptions s in ret (get o "exit")
    | None => ret VUndefined
    end in
  if truthy cond then onCompleteExit el (CbRemove sw el enter_after)
  else run_remove sw el enter_after.

(** [exitTransition(el, after)] *)
Definition exitTransition (sw : SwitchId) (el : option El) (enter_after : bool)
    : M unit :=
  match el with
  | None => if enter_after then enterTransition sw else ret tt
  | Some e =>
      let* _ := update_switch sw (switch_set_exiting true) in
      Presence_onExit sw e enter_after
  end.

(** [triggerTransitions(prev)]: in out-in mode
    [isExiting || exitTransition(prev, enterTransition)], in parallel
    mode [exitTransition(prev); enterTransition()]. *)
Definition triggerTransitions (sw : SwitchId) (prev : option El) : M unit :=
  let* st := gets (fun w => w_switches w !! sw) in
  match st with
  | Some s =>
      match sw_mode s with
      | OutIn => if sw_exiting s then ret tt else exitTransition sw prev true
      | Parallel =>
          let* _ := exitTransition sw prev false in
          enterTransition sw
      end
  | None => ret tt
  end.

(** The computation that follows the source: when the resolved child
    differs from the previous one it becomes [next] and the transitions
    are triggered. *)
Definition source_changed (sw : SwitchId) (el : option El) : M unit :=
  let* st := gets (fun w => w_switches w !! sw) in
  match st with
  | Some s =>
      if decide (el = sw_prev s) then ret tt
      else
        let* _ := update_switch sw (switch_set_next el) in
        let* _ := triggerTransitions sw (sw_prev s) in
        update_switch sw (switch_set_prev el)
  | None => ret tt
  end.

(** [createSwitchTransition(source, { appear, mode, onExit })], given
    the first value of the source. *)
Definition createSwitchTransition (init : option El) (appear : bool)
    (mode : TransitionMode) : M SwitchId :=
  let* sw := fresh in
  let* ctx := gets w_ctx in
  let* _ := modify (set_switches (insert sw
    (mkSwitch mode
       (if appear then [] else option_list init)
       None false
       (if appear then None else init)
       ctx))) in
  let* _ := source_changed sw init in
  ret sw.

(* ===================================================================== *)
(** ** Components *)
(* ===================================================================== *)

(** What a component renders: an element with the tag that [Dynamic]
    was given and its children, or the list accessor of a switch
    transition. *)
#[warnings="-register-all"]
Inductive Node : Type :=
| NElem (el : El) (component : value) (kids : list Node)
| NSwitch (sw : SwitchId).

(** [resolveFirst(() => props.children)] of [@solid-primitives/refs]: the
    first element that the children resolve to. *)
Fixpoint first_element (sws : gmap SwitchId Switch) (ns : list Node) : option El :=
  match ns with
  | [] => None
  | NElem el _ _ :: _ => Some el
  | NSwitch sw :: ns' =>
      match sws !! sw with
      | Some s =>
          match sw_returned s with
          | el :: _ => Some el
          | [] => first_element sws ns'
          end
      | None => first_element sws ns'
      end
  end.

Definition resolveFirst (children : M (list Node)) : M (option El) :=
  let* ns := children in
  gets (fun w => first_element (w_switches w) ns).

Definition new_cell (b : bool) : M CellId :=
  let* c := fresh in
  let* _ := modify (set_cells (insert c b)) in
  ret c.

Definition write_cell (c : CellId) (b : bool) : M unit :=
  modify (set_cells (insert c b)).

Definition read_cell (c : CellId) : M bool :=
  gets (fun w => default true (w_cells w !! c)).

(** The [mode] that [Presence] passes (line 44). *)
Definition Presence_mode (props : Obj) : TransitionMode :=
  if truthy (get props "exitBeforeEnter") then OutIn else Parallel.

(** The first value of [initial] (line 32): [props.initial !== false]. *)
Definition Presence_initial (props : Obj) : bool :=
  negb (is_false (get props "initial")).

(** The inner [children] getter of [Presence] (lines 41 to 51): it makes
    the switch transition over the first child, with [appear] and [mode]
    as the variable [initial] and [props.exitBeforeEnter] are when it
    runs.  The runtime runs the getter in a tracked scope, so it runs
    again when [props.exitBeforeEnter] changes (see [Presence_rerun]). *)
Definition Presence_children (props : Props) (children : M (list Node))
    (initial : CellId) : M SwitchId :=
  let* first := resolveFirst children in
  let* appear := read_cell initial in
  let* p := gets (fun w => props (w_store w)) in
  createSwitchTransition first appear (Presence_mode p).

(** [Presence] (lines 31 to 61).  The variable [initial] is a cell: the
    provided accessor [() => initial] and the [appear] option both read
    it, and line 59 writes it. *)
Definition Presence (props : Props) (children : M (list Node)) : M Node :=
  let* p := gets (fun w => props (w_store w)) in
  let* initial := new_cell (Presence_initial p) in
  let* render :=
    provide (EPresence (PCell initial))
      (provide (EParent None) (Presence_children props children initial)) in
  let* _ := write_cell initial true in
  ret (NSwitch render).

Definition OPTION_KEYS : list string :=
  ["initial"; "animate"; "inView"; "inViewOptions"; "hover"; "press";
   "variants"; "transition"; "exit"].

Definition ATTR_KEYS : list string :=
  ["tag"; "ref"; "style"; "onMotionStart"; "onMotionComplete"; "onHoverStart";
   "onHoverEnd"; "onPressStart"; "onPressEnd"; "onViewEnter"; "onViewLeave"].

(** The first part of [splitProps(props, OPTION_KEYS, ATTR_KEYS)],
    copied by [{ ...options }]. *)
Definition pick (keys : list string) (o : Obj) : Obj :=
  filter (fun kv => kv.1 ∈ keys) o.

(** [mergeProps(a, b)]: a property is read from the last source that
    defines it. *)
Definition mergeProps (a b : Props) : Props :=
  fun st =>
    union_with (fun vb va => Some (match vb with VUndefined => va | _ => vb end))
      (b st) (a st).

(** The third part of [splitProps(props, OPTION_KEYS, ATTR_KEYS)] (line
    117): the props that neither list names. *)
Definition attrs (props : Obj) : Obj :=
  filter (fun kv => kv.1 ∉ OPTION_KEYS ++ ATTR_KEYS) props.

(** The event properties of lines 139 to 169 and the props they read. *)
Definition HANDLERS : list (string * string) :=
  [("on:motionstart", "onMotionStart"); ("on:motioncomplete", "onMotionComplete");
   ("on:hoverstart", "onHoverStart"); ("on:hoverend", "onHoverEnd");
   ("on:pressstart", "onPressStart"); ("on:pressend", "onPressEnd");
   ("on:viewenter", "onViewEnter"); ("on:viewleave", "onViewLeave")].

(** What a prop of the element can hold: the [ref] callback of lines 126
    to 129, which stores the element and then calls [props.ref] if there
    is one; the style of lines 135 to 137, which is the style of the
    binder, combined with [props.style] when that is truthy; or a value
    of the props. *)
Inductive ElementProp : Type :=
| PRef (user_ref : value)
| PStyle (user_style : option value)
| PValue (v : value).

Definition is_undefined (p : ElementProp) : bool :=
  match p with
  | PValue VUndefined => true
  | _ => false
  end.

(** The object literal of lines 125 to 170. *)
Definition own_props (props : Obj) : gmap string ElementProp :=
  list_to_map
    (("ref", PRef (get props "ref"))
     :: ("component", PValue (js_or (get props "tag") (VStr "div")))
     :: ("style", PStyle (if truthy (get props "style")
                          then Some (get props "style") else None))
     :: map (fun h => (h.1, PValue (get props h.2))) HANDLERS).

(** The props that [MotionComponent] hands to [Dynamic] (line 125):
    [mergeProps({ ... }, attrs)]. *)
Definition Dynamic_props (props : Obj) : gmap string ElementProp :=
  union_with (fun a o => Some (if is_undefined a then o else a))
    (PValue <$> attrs props) (own_props props).

(** [Dynamic] of [solid-js/web]: it renders an element of the kind that
    its [component] prop names, around the children. *)
Definition Dynamic (el : El) (ps : gmap string ElementProp) (kids : list Node)
    : Node :=
  NElem el
    (match ps !! "component" with
     | Some (PValue v) => v
     | _ => VUndefined
     end)
    kids.

(** [MotionComponent] (lines 116 to 175).  [root] stands for the element
    that [Dynamic] creates and the [ref] callback stores; the binder
    reads it only in its mount and cleanup callbacks.  The node records
    the component that [Dynamic] is given when it renders.  [component]
    is a getter: what [Dynamic] is given later is [Dynamic_props] of the
    props of that time, and when that changes [Dynamic] makes another
    element, which the [ref] callback stores in the same variable while
    the handle stays mounted on the first.  The model follows a binding
    on the element of its first render and leaves that replacement out. *)
Definition MotionComponent (props : Props) (children : M (list Node)) : M Node :=
  let* root := fresh in
  let* presence := usePresenceContext in
  let* parent := useParentContext in
  let* state :=
    createAndBindMotionState root (fun st => pick OPTION_KEYS (props st))
      presence parent in
  provide (EParent (Some state))
    (let* p := gets (fun w => props (w_store w)) in
     let* kids := children in
     ret (Dynamic root (Dynamic_props p) kids)).

(** The [get] trap of the [Motion] proxy (lines 203 to 207). *)
Definition Motion (tag : string) : Props → M (list Node) → M Node :=
  fun props children =>
    MotionComponent (mergeProps props (fun _ => {[ "tag" := VStr tag ]})) children.

(* ===================================================================== *)
(** ** Views: what user code renders *)
(* ===================================================================== *)

(** A tree of the constructs of this library as application code writes
    them: [<Motion.tag ...>] (or [<Motion ...>] with no tag), [<Presence>],
    and a plain element, possibly carrying the directive [use:motion]. *)
#[warnings="-register-all"]
Inductive View : Type :=
| VMotion (tag : option string) (props : Props) (kids : list View)
| VPresence (props : Props) (kids : list View)
| VNative (use_motion : option OptionsArg) (kids : list View).

Fixpoint render (v : View) : M Node :=
  let render_list :=
    fix go (l : list View) : M (list Node) :=
      match l with
      | [] => ret []
      | k :: l' =>
          let* n := render k in
          let* ns := go l' in
          ret (n :: ns)
      end in
  match v with
  | VMotion (Some tag) props kids => Motion tag props (render_list kids)
  | VMotion None props kids => MotionComponent props (render_list kids)
  | VPresence props kids => Presence props (render_list kids)
  | VNative directive kids =>
      let* el := fresh in
      let* _ :=
        match directive with
        | Some opts => motion el opts
        | None => ret tt
        end in
      let* ns := render_list kids in
      ret (NElem el (VStr "div") ns)
  end.

Fixpoint render_list (l : list View) : M (list Node) :=
  match l with
  | [] => ret []
  | k :: l' =>
      let* n := render k in
      let* ns := render_list l' in
      ret (n :: ns)
  end.

(* ===================================================================== *)
(** ** What the environment does *)
(* ===================================================================== *)

(** The runtime, the DOM and the application drive the code above. *)
Inductive Event : Type :=
| ERender (v : View)
| ECreateMotion (target : El) (options : OptionsArg) (presence : option PresenceState)
| EFlush
| EWrite (st : Store)
| ERerun (s : StateId)
| EDispose (s : StateId)
| EDispatch (el : El)
| ESource (sw : SwitchId) (kids : list View)
| EMount
| EChildren (sw : SwitchId) (props : Props) (kids : list View).

(** The runtime runs the queued [onMount] callbacks and returns the
    bindings whose callbacks ran.  The effects that the callbacks create
    stay queued. *)
Definition run_mounts : M (list Binding) :=
  let* bs := gets w_onmount in
  let* _ := modify (set_onmount (fun _ => [])) in
  let* _ := for_each bs run_mount in
  ret bs.

(** The effects that the mount callbacks of [bs] create (line 78). *)
Definition created_effects (bs : list Binding) : list Binding :=
  filter (fun b => isFunction (OFun (b_options b)) = true) bs.

(** One whole batch of the runtime: the queued [onMount] callbacks run,
    then the effects that they created run for the first time, in the
    order of their creation. *)
Definition flush : M unit :=
  let* bs := run_mounts in
  for_each (created_effects bs) run_effect.

(** The runtime runs the update effect of the binding of [s], if one is
    installed: again, when a dependency has changed, or for the first
    time, when the batch that created it was cut short after the mount
    callbacks ([EMount]). *)
Definition rerun (s : StateId) : M unit :=
  let* es := gets w_effects in
  for_each (filter (fun b => b_state b = s) es) run_effect.

(** The runtime disposes the owner of the binding of [s]: a callback
    still queued for mount is dropped, the update effect is removed and
    the registered cleanup runs. *)
Definition dispose (s : StateId) : M unit :=
  let* cs := gets w_cleanups in
  let* _ := modify (set_onmount (filter (fun b => b_state b ≠ s))) in
  let* _ := modify (set_effects (filter (fun b => b_state b ≠ s))) in
  let* _ := modify (set_cleanups (filter (fun b => b_state b ≠ s))) in
  for_each (filter (fun b => b_state b = s) cs) run_cleanup.

(** Calling a registered listener. *)
Definition invoke (cb : Callback) : M unit :=
  match cb with
  | CbUnmount s el => unmount s el
  | CbRemove sw el enter_after => run_remove sw el enter_after
  end.

(** A [motioncomplete] event is dispatched on [el]: every listener
    registered on [el] is called, in the order of registration. *)
Definition dispatch (el : El) : M unit :=
  let* ls := gets w_listeners in
  for_each (filter (fun l => l.1 = el) ls) (fun l => invoke l.2).

(** The children of the [Presence] that owns [sw] are evaluated again,
    in the context of that [Presence], and the switch follows. *)
Definition source (sw : SwitchId) (kids : list View) : M unit :=
  let* st := gets (fun w => w_switches w !! sw) in
  match st with
  | Some s =>
      let* saved := gets w_ctx in
      let* _ := modify (set_ctx (fun _ => sw_ctx s)) in
      let* first := resolveFirst (render_list kids) in
      let* _ := modify (set_ctx (fun _ => saved)) in
      source_changed sw first
  | None => ret tt
  end.

(** [props.exitBeforeEnter] of the [Presence] that owns [sw] has
    changed: its [children] getter runs again, in the context of that
    [Presence] and with its variable [initial], and makes a new switch
    transition over the children rendered anew.  The runtime cleans up
    what the previous run rendered before that; the bindings of these
    children are disposed by events of their own. *)
Definition Presence_rerun (sw : SwitchId) (props : Props) (kids : list View)
    : M unit :=
  let* st := gets (fun w => w_switches w !! sw) in
  match st with
  | Some s =>
      match lookup_presence (sw_ctx s) with
      | Some (PCell initial) =>
          let* saved := gets w_ctx in
          let* _ := modify (set_ctx (fun _ => sw_ctx s)) in
          let* _ := Presence_children props (render_list kids) initial in
          modify (set_ctx (fun _ => saved))
      | _ => ret tt
      end
  | None => ret tt
  end.

(** What the environment does.  A batch of the runtime is [EFlush]; a
    batch in which the application does something between the mount
    callbacks and the effects (it writes signals, disposes owners,
    renders) is [EMount], then the events of what it does, then an
    [ERerun] for each effect that is still installed. *)
Definition step (e : Event) : M unit :=
  match e with
  | ERender v => let* _ := render v in ret tt
  | ECreateMotion target options presence =>
      let* _ := createMotion target options presence in ret tt
  | EFlush => flush
  | EWrite st => modify (set_store st)
  | ERerun s => rerun s
  | EDispose s => dispose s
  | EDispatch el => dispatch el
  | ESource sw kids => source sw kids
  | EMount => let* _ := run_mounts in ret tt
  | EChildren sw props kids => Presence_rerun sw props kids
  end.

Definition steps (es : list Event) : M unit := for_each es step.

(** Observations on the log. *)
Definition is_unmount (s : StateId) (c : Call) : bool :=
  match c with
  | CUnmount s' => bool_decide (s' = s)
  | _ => false
  end.

Definition is_remove (sw : SwitchId) (el : El) (c : Call) : bool :=
  match c with
  | CRemove sw' el' => bool_decide (sw' = sw) && bool_decide (el' = el)
  | _ => false
  end.

Definition unmounts_of (s : StateId) (l : list Call) : nat :=
  length (filter (fun c => is_unmount s c) l).

Definition removes_of (sw : SwitchId) (el : El) (l : list Call) : nat :=
  length (filter (fun c => is_remove sw el c) l).

(** Unfolding of the primitive operations down to the world they build. *)
Ltac unfold_prims :=
  unfold createMotionState, state_mount, unmount, state_update, state_setActive,
    state_getOptions, mountedStates_get, addEventListener, onCompleteExit,
    usePresenceContext, useParentContext, onMount, onCleanup, call, emit, fresh,
    new_cell, write_cell, read_cell, update_switch in *.

Ltac unfold_monad :=
  unfold exec, eval, bind, ret, gets, modify in *.

Ltac unfold_sets :=
  unfold set_log, set_next, set_ctx, set_cells, set_opts, set_mounted,
    set_onmount, set_cleanups, set_effects, set_listeners, set_switches,
    set_store in *.

Ltac wsimpl := unfold_prims; unfold_monad; unfold_sets; simpl in *.

(** Worlds reached from the empty one by what the environment can do. *)
Definition reachable (w : World) : Prop :=
  ∃ es, w = exec (steps es) empty_world.

(* ===================================================================== *)
(** ** What rendering can change *)
(* ===================================================================== *)

(** The call creates a handle. *)
Definition is_create (c : Call) : bool :=
  match c with
  | CCreateMotionState _ _ _ => true
  | _ => false
  end.

(** The handle that a call is about. *)
Definition call_state (c : Call) : option StateId :=
  match c with
  | CCreateMotionState s _ _ | CMount s _ | CUpdate s _ | CSetActive s _ _
  | CUnmount s | CCreateEffect s => Some s
  | CAddEventListener _ _ (CbUnmount s _) => Some s
  | CAddEventListener _ _ (CbRemove _ _ _) | CRemove _ _ => None
  end.

(** The call is about a handle below [n], if about any. *)
Definition bounded (n : nat) (c : Call) : Prop :=
  match call_state c with
  | Some s => s < n
  | None => True
  end.

(** [extends w w']: [w'] differs from [w] only by fresh identities, by
    handles created and by bindings queued for mount under fresh
    handles.  Rendering a view does no more than this. *)
Record extends (w w' : World) : Prop := mkExtends {
  ext_store : w_store w' = w_store w;
  ext_ctx : w_ctx w' = w_ctx w;
  ext_next : w_next w ≤ w_next w';
  ext_log : ∃ l, w_log w' = w_log w ++ l
      ∧ Forall (fun c => is_create c ∧ bounded (w_next w') c) l;
  ext_cells : ∀ c, c < w_next w → w_cells w' !! c = w_cells w !! c;
  ext_opts : ∀ s, s < w_next w → w_opts w' !! s = w_opts w !! s;
  ext_mounted : w_mounted w' = w_mounted w;
  ext_onmount : ∃ bs, w_onmount w' = w_onmount w ++ bs
      ∧ Forall (fun b => w_next w ≤ b_state b < w_next w') bs
      ∧ NoDup (map b_state bs);
  ext_cleanups : w_cleanups w' = w_cleanups w;
  ext_effects : w_effects w' = w_effects w;
  ext_listeners : w_listeners w' = w_listeners w;
  ext_switches : ∀ sw, sw < w_next w → w_switches w' !! sw = w_switches w !! sw
}.

(** A computation that only extends the world. *)
Definition Ext {A} (m : M A) : Prop := ∀ w, extends w (exec m w).

(** A computation on one switch leaves everything else alone. *)
Record only_switch (sw : SwitchId) (w w' : World) : Prop := mkOnlySwitch {
  os_world : w' = set_switches (fun _ => w_switches w') w;
  os_other : ∀ k, k ≠ sw → w_switches w' !! k = w_switches w !! k
}.

(* ===================================================================== *)
(** ** What callbacks, effects and switches can change *)
(* ===================================================================== *)

Definition is_remove_cb (cb : Callback) : bool :=
  match cb with
  | CbRemove _ _ _ => true
  | CbUnmount _ _ => false
  end.

(** [quiet P w w']: no identity is drawn, no binding changes its place
    in the life cycle, the only listeners added are [remove] closures,
    and every call recorded satisfies [P]. *)
Record quiet (P : Call → Prop) (w w' : World) : Prop := mkQuiet {
  q_store : w_store w' = w_store w;
  q_ctx : w_ctx w' = w_ctx w;
  q_next : w_next w' = w_next w;
  q_log : ∃ l, w_log w' = w_log w ++ l ∧ Forall P l;
  q_cells : w_cells w' = w_cells w;
  q_onmount : w_onmount w' = w_onmount w;
  q_cleanups : w_cleanups w' = w_cleanups w;
  q_effects : w_effects w' = w_effects w;
  q_listeners : ∃ ls, w_listeners w' = w_listeners w ++ ls
      ∧ Forall (fun l => is_remove_cb l.2) ls;
  q_switches : ∀ sw s, w_switches w !! sw = Some s →
      ∃ s', w_switches w' !! sw = Some s'
            ∧ sw_ctx s' = sw_ctx s ∧ sw_mode s' = sw_mode s
}.

(** A computation that is quiet in every world. *)
Definition Quiet {A} (P : Call → Prop) (m : M A) : Prop :=
  ∀ w, quiet P w (exec m w).

(** What every update of a switch in this code keeps: the context that
    the switch captured and its mode. *)
Definition keeps_switch (f : Switch → Switch) : Prop :=
  ∀ s, sw_ctx (f s) = sw_ctx s ∧ sw_mode (f s) = sw_mode s.

(** The calls that the switch transition and the exit hook can make. *)
Definition switch_call (c : Call) : bool :=
  match c with
  | CRemove _ _ => true
  | CAddEventListener _ _ cb => is_remove_cb cb
  | _ => false
  end.

(* ===================================================================== *)
(** ** Mount and cleanup, call by call *)
(* ===================================================================== *)

(** Whether the cleanup of [b] defers its unmount, with the store [st]:
    the value of [presenceState && options().exit]. *)
Definition defers (st : Store) (b : Binding) : bool :=
  truthy (match b_presence b with
          | Some _ => get (b_options b st) "exit"
          | None => VUndefined
          end).

(** The calls of the mount callback of [b], the call of a run of its
    effect, and the calls of its cleanup. *)
Definition mount_trace (b : Binding) : list Call :=
  [CMount (b_state b) (b_el b); CCreateEffect (b_state b)].

Definition first_update (st : Store) (b : Binding) : Call :=
  CUpdate (b_state b) (b_options b st).

(** The calls of a whole batch that mounts [bs]. *)
Definition flush_trace (st : Store) (bs : list Binding) : list Call :=
  concat (map mount_trace bs) ++ map (first_update st) bs.

Definition cleanup_trace (st : Store) (b : Binding) : list Call :=
  if defers st b then
    [CSetActive (b_state b) "exit" true;
     CAddEventListener (b_el b) "motioncomplete" (CbUnmount (b_state b) (b_el b))]
  else [CUnmount (b_state b)].

Definition cleanup_listeners (st : Store) (b : Binding) : list (El * Callback) :=
  if defers st b then [(b_el b, CbUnmount (b_state b) (b_el b))] else [].

(** The fields that neither mounting nor cleaning up touches. *)
Record same_frame (w w' : World) : Prop := mkSameFrame {
  sf_store : w_store w' = w_store w;
  sf_ctx : w_ctx w' = w_ctx w;
  sf_next : w_next w' = w_next w;
  sf_cells : w_cells w' = w_cells w;
  sf_switches : w_switches w' = w_switches w
}.

(** The call that invoking a listener records. *)
Definition invoke_call (cb : Callback) : Call :=
  match cb with
  | CbUnmount s _ => CUnmount s
  | CbRemove sw el _ => CRemove sw el
  end.

(* ===================================================================== *)
(** ** Well-formed worlds *)
(* ===================================================================== *)

(** What holds of every world the environment can reach: handles of
    bindings are below the counter and pairwise distinct, an update
    effect belongs to a mounted binding, and a deferred [unmount] is
    registered on its own element for a binding that was cleaned up. *)
Record wf (w : World) : Prop := mkWf {
  wf_bound : Forall (fun b => b_state b < w_next w) (w_cleanups w ++ w_onmount w);
  wf_nodup : NoDup (map b_state (w_cleanups w ++ w_onmount w));
  wf_effects : Forall (fun b => b ∈ w_cleanups w) (w_effects w);
  wf_effects_nodup : NoDup (map b_state (w_effects w));
  wf_listeners :
    Forall (fun l => match l.2 with
                     | CbUnmount s e =>
                         l.1 = e ∧ s < w_next w
                         ∧ s ∉ map b_state (w_cleanups w ++ w_onmount w)
                     | CbRemove _ _ _ => True
                     end) (w_listeners w);
  wf_log : Forall (bounded (w_next w)) (w_log w)
}.

(* ===================================================================== *)
(** ** Counting calls *)
(* ===================================================================== *)

Definition is_update (s : StateId) (c : Call) : bool :=
  match c with
  | CUpdate s' _ => bool_decide (s' = s)
  | _ => false
  end.

Definition updates_count (s : StateId) (l : list Call) : nat :=
  length (filter (fun c => is_update s c) l).

Definition is_dispatch (el : El) (e : Event) : bool :=
  match e with
  | EDispatch el' => bool_decide (el' = el)
  | _ => false
  end.

Definition is_rerun (s : StateId) (e : Event) : bool :=
  match e with
  | ERerun s' => bool_decide (s' = s)
  | _ => false
  end.

Definition is_dispose (s : StateId) (e : Event) : bool :=
  match e with
  | EDispose s' => bool_decide (s' = s)
  | _ => false
  end.

Definition count_events (f : Event → bool) (es : list Event) : nat :=
  length (filter (fun e => f e) es).

(* ===================================================================== *)
(** ** A binding whose unmount is deferred *)
(* ===================================================================== *)

Definition is_unmount_listener (s : StateId) (l : El * Callback) : bool :=
  match l.2 with
  | CbUnmount s' _ => bool_decide (s' = s)
  | CbRemove _ _ _ => false
  end.

(** The binding of [s] has been cleaned up, and its [unmount] waits as
    the one listener for [s], on [el]. *)
Record exit_pending (s : StateId) (el : El) (w : World) : Prop := mkExitPending {
  ep_gone : s ∉ map b_state (w_cleanups w ++ w_onmount w);
  ep_bound : s < w_next w;
  ep_listener :
    filter (fun l => is_unmount_listener s l) (w_listeners w)
    = [(el, CbUnmount s el)]
}.

(* ===================================================================== *)
(** ** A mounted binding and its update effect *)
(* ===================================================================== *)

(** The cleanup of [b] is registered and [b] has its one update effect. *)
Record mounted (b : Binding) (w : World) : Prop := mkMounted {
  m_cleanup : b ∈ w_cleanups w;
  m_effect : filter (fun b' => b_state b' = b_state b) (w_effects w) = [b]
}.

(* ===================================================================== *)
(** ** Listeners that stay registered *)
(* ===================================================================== *)

(** Computations that register no listener. *)
Definition Keep {A} (m : M A) : Prop :=
  ∀ w, w_listeners (exec m w) = w_listeners w.

(** The [remove] closures for [(sw, el)] that are registered on [el]. *)
Definition pending_removes (sw : SwitchId) (el : El) (w : World) : nat :=
  length (filter (fun l => is_remove sw el (invoke_call l.2))
            (filter (fun l => l.1 = el) (w_listeners w))).

(* ===================================================================== *)
(** ** A [Presence] after its first render *)
(* ===================================================================== *)

(** The cell [c] of a [Presence] reads [true], and its switch [sw] holds
    the context it captured and the mode it was given. *)
Record presence_alive (c : CellId) (sw : SwitchId) (ctx : list CtxEntry)
    (mode : TransitionMode) (w : World) : Prop := mkPresenceAlive {
  pa_cell_bound : c < w_next w;
  pa_switch_bound : sw < w_next w;
  pa_cell : w_cells w !! c = Some true;
  pa_switch : ∃ s, w_switches w !! sw = Some s
                   ∧ sw_ctx s = ctx ∧ sw_mode s = mode
}.

(** The log only grows. *)
Definition grows (w w' : World) : Prop := ∃ l, w_log w' = w_log w ++ l.

(** What a binder reads from its presence flag in [w]. *)
Definition presence_value (p : option PresenceState) (w : World) : value :=
  eval (read_presence p) w.

(** The options that line 67 hands to [createMotionState]. *)
Definition construction_options (flag : value) (o : Obj) : Obj :=
  if is_false flag then <["initial" := VBool false]> o else o.

(** The props that [MotionComponent] receives from [<Motion.tag>] or from
    [<Motion>]. *)
Definition motion_props (tag : option string) (props : Props) : Props :=
  match tag with
  | Some t => mergeProps props (fun _ => {[ "tag" := VStr t ]})
  | None => props
  end.

(* ===================================================================== *)
(** ** What a switch shows *)
(* ===================================================================== *)

(** The rendered list of a switch. *)
Definition returned (sw : SwitchId) (w : World) : list El :=
  match w_switches w !! sw with
  | Some s => sw_returned s
  | None => []
  end.

(* ===================================================================== *)
(** ** Sample worlds *)
(* ===================================================================== *)

(** A mounted binding with a presence flag and an [exit] target. *)
Definition sample_exit_options : Obj :=
  {[ "exit" := VObj [("opacity", VNum 0)] ]}.

Definition sample_mounted_world : World :=
  exec (steps [ECreateMotion 7 (OStatic sample_exit_options)
                 (Some (PConst (VBool true)));
               EFlush]) empty_world.

Definition sample_binding : Binding :=
  mkBinding 0 7 (fun _ => sample_exit_options) (Some (PConst (VBool true))).

(** A [Presence] with [exitBeforeEnter] showing one [Motion] element with
    an [exit] target, mounted. *)
Definition sample_presence_world : World :=
  exec (steps [ERender (VPresence (fun _ => {[ "exitBeforeEnter" := VBool true ]})
                          [VMotion (Some "div") (fun _ => sample_exit_options) []]);
               EFlush]) empty_world.

Definition sample_switch : Switch :=
  mkSwitch OutIn [1] None false (Some 1) [EParent None; EPresence (PCell 0)].

(* ===================================================================== *)
(** ** What rendering queues *)
(* ===================================================================== *)

(** [l] creates the handles of the bindings [bs], one call for each, in
    the same order. *)
Definition creates (bs : list Binding) (l : list Call) : Prop :=
  Forall2 (fun b c => ∃ o p, c = CCreateMotionState (b_state b) o p) bs l.

(** From [w] to [w'] every call recorded creates a handle and queues the
    mount callback of its binding. *)
Definition queues (w w' : World) : Prop :=
  ∃ bs l, w_onmount w' = w_onmount w ++ bs
          ∧ w_log w' = w_log w ++ l
          ∧ creates bs l.

Definition Queues {A} (m : M A) : Prop := ∀ w, queues w (exec m w).

(** From [w] to [w'] the bindings queued are bound to new elements, each
    created just before its handle. *)
Definition pairs (w w' : World) : Prop :=
  w_next w ≤ w_next w'
  ∧ ∃ bs, w_onmount w' = w_onmount w ++ bs
          ∧ Forall (fun b => w_next w ≤ b_el b ∧ b_state b = S (b_el b)) bs.

Definition Pairs {A} (m : M A) : Prop := ∀ w, pairs w (exec m w).

(** [m] queues [n] mount callbacks. *)
Definition Counts {A} (n : nat) (m : M A) : Prop :=
  ∀ w, length (w_onmount (exec m w)) = length (w_onmount w) + n.

(* ===================================================================== *)
(** ** The life cycle of one handle *)
(* ===================================================================== *)

(** The calls of the log that are made on handle [s]. *)
Definition calls_on (s : StateId) (l : list Call) : list Call :=
  filter (fun c => call_state c = Some s) l.

(** Where a handle stands, as the calls made on it so far show. *)
Inductive Phase : Type :=
| Absent
| Created
| Mounting (el : El)
| Wiring (el : El)
| Live (el : El)
| Exiting (el : El)
| ExitPending (el : El)
| Completed (el : El)
| Detached.

(** The calls that the binder makes on a handle, in the order of lines
    67 to 78: [createMotionState], then in the mount callback
    [state.mount(el)] and [createEffect]; then the [update]s of the
    effect, of which there is none if the binding is cleaned up before
    the effect first runs; then the cleanup, which either calls
    [unmount] or calls [setActive("exit", true)] and registers [unmount]
    on the same element, after which only [unmount] is called. *)
Definition advance (p : Phase) (c : Call) : option Phase :=
  match p with
  | Absent =>
      match c with CCreateMotionState _ _ _ => Some Created | _ => None end
  | Created =>
      match c with CMount _ el => Some (Mounting el) | _ => None end
  | Mounting el =>
      match c with CCreateEffect _ => Some (Wiring el) | _ => None end
  | Wiring el | Live el =>
      match c with
      | CUpdate _ _ => Some (Live el)
      | CUnmount _ => Some Detached
      | CSetActive _ name on =>
          if bool_decide (name = "exit") && on then Some (Exiting el) else None
      | _ => None
      end
  | Exiting el =>
      match c with
      | CAddEventListener el' type (CbUnmount _ el'') =>
          if bool_decide (el' = el) && bool_decide (el'' = el)
             && bool_decide (type = "motioncomplete")
          then Some (ExitPending el) else None
      | _ => None
      end
  | ExitPending el | Completed el =>
      match c with CUnmount _ => Some (Completed el) | _ => None end
  | Detached => None
  end.

Fixpoint run (p : Phase) (l : list Call) : option Phase :=
  match l with
  | [] => Some p
  | c :: l' =>
      match advance p c with
      | Some p' => run p' l'
      | None => None
      end
  end.

(** Handle [s] is in phase [p] in [w]: the calls made on it lead there,
    and the phase agrees with where its binding sits in the runtime. *)
Record lifecycle_at (s : StateId) (w : World) (p : Phase) : Prop := mkLifecycleAt {
  lc_run : run Absent (calls_on s (w_log w)) = Some p;
  lc_queued : ∀ b, b ∈ w_onmount w → b_state b = s → p = Created;
  lc_live : ∀ b, b ∈ w_cleanups w → b_state b = s →
      p = Wiring (b_el b) ∨ p = Live (b_el b);
  lc_exit : ∀ el e, (el, CbUnmount s e) ∈ w_listeners w →
      p = ExitPending e ∨ p = Completed e
}.

Definition lifecycle (w : World) : Prop := ∀ s, ∃ p, lifecycle_at s w p.

(* ===================================================================== *)
(** ** The flag below a [Presence] *)
(* ===================================================================== *)

(** The view holds no [Presence] of its own. *)
Fixpoint no_presence (v : View) : bool :=
  match v with
  | VMotion _ _ kids => forallb no_presence kids
  | VPresence _ _ => false
  | VNative _ kids => forallb no_presence kids
  end.

(** The bindings that a view makes: one for each [Motion] element and
    one for each [use:motion] directive. *)
Fixpoint bindings_in (v : View) : nat :=
  match v with
  | VMotion _ _ kids => S (list_sum (map bindings_in kids))
  | VPresence _ kids => list_sum (map bindings_in kids)
  | VNative (Some _) kids => S (list_sum (map bindings_in kids))
  | VNative None kids => list_sum (map bindings_in kids)
  end.

(** The call creates a handle with [initial: false]. *)
Definition creates_without_initial (c : Call) : Prop :=
  ∃ s o p, c = CCreateMotionState s o p ∧ o !! "initial" = Some (VBool false).

(** In [w] the nearest [Presence] is the one of cell [c], and its flag
    reads [false]. *)
Record first_render_of (c : CellId) (w : World) : Prop := mkFirstRenderOf {
  fr_ctx : lookup_presence (w_ctx w) = Some (PCell c);
  fr_cell : w_cells w !! c = Some false;
  fr_bound : c < w_next w
}.

(** Run below such a [Presence], [m] records [n] calls, each creating a
    handle with [initial: false]. *)
Definition Forced {A} (c : CellId) (n : nat) (m : M A) : Prop :=
  ∀ w, first_render_of c w →
    ∃ l, w_log (exec m w) = w_log w ++ l
         ∧ Forall creates_without_initial l ∧ length l = n.

(* ===================================================================== *)
(** ** Option props and defined props *)
(* ===================================================================== *)

(** [o] holds the option props of [props] and nothing else. *)
Definition options_of (props o : Obj) : Prop :=
  (∀ k, k ∉ OPTION_KEYS → o !! k = None)
  ∧ (∀ k, k ∈ OPTION_KEYS → o !! k = props !! k).

(** The value of [props.k] when it is defined. *)
Definition defined (props : Obj) (k : string) : option value :=
  match props !! k with
  | Some VUndefined | None => None
  | Some v => Some v
  end.

(** Membership in a list of literal keys. *)
Ltac in_keys := apply list_elem_of_In; simpl; tauto.

Ltac not_in_keys H :=
  unfold OPTION_KEYS, ATTR_KEYS in H; simpl in H;
  repeat (apply elem_of_cons in H as [H|H]; [discriminate H|]);
  by apply elem_of_nil in H.

(* ===================================================================== *)
(** ** A [Presence] and its one [Motion] child *)
(* ===================================================================== *)

(** The switch of a [Presence] that shows [first] and has nothing in
    progress. *)
Definition idle_switch (mode : TransitionMode) (first : option El)
    (ctx : list CtxEntry) : Switch :=
  mkSwitch mode (option_list first) None false first ctx.

(** [enter_after] of the [remove] closure: in out-in mode the entering
    step runs after the removal. *)
Definition enters_after (mode : TransitionMode) : bool :=
  match mode with
  | OutIn => true
  | Parallel => false
  end.

(** The tables of the engine after the mount callbacks of [bs]. *)
Definition mounted_after (bs : list Binding) (m : gmap El StateId) : gmap El StateId :=
  foldl (fun m b => <[b_el b := b_state b]> m) m bs.

Definition opts_after (st : Store) (bs : list Binding) (m : gmap StateId Obj)
    : gmap StateId Obj :=
  foldl (fun m b => <[b_state b := b_options b st]> m) m bs.

(* ===================================================================== *)
(** ** Reasoning about monadic code *)
(* ===================================================================== *)

Lemma exec_bind {A B} (m : M A) (k : A → M B) w :
  exec (bind m k) w = exec (k (eval m w)) (exec m w).
Proof. unfold exec, eval, bind. by destruct (m w). Qed.

Lemma eval_bind {A B} (m : M A) (k : A → M B) w :
  eval (bind m k) w = eval (k (eval m w)) (exec m w).
Proof. unfold exec, eval, bind. by destruct (m w). Qed.

Lemma exec_ret {A} (a : A) w : exec (ret a) w = w.
Proof. done. Qed.

Lemma exec_for_each_app {A} (l1 l2 : list A) (f : A → M unit) w :
  exec (for_each (l1 ++ l2) f) w = exec (for_each l2 f) (exec (for_each l1 f) w).
Proof.
  revert w. induction l1 as [|x l1 IH]; intros w; simpl; [done|].
  by rewrite !exec_bind, IH.
Qed.

Lemma exec_steps_app es1 es2 w :
  exec (steps (es1 ++ es2)) w = exec (steps es2) (exec (steps es1) w).
Proof. apply exec_for_each_app. Qed.

Lemma exec_steps_cons e es w :
  exec (steps (e :: es)) w = exec (steps es) (exec (step e) w).
Proof. unfold steps. simpl. by rewrite exec_bind. Qed.

Lemma reachable_empty : reachable empty_world.
Proof. by exists []. Qed.

Lemma reachable_step e w : reachable w → reachable (exec (step e) w).
Proof.
  intros [es ->]. exists (es ++ [e]).
  by rewrite exec_steps_app, exec_steps_cons.
Qed.

Lemma reachable_steps es w : reachable w → reachable (exec (steps es) w).
Proof.
  revert w. induction es as [|e es IH]; intros w Hw; [done|].
  rewrite exec_steps_cons. by apply IH, reachable_step.
Qed.

(* ===================================================================== *)
(** ** Rendering only extends the world *)
(* ===================================================================== *)

Lemma bounded_mono n m c : n ≤ m → bounded n c → bounded m c.
Proof. unfold bounded. destruct (call_state c); [lia | done]. Qed.

Lemma extends_refl w : extends w w.
Proof.
  split; try done.
  - exists []. by rewrite app_nil_r.
  - exists []. rewrite app_nil_r. repeat split; [done | constructor].
Qed.

Lemma extends_trans w1 w2 w3 : extends w1 w2 → extends w2 w3 → extends w1 w3.
Proof.
  intros [S1 C1 N1 (l1 & L1 & F1) Ce1 O1 Mo1 (b1 & B1 & G1 & D1) Cl1 E1 Li1 Sw1]
         [S2 C2 N2 (l2 & L2 & F2) Ce2 O2 Mo2 (b2 & B2 & G2 & D2) Cl2 E2 Li2 Sw2].
  split; try congruence; try lia.
  - exists (l1 ++ l2). rewrite L2, L1, app_assoc. split; [done|].
    apply Forall_app. split; [|done].
    eapply Forall_impl; [exact F1|]. simpl. intros c [? ?]. split; [done|].
    by eapply bounded_mono.
  - intros c Hc. rewrite Ce2 by lia. by apply Ce1.
  - intros s Hs. rewrite O2 by lia. by apply O1.
  - exists (b1 ++ b2). rewrite B2, B1, app_assoc. split; [done|]. split.
    + apply Forall_app. split.
      * eapply Forall_impl; [exact G1|]. simpl. intros; lia.
      * eapply Forall_impl; [exact G2|]. simpl. intros; lia.
    + rewrite map_app. apply NoDup_app. split; [done|]. split; [|done].
      intros s Hs1 Hs2.
      apply list_elem_of_fmap in Hs1 as (x1 & -> & Hx1).
      apply list_elem_of_fmap in Hs2 as (x2 & Heq & Hx2).
      rewrite Forall_forall in G1, G2.
      specialize (G1 _ Hx1). specialize (G2 _ Hx2). simpl in *. lia.
  - intros sw Hsw. rewrite Sw2 by lia. by apply Sw1.
Qed.

Lemma Ext_ret {A} (a : A) : Ext (ret a).
Proof. intros w. apply extends_refl. Qed.

Lemma Ext_gets {A} (f : World → A) : Ext (gets f).
Proof. intros w. apply extends_refl. Qed.

Lemma Ext_bind {A B} (m : M A) (k : A → M B) :
  Ext m → (∀ a, Ext (k a)) → Ext (bind m k).
Proof.
  intros Hm Hk w. rewrite exec_bind.
  eapply extends_trans; [apply Hm | apply Hk].
Qed.

Lemma Ext_fresh : Ext fresh.
Proof.
  intros w. wsimpl. split; simpl; try done; try lia.
  - exists []. by rewrite app_nil_r.
  - exists []. rewrite app_nil_r. repeat split; [done | constructor].
Qed.

Lemma Ext_provide {A} (e : CtxEntry) (m : M A) : Ext m → Ext (provide e m).
Proof.
  intros Hm w. unfold provide. rewrite !exec_bind.
  specialize (Hm (exec (modify (set_ctx (fun c => e :: c))) w)).
  destruct Hm as [St C N L Ce O Mo B Cl E Li Sw].
  wsimpl. split; simpl; try done.
Qed.

Lemma Ext_createAndBindMotionState el options presence parent :
  Ext (createAndBindMotionState el options presence parent).
Proof.
  intros w. unfold createAndBindMotionState, read_presence.
  destruct presence as [[c|v]|]; wsimpl.
  all: split; simpl; try done; try lia.
  all: try (eexists; split; [reflexivity|]; repeat constructor; simpl; lia).
  all: try (intros s Hs; rewrite lookup_insert_ne by lia; done).
  all: eexists; split; [reflexivity|]; split;
    [repeat constructor; simpl; lia | simpl; apply NoDup_singleton].
Qed.

Lemma Ext_createMotion target options presence :
  Ext (createMotion target options presence).
Proof. apply Ext_createAndBindMotionState. Qed.

Lemma Ext_motion el props : Ext (motion el props).
Proof.
  unfold motion. apply Ext_bind; [apply Ext_gets|]. intros p.
  apply Ext_bind; [apply Ext_createMotion|]. intros _. apply Ext_ret.
Qed.

Lemma Ext_MotionComponent props children :
  Ext children → Ext (MotionComponent props children).
Proof.
  intros Hc. unfold MotionComponent.
  apply Ext_bind; [apply Ext_fresh|]. intros root.
  apply Ext_bind; [apply Ext_gets|]. intros presence.
  apply Ext_bind; [apply Ext_gets|]. intros parent.
  apply Ext_bind; [apply Ext_createAndBindMotionState|]. intros state.
  apply Ext_provide.
  apply Ext_bind; [apply Ext_gets|]. intros p.
  apply Ext_bind; [apply Hc|]. intros kids. apply Ext_ret.
Qed.

Lemma exec_gets {A} (f : World → A) w : exec (gets f) w = w.
Proof. done. Qed.
Lemma eval_gets {A} (f : World → A) w : eval (gets f) w = f w.
Proof. done. Qed.
Lemma exec_modify f w : exec (modify f) w = f w.
Proof. done. Qed.

Lemma only_switch_refl sw w : only_switch sw w w.
Proof. split; [by destruct w | done]. Qed.

Lemma only_switch_trans sw w1 w2 w3 :
  only_switch sw w1 w2 → only_switch sw w2 w3 → only_switch sw w1 w3.
Proof.
  intros [E1 O1] [E2 O2]. split.
  - rewrite E2 at 1. rewrite E1 at 1. done.
  - intros k Hk. rewrite O2, O1; done.
Qed.

Lemma only_switch_update sw f w : only_switch sw w (exec (update_switch sw f) w).
Proof.
  unfold update_switch. rewrite exec_modify. split.
  - done.
  - intros k Hk. unfold set_switches; simpl.
    destruct (w_switches w !! sw); [|done]. by rewrite lookup_insert_ne.
Qed.

Lemma only_switch_enter sw w : only_switch sw w (exec (enterTransition sw) w).
Proof.
  unfold enterTransition. rewrite exec_bind, exec_gets, eval_gets.
  destruct (w_switches w !! sw) as [s|]; [|apply only_switch_refl].
  destruct (sw_next s); [apply only_switch_update | apply only_switch_refl].
Qed.

Lemma only_switch_exit_none sw after w :
  only_switch sw w (exec (exitTransition sw None after) w).
Proof.
  simpl. destruct after; [apply only_switch_enter | apply only_switch_refl].
Qed.

Lemma only_switch_trigger_none sw w :
  only_switch sw w (exec (triggerTransitions sw None) w).
Proof.
  unfold triggerTransitions. rewrite exec_bind, exec_gets, eval_gets.
  destruct (w_switches w !! sw) as [s|]; [|apply only_switch_refl].
  destruct (sw_mode s).
  - rewrite exec_bind. eapply only_switch_trans;
      [apply only_switch_exit_none | apply only_switch_enter].
  - destruct (sw_exiting s);
      [apply only_switch_refl | apply only_switch_exit_none].
Qed.

(** When the source shows its first child there is nothing to exit. *)
Lemma only_switch_source_first sw el w :
  (∀ s, w_switches w !! sw = Some s → sw_prev s = None ∨ sw_prev s = el) →
  only_switch sw w (exec (source_changed sw el) w).
Proof.
  intros Hprev. unfold source_changed. rewrite exec_bind, exec_gets, eval_gets.
  destruct (w_switches w !! sw) as [s|] eqn:Hs; [|apply only_switch_refl].
  destruct (decide (el = sw_prev s)) as [|Hne]; [apply only_switch_refl|].
  destruct (Hprev s eq_refl) as [Hp|Hp]; [|congruence].
  rewrite Hp, !exec_bind.
  eapply only_switch_trans; [apply only_switch_update|].
  eapply only_switch_trans; [apply only_switch_trigger_none|].
  apply only_switch_update.
Qed.

Lemma only_switch_extends sw w w' :
  w_next w ≤ sw → only_switch sw (set_next S w) w' → extends w w'.
Proof.
  intros Hsw [E O]. rewrite E. split; simpl; try done; try lia.
  - exists []. by rewrite app_nil_r.
  - exists []. rewrite app_nil_r. repeat split; [done | constructor].
  - intros k Hk. rewrite O by lia. done.
Qed.

Lemma Ext_createSwitchTransition init appear mode :
  Ext (createSwitchTransition init appear mode).
Proof.
  intros w. unfold createSwitchTransition.
  rewrite !exec_bind, exec_gets, exec_modify, exec_ret. unfold eval at 1 2 3. simpl.
  apply (only_switch_extends (w_next w)); [done|].
  eapply only_switch_trans; [|apply only_switch_source_first].
  - split; [done|]. intros k Hk. simpl. by rewrite lookup_insert_ne.
  - intros s. simpl. rewrite lookup_insert_eq. intros [= <-]. simpl.
    destruct appear; auto.
Qed.

Lemma Ext_new_cell b : Ext (new_cell b).
Proof.
  intros w. wsimpl. split; simpl; try done; try lia.
  - exists []. by rewrite app_nil_r.
  - intros c Hc. rewrite lookup_insert_ne by lia. done.
  - exists []. rewrite app_nil_r. repeat split; [done | constructor].
Qed.

Lemma Ext_Presence props children : Ext children → Ext (Presence props children).
Proof.
  intros Hc w. unfold Presence. rewrite !exec_bind, exec_gets, exec_ret.
  set (c := eval (new_cell _) _).
  assert (Hcw : c = w_next w) by done.
  set (w1 := exec (new_cell _) w).
  assert (H1 : extends w w1) by apply Ext_new_cell.
  assert (Hn : w_next w < w_next w1) by (subst w1; wsimpl; lia).
  set (body := provide _ _).
  assert (H2 : extends w1 (exec body w1)).
  { subst body. apply Ext_provide, Ext_provide.
    unfold Presence_children, resolveFirst.
    apply Ext_bind; [|intros first].
    { apply Ext_bind; [apply Hc|]. intros ns. apply Ext_gets. }
    apply Ext_bind; [apply Ext_gets|]. intros appear.
    apply Ext_bind; [apply Ext_gets|]. intros p.
    apply Ext_createSwitchTransition. }
  set (w2 := exec body w1) in *.
  pose proof (extends_trans _ _ _ H1 H2) as H12.
  destruct H12 as [St C N L Ce O Mo B Cl E Li Sw].
  unfold write_cell. rewrite exec_modify. unfold set_cells.
  split; simpl; try done.
  intros k Hk. rewrite lookup_insert_ne by lia. by apply Ce.
Qed.

(** Induction on views, with the hypothesis on all children. *)
Lemma View_ind' (P : View → Prop)
    (HMotion : ∀ tag props kids, Forall P kids → P (VMotion tag props kids))
    (HPresence : ∀ props kids, Forall P kids → P (VPresence props kids))
    (HNative : ∀ d kids, Forall P kids → P (VNative d kids)) :
  ∀ v, P v.
Proof.
  fix IH 1. intros v.
  assert (Hall : ∀ l, Forall P l).
  { fix IHl 1. intros [|k l]; constructor; [apply IH | apply IHl]. }
  destruct v; [apply HMotion | apply HPresence | apply HNative]; apply Hall.
Qed.

Lemma render_VMotion_tag tag props kids :
  render (VMotion (Some tag) props kids) = Motion tag props (render_list kids).
Proof. reflexivity. Qed.

Lemma render_VMotion_plain props kids :
  render (VMotion None props kids) = MotionComponent props (render_list kids).
Proof. reflexivity. Qed.

Lemma render_VPresence props kids :
  render (VPresence props kids) = Presence props (render_list kids).
Proof. reflexivity. Qed.

Lemma render_VNative d kids :
  render (VNative d kids) =
  (let* el := fresh in
   let* _ := match d with Some opts => motion el opts | None => ret tt end in
   let* ns := render_list kids in
   ret (NElem el (VStr "div") ns)).
Proof. reflexivity. Qed.

Lemma Ext_render_list kids :
  Forall (fun v => Ext (render v)) kids → Ext (render_list kids).
Proof.
  induction 1 as [|k l Hk _ IH]; simpl; [apply Ext_ret|].
  apply Ext_bind; [exact Hk|]. intros n.
  apply Ext_bind; [exact IH|]. intros ns. apply Ext_ret.
Qed.

Lemma Ext_render v : Ext (render v).
Proof.
  induction v as [tag props kids IH|props kids IH|d kids IH] using View_ind';
    apply Ext_render_list in IH.
  - destruct tag as [t|].
    + rewrite render_VMotion_tag. by apply Ext_MotionComponent.
    + rewrite render_VMotion_plain. by apply Ext_MotionComponent.
  - rewrite render_VPresence. by apply Ext_Presence.
  - rewrite render_VNative.
    apply Ext_bind; [apply Ext_fresh|]. intros el.
    apply Ext_bind; [destruct d; [apply Ext_motion | apply Ext_ret]|]. intros _.
    apply Ext_bind; [exact IH|]. intros ns. apply Ext_ret.
Qed.

Lemma Ext_render_all kids : Ext (render_list kids).
Proof. apply Ext_render_list, Forall_forall. intros v _. apply Ext_render. Qed.

(* ===================================================================== *)
(** ** Callbacks, effects and switches are quiet *)
(* ===================================================================== *)

Lemma quiet_refl P w : quiet P w w.
Proof.
  split; try done.
  - exists []. by rewrite app_nil_r.
  - exists []. by rewrite app_nil_r.
  - intros sw s Hs. by exists s.
Qed.

Lemma quiet_trans P w1 w2 w3 : quiet P w1 w2 → quiet P w2 w3 → quiet P w1 w3.
Proof.
  intros [S1 X1 N1 (l1 & L1 & F1) C1 O1 Cl1 E1 (k1 & K1 & G1) Sw1]
         [S2 X2 N2 (l2 & L2 & F2) C2 O2 Cl2 E2 (k2 & K2 & G2) Sw2].
  split; try congruence.
  - exists (l1 ++ l2). rewrite L2, L1, app_assoc. split; [done|].
    by apply Forall_app.
  - exists (k1 ++ k2). rewrite K2, K1, app_assoc. split; [done|].
    by apply Forall_app.
  - intros sw s Hs. destruct (Sw1 sw s Hs) as (s1 & Hs1 & Hc1 & Hm1).
    destruct (Sw2 sw s1 Hs1) as (s2 & Hs2 & Hc2 & Hm2).
    exists s2. repeat split; congruence.
Qed.

Lemma Quiet_ret {A} P (a : A) : Quiet P (ret a).
Proof. intros w. apply quiet_refl. Qed.

Lemma Quiet_gets {A} P (f : World → A) : Quiet P (gets f).
Proof. intros w. apply quiet_refl. Qed.

Lemma Quiet_bind {A B} P (m : M A) (k : A → M B) :
  Quiet P m → (∀ a, Quiet P (k a)) → Quiet P (bind m k).
Proof.
  intros Hm Hk w. rewrite exec_bind.
  eapply quiet_trans; [apply Hm | apply Hk].
Qed.

Lemma Quiet_for_each {A} P (l : list A) (f : A → M unit) :
  Forall (fun x => Quiet P (f x)) l → Quiet P (for_each l f).
Proof.
  induction 1 as [|x l Hx _ IH]; simpl; [apply Quiet_ret|].
  apply Quiet_bind; [exact Hx | intros _; exact IH].
Qed.

Lemma Quiet_emit (P : Call → Prop) c : P c → Quiet P (emit c).
Proof.
  intros Hc w. wsimpl. split; simpl; try done.
  - exists [c]. split; [done|]. by constructor.
  - exists []. by rewrite app_nil_r.
  - intros sw s Hs. by exists s.
Qed.

Lemma Quiet_set_opts P f : Quiet P (modify (set_opts f)).
Proof.
  intros w. rewrite exec_modify. split; simpl; try done.
  - exists []. by rewrite app_nil_r.
  - exists []. by rewrite app_nil_r.
  - intros sw s Hs. by exists s.
Qed.

Lemma Quiet_set_mounted P f : Quiet P (modify (set_mounted f)).
Proof.
  intros w. rewrite exec_modify. split; simpl; try done.
  - exists []. by rewrite app_nil_r.
  - exists []. by rewrite app_nil_r.
  - intros sw s Hs. by exists s.
Qed.

Lemma Quiet_state_update (P : Call → Prop) s o :
  P (CUpdate s o) → Quiet P (state_update s o).
Proof.
  intros HP. apply Quiet_bind; [apply Quiet_set_opts|]. intros _.
  by apply Quiet_emit.
Qed.

Lemma Quiet_run_effect (P : Call → Prop) b :
  (∀ o, P (CUpdate (b_state b) o)) → Quiet P (run_effect b).
Proof.
  intros HP. apply Quiet_bind; [apply Quiet_gets|]. intros o.
  by apply Quiet_state_update.
Qed.

Lemma Quiet_unmount (P : Call → Prop) s el :
  P (CUnmount s) → Quiet P (unmount s el).
Proof.
  intros HP. apply Quiet_bind; [apply Quiet_set_mounted|]. intros _.
  by apply Quiet_emit.
Qed.

Lemma Quiet_update_switch P sw f :
  keeps_switch f → Quiet P (update_switch sw f).
Proof.
  intros Hf w. unfold update_switch. rewrite exec_modify.
  split; simpl; try done.
  - exists []. by rewrite app_nil_r.
  - exists []. by rewrite app_nil_r.
  - intros k s Hs. destruct (w_switches w !! sw) as [s0|] eqn:H0; [|by exists s].
    destruct (decide (k = sw)) as [->|Hne].
    + rewrite lookup_insert_eq. exists (f s0).
      assert (s0 = s) as -> by congruence. by destruct (Hf s).
    + rewrite lookup_insert_ne by done. by exists s.
Qed.

Lemma Quiet_enterTransition P sw : Quiet P (enterTransition sw).
Proof.
  apply Quiet_bind; [apply Quiet_gets|]. intros [s|]; [|apply Quiet_ret].
  destruct (sw_next s); [by apply Quiet_update_switch | apply Quiet_ret].
Qed.

Lemma Quiet_run_remove (P : Call → Prop) sw el after :
  P (CRemove sw el) → Quiet P (run_remove sw el after).
Proof.
  intros HP. apply Quiet_bind; [by apply Quiet_emit|]. intros _.
  apply Quiet_bind; [by apply Quiet_update_switch|]. intros _.
  destruct after; [apply Quiet_enterTransition | apply Quiet_ret].
Qed.

Lemma Quiet_listen_remove (P : Call → Prop) el sw el' after :
  P (CAddEventListener el "motioncomplete" (CbRemove sw el' after)) →
  Quiet P (onCompleteExit el (CbRemove sw el' after)).
Proof.
  intros HP w. wsimpl. split; simpl; try done.
  - eexists. split; [done|]. by constructor.
  - eexists. split; [done|]. by constructor.
  - intros k s Hs. by exists s.
Qed.

Section SwitchQuiet.
Variable P : Call → Prop.
Hypothesis P_switch : ∀ c, switch_call c → P c.

Lemma Quiet_Presence_onExit sw el after : Quiet P (Presence_onExit sw el after).
Proof.
  apply Quiet_bind; [apply Quiet_gets|]. intros state.
  apply Quiet_bind.
  { destruct state; [|apply Quiet_ret].
    apply Quiet_bind; [apply Quiet_gets|]. intros o. apply Quiet_ret. }
  intros cond. destruct (truthy cond).
  - apply Quiet_listen_remove. by apply P_switch.
  - apply Quiet_run_remove. by apply P_switch.
Qed.

Lemma Quiet_exitTransition sw el after : Quiet P (exitTransition sw el after).
Proof.
  destruct el as [e|]; simpl.
  - apply Quiet_bind; [by apply Quiet_update_switch|]. intros _.
    apply Quiet_Presence_onExit.
  - destruct after; [apply Quiet_enterTransition | apply Quiet_ret].
Qed.

Lemma Quiet_triggerTransitions sw prev : Quiet P (triggerTransitions sw prev).
Proof.
  apply Quiet_bind; [apply Quiet_gets|]. intros [s|]; [|apply Quiet_ret].
  destruct (sw_mode s).
  - apply Quiet_bind; [apply Quiet_exitTransition|]. intros _.
    apply Quiet_enterTransition.
  - destruct (sw_exiting s); [apply Quiet_ret | apply Quiet_exitTransition].
Qed.

Lemma Quiet_source_changed sw el : Quiet P (source_changed sw el).
Proof.
  apply Quiet_bind; [apply Quiet_gets|]. intros [s|]; [|apply Quiet_ret].
  destruct (decide (el = sw_prev s)); [apply Quiet_ret|].
  apply Quiet_bind; [by apply Quiet_update_switch|]. intros _.
  apply Quiet_bind; [apply Quiet_triggerTransitions|]. intros _.
  by apply Quiet_update_switch.
Qed.
End SwitchQuiet.

(* ===================================================================== *)
(** ** Mount and cleanup, call by call: lemmas *)
(* ===================================================================== *)

Lemma same_frame_refl w : same_frame w w.
Proof. by split. Qed.

Lemma same_frame_trans w1 w2 w3 :
  same_frame w1 w2 → same_frame w2 w3 → same_frame w1 w3.
Proof. intros [] []. split; congruence. Qed.

Lemma run_mount_spec b w :
  let w' := exec (run_mount b) w in
  same_frame w w'
  ∧ w_log w' = w_log w ++ mount_trace b
  ∧ w_onmount w' = w_onmount w
  ∧ w_cleanups w' = w_cleanups w ++ [b]
  ∧ w_effects w' = w_effects w ++ [b]
  ∧ w_listeners w' = w_listeners w.
Proof.
  unfold run_mount, createEffect, mount_trace. wsimpl.
  repeat split. by rewrite <- !app_assoc.
Qed.

Lemma run_cleanup_spec b w :
  let w' := exec (run_cleanup b) w in
  same_frame w w'
  ∧ w_log w' = w_log w ++ cleanup_trace (w_store w) b
  ∧ w_onmount w' = w_onmount w
  ∧ w_cleanups w' = w_cleanups w
  ∧ w_effects w' = w_effects w
  ∧ w_listeners w' = w_listeners w ++ cleanup_listeners (w_store w) b.
Proof.
  unfold run_cleanup, cleanup_trace, cleanup_listeners, defers.
  destruct (b_presence b) as [p|]; wsimpl.
  - destruct (truthy _); simpl; repeat split;
      rewrite <- ?app_assoc, ?app_nil_r; done.
  - repeat split. by rewrite app_nil_r.
Qed.

Lemma mount_all_spec bs w :
  let w' := exec (for_each bs run_mount) w in
  same_frame w w'
  ∧ w_log w' = w_log w ++ concat (map mount_trace bs)
  ∧ w_onmount w' = w_onmount w
  ∧ w_cleanups w' = w_cleanups w ++ bs
  ∧ w_effects w' = w_effects w ++ bs
  ∧ w_listeners w' = w_listeners w.
Proof.
  revert w. induction bs as [|b bs IH]; intros w.
  - simpl. rewrite exec_ret, !app_nil_r. repeat split.
  - cbn [for_each]. rewrite exec_bind.
    destruct (run_mount_spec b w) as (F1 & L1 & O1 & C1 & E1 & Li1).
    destruct (IH (exec (run_mount b) w)) as (F2 & L2 & O2 & C2 & E2 & Li2).
    cbv zeta in *.
    split; [eapply same_frame_trans; eassumption|].
    rewrite L2, O2, C2, E2, Li2, L1, O1, C1, E1, Li1.
    simpl. rewrite <- !app_assoc. done.
Qed.

(** The first runs of the effects of [bs]. *)
Lemma run_effects_spec bs w :
  let w' := exec (for_each bs run_effect) w in
  same_frame w w'
  ∧ w_log w' = w_log w ++ map (first_update (w_store w)) bs
  ∧ w_onmount w' = w_onmount w
  ∧ w_cleanups w' = w_cleanups w
  ∧ w_effects w' = w_effects w
  ∧ w_listeners w' = w_listeners w.
Proof.
  revert w. induction bs as [|b bs IH]; intros w.
  - simpl. rewrite exec_ret, !app_nil_r. repeat split.
  - cbn [for_each]. rewrite exec_bind.
    destruct (IH (exec (run_effect b) w)) as (F2 & L2 & O2 & C2 & E2 & Li2).
    cbv zeta in *.
    split; [eapply same_frame_trans; [|eassumption]; by split|].
    rewrite L2, O2, C2, E2, Li2. unfold run_effect, first_update. wsimpl.
    rewrite <- !app_assoc. done.
Qed.

Lemma created_effects_all bs : created_effects bs = bs.
Proof.
  unfold created_effects. induction bs as [|b bs IH]; [done|].
  rewrite filter_cons_True by done. by rewrite IH.
Qed.

(** The mount callbacks of a batch. *)
Lemma run_mounts_spec w :
  let w' := exec run_mounts w in
  same_frame w w'
  ∧ w_log w' = w_log w ++ concat (map mount_trace (w_onmount w))
  ∧ w_onmount w' = []
  ∧ w_cleanups w' = w_cleanups w ++ w_onmount w
  ∧ w_effects w' = w_effects w ++ w_onmount w
  ∧ w_listeners w' = w_listeners w
  ∧ eval run_mounts w = w_onmount w.
Proof.
  unfold run_mounts.
  rewrite !exec_bind, !eval_bind, exec_gets, eval_gets, exec_modify, exec_ret.
  destruct (mount_all_spec (w_onmount w) (set_onmount (fun _ => []) w))
    as ([] & L & O & C & E & Li).
  cbv zeta in *. repeat split; try done.
Qed.

Lemma exec_step_mount w : exec (step EMount) w = exec run_mounts w.
Proof. simpl. by rewrite exec_bind. Qed.

Lemma cleanup_all_spec bs w :
  let w' := exec (for_each bs run_cleanup) w in
  same_frame w w'
  ∧ w_log w' = w_log w ++ concat (map (cleanup_trace (w_store w)) bs)
  ∧ w_onmount w' = w_onmount w
  ∧ w_cleanups w' = w_cleanups w
  ∧ w_effects w' = w_effects w
  ∧ w_listeners w' = w_listeners w ++ concat (map (cleanup_listeners (w_store w)) bs).
Proof.
  revert w. induction bs as [|b bs IH]; intros w.
  - simpl. rewrite exec_ret, !app_nil_r. repeat split.
  - cbn [for_each]. rewrite exec_bind.
    destruct (run_cleanup_spec b w) as (F1 & L1 & O1 & C1 & E1 & Li1).
    destruct (IH (exec (run_cleanup b) w)) as (F2 & L2 & O2 & C2 & E2 & Li2).
    cbv zeta in *.
    split; [eapply same_frame_trans; eassumption|].
    rewrite L2, O2, C2, E2, Li2, L1, O1, C1, E1, Li1.
    rewrite (sf_store _ _ F1). simpl. rewrite <- !app_assoc. done.
Qed.

Lemma flush_spec w :
  let w' := exec flush w in
  same_frame w w'
  ∧ w_log w' = w_log w ++ flush_trace (w_store w) (w_onmount w)
  ∧ w_onmount w' = []
  ∧ w_cleanups w' = w_cleanups w ++ w_onmount w
  ∧ w_effects w' = w_effects w ++ w_onmount w
  ∧ w_listeners w' = w_listeners w.
Proof.
  unfold flush. rewrite exec_bind.
  destruct (run_mounts_spec w) as (F1 & L1 & O1 & C1 & E1 & Li1 & ->).
  rewrite created_effects_all.
  destruct (run_effects_spec (w_onmount w) (exec run_mounts w))
    as (F2 & L2 & O2 & C2 & E2 & Li2).
  cbv zeta in *.
  split; [eapply same_frame_trans; eassumption|].
  rewrite L2, O2, C2, E2, Li2, L1, O1, C1, E1, Li1, (sf_store _ _ F1).
  unfold flush_trace. by rewrite <- app_assoc.
Qed.

Lemma dispose_spec s w :
  let w' := exec (dispose s) w in
  let cs := filter (fun b => b_state b = s) (w_cleanups w) in
  same_frame w w'
  ∧ w_log w' = w_log w ++ concat (map (cleanup_trace (w_store w)) cs)
  ∧ w_onmount w' = filter (fun b => b_state b ≠ s) (w_onmount w)
  ∧ w_cleanups w' = filter (fun b => b_state b ≠ s) (w_cleanups w)
  ∧ w_effects w' = filter (fun b => b_state b ≠ s) (w_effects w)
  ∧ w_listeners w' = w_listeners w ++ concat (map (cleanup_listeners (w_store w)) cs).
Proof.
  unfold dispose. rewrite !exec_bind, exec_gets, eval_gets, !exec_modify.
  match goal with |- context [exec (for_each ?bs run_cleanup) ?w0] =>
    destruct (cleanup_all_spec bs w0) as ([] & L & O & C & E & Li) end.
  cbv zeta in *. repeat split; try done.
Qed.

Lemma Quiet_rerun (P : Call → Prop) s :
  (∀ o, P (CUpdate s o)) → Quiet P (rerun s).
Proof.
  intros HP. apply Quiet_bind; [apply Quiet_gets|]. intros es.
  apply Quiet_for_each, Forall_forall. intros b Hb.
  apply list_elem_of_filter in Hb as [<- _]. by apply Quiet_run_effect.
Qed.

Lemma Quiet_invoke (P : Call → Prop) cb : P (invoke_call cb) → Quiet P (invoke cb).
Proof.
  destruct cb; simpl; intros HP;
    [by apply Quiet_unmount | by apply Quiet_run_remove].
Qed.

Lemma quiet_dispatch (P : Call → Prop) el w :
  Forall (fun l => l.1 = el → P (invoke_call l.2)) (w_listeners w) →
  quiet P w (exec (dispatch el) w).
Proof.
  intros HP. unfold dispatch. rewrite exec_bind, exec_gets, eval_gets.
  apply Quiet_for_each, Forall_forall. intros l Hl.
  apply list_elem_of_filter in Hl as [Hel Hl].
  rewrite Forall_forall in HP. apply Quiet_invoke. by apply HP.
Qed.

(** Re-evaluating the children of a [Presence]: rendering extends the
    world, then the switch reacts quietly. *)
Lemma source_spec (P : Call → Prop) sw kids w :
  (∀ c, switch_call c → P c) →
  ∃ w1, extends w w1 ∧ quiet P w1 (exec (source sw kids) w).
Proof.
  intros HP. unfold source. rewrite exec_bind, exec_gets, eval_gets.
  destruct (w_switches w !! sw) as [s|];
    [|exists w; split; [apply extends_refl | apply quiet_refl]].
  rewrite !exec_bind, exec_gets, eval_gets, !exec_modify.
  unfold resolveFirst. rewrite exec_bind, eval_bind, exec_gets.
  set (w0 := set_ctx (fun _ => sw_ctx s) w).
  pose proof (Ext_render_all kids w0) as Hext.
  set (w1 := exec (render_list kids) w0) in *.
  exists (set_ctx (fun _ => w_ctx w) w1). split.
  - destruct Hext as [St C N L Ce O Mo B Cl E Li Sw].
    split; simpl; done.
  - by apply Quiet_source_changed.
Qed.

Lemma Ext_Presence_children props children initial :
  Ext children → Ext (Presence_children props children initial).
Proof.
  intros Hc. unfold Presence_children, resolveFirst.
  apply Ext_bind; [|intros first].
  { apply Ext_bind; [apply Hc|]. intros ns. apply Ext_gets. }
  apply Ext_bind; [apply Ext_gets|]. intros appear.
  apply Ext_bind; [apply Ext_gets|]. intros p.
  apply Ext_createSwitchTransition.
Qed.

(** Running the [children] getter of a [Presence] again only extends the
    world: the children are rendered and a switch is made. *)
Lemma Presence_rerun_extends sw props kids w :
  extends w (exec (Presence_rerun sw props kids) w).
Proof.
  unfold Presence_rerun. rewrite exec_bind, exec_gets, eval_gets.
  destruct (w_switches w !! sw) as [s|]; [|apply extends_refl].
  destruct (lookup_presence (sw_ctx s)) as [[c|v]|]; try apply extends_refl.
  rewrite !exec_bind, exec_gets, eval_gets, !exec_modify.
  set (w0 := set_ctx (fun _ => sw_ctx s) w).
  pose proof (Ext_Presence_children props (render_list kids) c
                (Ext_render_all kids) w0) as Hext.
  destruct Hext as [St C N L Ce O Mo B Cl E Li Sw].
  split; simpl; done.
Qed.

(* ===================================================================== *)
(** ** Every reachable world is well formed *)
(* ===================================================================== *)

Lemma wf_empty : wf empty_world.
Proof. split; simpl; constructor. Qed.

Lemma wf_extends w w' : wf w → extends w w' → wf w'.
Proof.
  intros [Hb Hn He Hen Hl Hlog]
    [St C N (l & L & F) Ce O Mo (bs & B & G & D) Cl E Li Sw].
  rewrite Forall_forall in Hb, G.
  split.
  - rewrite Cl, B, app_assoc. apply Forall_app. split.
    + apply Forall_forall. intros b Hin. specialize (Hb _ Hin). simpl in Hb. lia.
    + apply Forall_forall. intros b Hin. specialize (G _ Hin). simpl in G. lia.
  - rewrite Cl, B, app_assoc, map_app. apply NoDup_app. repeat split; [done| |done].
    intros s Hs1 Hs2.
    apply list_elem_of_fmap in Hs1 as (x1 & -> & Hx1).
    apply list_elem_of_fmap in Hs2 as (x2 & Heq & Hx2).
    specialize (Hb _ Hx1). specialize (G _ Hx2). simpl in *. lia.
  - by rewrite E, Cl.
  - by rewrite E.
  - rewrite Li, Cl, B. eapply Forall_impl; [exact Hl|].
    intros [e [s e'|]] H; simpl in *; [|done].
    destruct H as (? & ? & Hnot). repeat split; [done|lia|].
    rewrite app_assoc, map_app. intros Hin. apply elem_of_app in Hin as [Hin|Hin].
    + by apply Hnot.
    + apply list_elem_of_fmap in Hin as (x & -> & Hx).
      specialize (G _ Hx). simpl in G. lia.
  - rewrite L. apply Forall_app. split.
    + eapply Forall_impl; [exact Hlog|]. intros c. by apply bounded_mono.
    + eapply Forall_impl; [exact F|]. by intros c [_ ?].
Qed.

Lemma wf_quiet (P : Call → Prop) w w' :
  (∀ c, P c → bounded (w_next w) c) → wf w → quiet P w w' → wf w'.
Proof.
  intros HP [Hb Hn He Hen Hl Hlog] [St X N (l & L & F) C O Cl E (ls & Li & G) _].
  split; rewrite ?N, ?O, ?Cl, ?E; try done.
  - rewrite Li. apply Forall_app. split; [done|].
    eapply Forall_impl; [exact G|]. intros [e [s e'|]]; simpl; done.
  - rewrite L. apply Forall_app. split; [done|].
    eapply Forall_impl; [exact F|]. done.
Qed.

Lemma wf_write st w : wf w → wf (set_store st w).
Proof. intros []. by split. Qed.

Lemma NoDup_map_filter {A B} (f : A → B) (P : A → Prop) `{∀ x, Decision (P x)}
    (l : list A) :
  NoDup (map f l) → NoDup (map f (filter P l)).
Proof.
  induction l as [|a l IH]; simpl; intros Hn; [constructor|].
  apply NoDup_cons in Hn as [Hnot Hn]. rewrite filter_cons.
  destruct (decide (P a)); simpl; [|by apply IH].
  apply NoDup_cons. split; [|by apply IH].
  intros Hin. apply Hnot.
  apply list_elem_of_fmap in Hin as (x & -> & Hx).
  apply list_elem_of_filter in Hx as [_ Hx].
  apply list_elem_of_fmap. eauto.
Qed.

Lemma elem_of_map_filter {A B} (f : A → B) (P : A → Prop) `{∀ x, Decision (P x)}
    (l : list A) y :
  y ∈ map f (filter P l) → y ∈ map f l.
Proof.
  intros Hin. apply list_elem_of_fmap in Hin as (x & -> & Hx).
  apply list_elem_of_filter in Hx as [_ Hx]. apply list_elem_of_fmap. eauto.
Qed.

Lemma mount_trace_bounded n bs :
  Forall (fun b => b_state b < n) bs →
  Forall (bounded n) (concat (map mount_trace bs)).
Proof.
  induction 1 as [|b bs Hb _ IH]; simpl; [constructor|].
  repeat (constructor; [exact Hb|]). exact IH.
Qed.

Lemma flush_trace_bounded n st bs :
  Forall (fun b => b_state b < n) bs → Forall (bounded n) (flush_trace st bs).
Proof.
  intros H. apply Forall_app. split; [by apply mount_trace_bounded|].
  induction H as [|b bs Hb _ IH]; simpl; [constructor|].
  constructor; [exact Hb | exact IH].
Qed.

Lemma cleanup_trace_bounded n st bs :
  Forall (fun b => b_state b < n) bs →
  Forall (bounded n) (concat (map (cleanup_trace st) bs)).
Proof.
  induction 1 as [|b bs Hb _ IH]; simpl; [constructor|].
  apply Forall_app. split; [|exact IH].
  unfold cleanup_trace. destruct (defers _ b); repeat constructor; exact Hb.
Qed.

(** Mounting what is queued keeps the world well formed, whatever
    bounded calls are recorded. *)
Lemma wf_mounted w w' l :
  wf w → same_frame w w' →
  w_log w' = w_log w ++ l → Forall (bounded (w_next w)) l →
  w_onmount w' = [] →
  w_cleanups w' = w_cleanups w ++ w_onmount w →
  w_effects w' = w_effects w ++ w_onmount w →
  w_listeners w' = w_listeners w →
  wf w'.
Proof.
  intros [Hb Hn He Hen Hl Hlog] [St X N Ce Sw] L Hbl O C E Li.
  split; rewrite ?N, ?O, ?C, ?E, ?Li, ?L, ?app_nil_r; try done.
  - apply Forall_app. split.
    + eapply Forall_impl; [exact He|]. intros b Hin. apply elem_of_app. by left.
    + apply Forall_forall. intros b Hin. apply elem_of_app. by right.
  - rewrite map_app in *. apply NoDup_app in Hn as (Hn1 & Hdis & Hn2).
    apply NoDup_app. repeat split; [done| |done].
    intros s Hs1 Hs2. apply (Hdis s); [|done].
    apply list_elem_of_fmap in Hs1 as (b & -> & Hin).
    rewrite Forall_forall in He. apply list_elem_of_fmap. eauto.
  - by apply Forall_app.
Qed.

Lemma wf_flush w : wf w → wf (exec flush w).
Proof.
  intros Hw.
  destruct (flush_spec w) as (F & L & O & C & E & Li). cbv zeta in *.
  eapply wf_mounted; try eassumption.
  apply flush_trace_bounded.
  pose proof (wf_bound _ Hw) as Hb. by apply Forall_app in Hb as [_ Hb].
Qed.

Lemma wf_mounts w : wf w → wf (exec run_mounts w).
Proof.
  intros Hw.
  destruct (run_mounts_spec w) as (F & L & O & C & E & Li & _). cbv zeta in *.
  eapply wf_mounted; try eassumption.
  apply mount_trace_bounded.
  pose proof (wf_bound _ Hw) as Hb. by apply Forall_app in Hb as [_ Hb].
Qed.

Lemma wf_dispose s w : wf w → wf (exec (dispose s) w).
Proof.
  intros [Hb Hn He Hen Hl Hlog].
  destruct (dispose_spec s w) as ([St X N Ce Sw] & L & O & C & E & Li).
  cbv zeta in *.
  split; rewrite ?N, ?O, ?C, ?E, ?Li, ?L, <- ?filter_app.
  - rewrite Forall_forall in *. intros b Hin.
    apply list_elem_of_filter in Hin as [_ Hin]. by apply Hb.
  - by apply NoDup_map_filter.
  - rewrite Forall_forall in *. intros b Hin.
    apply list_elem_of_filter in Hin as [Hne Hin].
    apply list_elem_of_filter. split; [done|]. by apply He.
  - by apply NoDup_map_filter.
  - apply Forall_app. split.
    + eapply Forall_impl; [exact Hl|].
      intros [e [s' e'|]]; simpl; [|done]. intros (? & ? & Hnot).
      repeat split; [done..|]. intros Hin. apply Hnot.
      by eapply elem_of_map_filter.
    + apply Forall_forall. intros l Hin.
      apply list_elem_of_In, in_concat in Hin as (ls & Hls & Hin).
      apply in_map_iff in Hls as (b & <- & Hb').
      apply list_elem_of_In, list_elem_of_filter in Hb' as [Hs Hb'].
      unfold cleanup_listeners in Hin. destruct (defers _ _); [|done].
      destruct Hin as [<-|[]]. simpl. repeat split; [|].
      * rewrite Forall_forall in Hb. specialize (Hb b). simpl in Hb.
        apply Hb, elem_of_app. by left.
      * intros Hin. apply list_elem_of_fmap in Hin as (x & Hx & Hin).
        apply list_elem_of_filter in Hin as [Hne _]. congruence.
  - apply Forall_app. split; [done|].
    apply Forall_app in Hb as [Hb _].
    assert (Hbs : Forall (fun b => b_state b < w_next w)
                    (filter (fun b => b_state b = s) (w_cleanups w))).
    { rewrite Forall_forall in *. intros b Hin.
      apply list_elem_of_filter in Hin as [_ Hin]. by apply Hb. }
    by apply cleanup_trace_bounded.
Qed.

(** The exact calls of a dispatch and of a re-run. *)
Lemma invoke_log cb w : w_log (exec (invoke cb) w) = w_log w ++ [invoke_call cb].
Proof.
  destruct cb as [s el|sw el after]; simpl.
  - by wsimpl.
  - unfold run_remove. rewrite !exec_bind.
    set (w1 := exec (emit _) w).
    assert (H1 : w_log w1 = w_log w ++ [CRemove sw el]) by done.
    assert (HQ : Quiet (fun _ => False)
              (let* _ := update_switch sw
                 (fun s => switch_set_returned (filter (fun e => e ≠ el))
                             (switch_set_exiting false s)) in
               if after then enterTransition sw else ret tt)).
    { apply Quiet_bind; [by apply Quiet_update_switch|]. intros _.
      destruct after; [apply Quiet_enterTransition | apply Quiet_ret]. }
    specialize (HQ w1). rewrite exec_bind in HQ.
    destruct HQ as [_ _ _ (l & L & F) _ _ _ _ _ _].
    destruct l as [|c l]; [|by inversion F].
    rewrite L, app_nil_r. done.
Qed.

Lemma invoke_all_log (ls : list (El * Callback)) w :
  w_log (exec (for_each ls (fun l => invoke l.2)) w)
  = w_log w ++ map (fun l => invoke_call l.2) ls.
Proof.
  revert w. induction ls as [|l ls IH]; intros w; simpl.
  - by rewrite exec_ret, app_nil_r.
  - rewrite exec_bind, IH, invoke_log, <- app_assoc. done.
Qed.

Lemma dispatch_log el w :
  w_log (exec (dispatch el) w)
  = w_log w ++ map (fun l => invoke_call l.2)
                 (filter (fun l => l.1 = el) (w_listeners w)).
Proof.
  unfold dispatch. rewrite exec_bind, exec_gets, eval_gets. apply invoke_all_log.
Qed.

Lemma run_effect_spec b w :
  let w' := exec (run_effect b) w in
  w_log w' = w_log w ++ [CUpdate (b_state b) (b_options b (w_store w))]
  ∧ w_store w' = w_store w.
Proof. by wsimpl. Qed.

Lemma run_effects_log bs w :
  let w' := exec (for_each bs run_effect) w in
  w_log w' = w_log w
    ++ map (fun b => CUpdate (b_state b) (b_options b (w_store w))) bs
  ∧ w_store w' = w_store w.
Proof.
  revert w. induction bs as [|b bs IH]; intros w; simpl.
  - by rewrite exec_ret, app_nil_r.
  - rewrite exec_bind. destruct (run_effect_spec b w) as [L S].
    destruct (IH (exec (run_effect b) w)) as [L' S']. cbv zeta in *.
    rewrite L', S', L, S, <- app_assoc. done.
Qed.

Lemma rerun_log s w :
  w_log (exec (rerun s) w)
  = w_log w ++ map (fun b => CUpdate (b_state b) (b_options b (w_store w)))
                 (filter (fun b => b_state b = s) (w_effects w)).
Proof.
  unfold rerun. rewrite exec_bind, exec_gets, eval_gets.
  apply run_effects_log.
Qed.

Lemma exec_step_render v w : exec (step (ERender v)) w = exec (render v) w.
Proof. simpl. by rewrite exec_bind. Qed.

Lemma exec_step_create target options presence w :
  exec (step (ECreateMotion target options presence)) w
  = exec (createMotion target options presence) w.
Proof. simpl. by rewrite exec_bind. Qed.

Lemma wf_rerun s w : wf w → wf (exec (rerun s) w).
Proof.
  intros Hw.
  assert (quiet (fun _ => True) w (exec (rerun s) w)) as Hq by by apply Quiet_rerun.
  destruct Hw as [Hb Hn He Hen Hl Hlog].
  destruct Hq as [St X N _ C O Cl E (ls & Li & G) _].
  split; rewrite ?N, ?O, ?Cl, ?E; try done.
  - rewrite Li. apply Forall_app. split; [done|].
    eapply Forall_impl; [exact G|]. intros [e [s' e'|]]; simpl; done.
  - rewrite rerun_log. apply Forall_app. split; [done|].
    apply Forall_forall. intros c Hc.
    apply list_elem_of_fmap in Hc as (b & -> & Hin).
    apply list_elem_of_filter in Hin as [_ Hin].
    rewrite Forall_forall in He, Hb. unfold bounded. simpl.
    apply (Hb b), elem_of_app. left. by apply He.
Qed.

Lemma wf_step e w : wf w → wf (exec (step e) w).
Proof.
  intros Hw. destruct e as [v|t o p| |st|s|s|el|sw kids| |sw props kids].
  - rewrite exec_step_render. eapply wf_extends; [done | apply Ext_render].
  - rewrite exec_step_create. eapply wf_extends; [done | apply Ext_createMotion].
  - by apply wf_flush.
  - by apply wf_write.
  - by apply wf_rerun.
  - by apply wf_dispose.
  - eapply (wf_quiet (bounded (w_next w))); [done..|].
    apply quiet_dispatch. eapply Forall_impl; [exact (wf_listeners _ Hw)|].
    intros [e [s' e'|]]; simpl; [|done]. by intros (_ & ? & _) _.
  - destruct (source_spec (fun c => call_state c = None) sw kids w)
      as (w1 & H1 & H2).
    { intros [| | | | | ? ? [|] | |]; done. }
    eapply wf_quiet; [|by eapply wf_extends|exact H2].
    intros c Hc. unfold bounded. by rewrite Hc.
  - rewrite exec_step_mount. by apply wf_mounts.
  - eapply wf_extends; [done | apply Presence_rerun_extends].
Qed.

Lemma wf_steps es w : wf w → wf (exec (steps es) w).
Proof.
  revert w. induction es as [|e es IH]; intros w Hw; [done|].
  rewrite exec_steps_cons. by apply IH, wf_step.
Qed.

Lemma wf_reachable w : reachable w → wf w.
Proof. intros [es ->]. apply wf_steps, wf_empty. Qed.

(* ===================================================================== *)
(** ** Counting calls: lemmas *)
(* ===================================================================== *)

Lemma count_app (f : Call → bool) l1 l2 :
  length (filter (fun c => f c) (l1 ++ l2))
  = length (filter (fun c => f c) l1) + length (filter (fun c => f c) l2).
Proof. by rewrite filter_app, length_app. Qed.

Lemma count_none (f : Call → bool) l :
  Forall (fun c => f c = false) l → length (filter (fun c => f c) l) = 0.
Proof.
  induction 1 as [|c l Hc _ IH]; [done|].
  rewrite filter_cons_False; [exact IH|]. rewrite Hc. intros [].
Qed.

Lemma count_app_none (f : Call → bool) l1 l2 :
  Forall (fun c => f c = false) l2 →
  length (filter (fun c => f c) (l1 ++ l2)) = length (filter (fun c => f c) l1).
Proof. intros H. rewrite count_app, (count_none f l2 H). lia. Qed.

Lemma count_app_none_l (f : Call → bool) l1 l2 :
  Forall (fun c => f c = false) l1 →
  length (filter (fun c => f c) (l1 ++ l2)) = length (filter (fun c => f c) l2).
Proof. intros H. rewrite count_app, (count_none f l1 H). lia. Qed.

Lemma count_extends (f : Call → bool) w w' :
  (∀ c, is_create c → f c = false) → extends w w' →
  length (filter (fun c => f c) (w_log w'))
  = length (filter (fun c => f c) (w_log w)).
Proof.
  intros Hf [_ _ _ (l & -> & F) _ _ _ _ _ _ _ _].
  rewrite count_app, (count_none f l); [lia|].
  eapply Forall_impl; [exact F|]. intros c [Hc _]. by apply Hf.
Qed.

Lemma count_quiet (f : Call → bool) w w' :
  quiet (fun c => f c = false) w w' →
  length (filter (fun c => f c) (w_log w'))
  = length (filter (fun c => f c) (w_log w)).
Proof.
  intros [_ _ _ (l & -> & F) _ _ _ _ _ _].
  rewrite count_app, (count_none f l); [lia | done].
Qed.

Lemma mount_trace_no_unmount s bs :
  Forall (fun c => is_unmount s c = false) (concat (map mount_trace bs)).
Proof.
  induction bs as [|b bs IH]; simpl; [constructor|].
  repeat (constructor; [done|]). exact IH.
Qed.

Lemma flush_trace_no_unmount s st bs :
  Forall (fun c => is_unmount s c = false) (flush_trace st bs).
Proof.
  apply Forall_app. split; [apply mount_trace_no_unmount|].
  induction bs as [|b bs IH]; simpl; by constructor.
Qed.

Lemma cleanup_trace_no_update s st bs :
  Forall (fun c => is_update s c = false) (concat (map (cleanup_trace st) bs)).
Proof.
  induction bs as [|b bs IH]; simpl; [constructor|].
  apply Forall_app. split; [|exact IH].
  unfold cleanup_trace. destruct (defers st b); repeat constructor.
Qed.

(* ===================================================================== *)
(** ** A deferred unmount runs once per completion event *)
(* ===================================================================== *)

Lemma filter_remove_listeners s (ls : list (El * Callback)) :
  Forall (fun l => is_remove_cb l.2) ls →
  filter (fun l => is_unmount_listener s l) ls = [].
Proof.
  induction 1 as [|l ls Hl _ IH]; [done|].
  rewrite filter_cons_False; [exact IH|].
  unfold is_unmount_listener. destruct l as [e [|]]; simpl in *; [done | intros []].
Qed.

Lemma exit_pending_extends s el w w' :
  exit_pending s el w → extends w w' → exit_pending s el w'.
Proof.
  intros [Hg Hb Hl] [St C N L Ce O Mo (bs & B & G & D) Cl E Li Sw].
  split; [|lia|by rewrite Li].
  rewrite Cl, B, app_assoc, map_app. intros Hin.
  apply elem_of_app in Hin as [Hin|Hin]; [done|].
  apply list_elem_of_fmap in Hin as (x & -> & Hx).
  rewrite Forall_forall in G. specialize (G _ Hx). simpl in G. lia.
Qed.

Lemma exit_pending_quiet P s el w w' :
  exit_pending s el w → quiet P w w' → exit_pending s el w'.
Proof.
  intros [Hg Hb Hl] [St X N L C O Cl E (ls & Li & G) _].
  split; [by rewrite Cl, O | lia |].
  by rewrite Li, filter_app, Hl, (filter_remove_listeners s ls G).
Qed.

Lemma switch_call_no_unmount s c : switch_call c → is_unmount s c = false.
Proof. by destruct c. Qed.

Lemma switch_call_no_update s c : switch_call c → is_update s c = false.
Proof. by destruct c. Qed.

Lemma create_no_unmount s c : is_create c → is_unmount s c = false.
Proof. by destruct c. Qed.

Lemma create_no_update s c : is_create c → is_update s c = false.
Proof. by destruct c. Qed.

Lemma cleanup_other_no_unmount s st bs :
  Forall (fun b => b_state b ≠ s) bs →
  Forall (fun c => is_unmount s c = false) (concat (map (cleanup_trace st) bs))
  ∧ filter (fun l => is_unmount_listener s l)
      (concat (map (cleanup_listeners st) bs)) = [].
Proof.
  induction 1 as [|b bs Hb _ [IH1 IH2]]; simpl; [by split|].
  unfold cleanup_trace, cleanup_listeners.
  assert (Hne : bool_decide (b_state b = s) = false) by by apply bool_decide_eq_false.
  destruct (defers st b); simpl.
  - split; [by repeat constructor|].
    rewrite filter_cons_False; [done|].
    unfold is_unmount_listener. simpl. rewrite Hne. intros [].
  - split; [|done]. constructor; [|done]. simpl. done.
Qed.

Lemma count_dispatch s el (ls : list (El * Callback)) :
  length (filter (fun c => is_unmount s c)
            (map (fun l => invoke_call l.2) (filter (fun l => l.1 = el) ls)))
  = length (filter (fun l => l.1 = el)
              (filter (fun l => is_unmount_listener s l) ls)).
Proof.
  induction ls as [|l ls IH]; [done|].
  assert (Hsame : is_unmount s (invoke_call l.2) = is_unmount_listener s l).
  { unfold is_unmount_listener. by destruct l as [e [|]]. }
  rewrite (filter_cons (fun l => l.1 = el)).
  rewrite (filter_cons (fun l => is_unmount_listener s l)).
  destruct (decide (l.1 = el)) as [He|He];
    destruct (decide (is_unmount_listener s l)) as [Hu|Hu]; simpl.
  - rewrite filter_cons_True by (by rewrite Hsame).
    rewrite filter_cons_True by done. simpl. by rewrite IH.
  - rewrite filter_cons_False by (by rewrite Hsame). done.
  - rewrite filter_cons_False by done. done.
  - done.
Qed.

Lemma exit_pending_step s el e w :
  exit_pending s el w →
  exit_pending s el (exec (step e) w)
  ∧ unmounts_of s (w_log (exec (step e) w))
    = unmounts_of s (w_log w) + (if is_dispatch el e then 1 else 0).
Proof.
  intros Hp. unfold unmounts_of.
  destruct e as [v|t o p| |st|s'|s'|el'|sw kids| |sw props kids];
    cbn [is_dispatch]; rewrite ?Nat.add_0_r.
  - rewrite exec_step_render. pose proof (Ext_render v w) as He.
    split; [by eapply exit_pending_extends|].
    apply (count_extends (is_unmount s)); [apply create_no_unmount | done].
  - rewrite exec_step_create. pose proof (Ext_createMotion t o p w) as He.
    split; [by eapply exit_pending_extends|].
    apply (count_extends (is_unmount s)); [apply create_no_unmount | done].
  - destruct (flush_spec w) as ([St X N Ce Sw] & L & O & C & E & Li).
    cbv zeta in *. simpl. destruct Hp as [Hg Hb Hl]. split.
    + split; [by rewrite C, O, app_nil_r | lia | by rewrite Li].
    + rewrite L. apply (count_app_none (is_unmount s)), flush_trace_no_unmount.
  - destruct Hp as [Hg Hb Hl]. by split.
  - assert (quiet (fun c => is_unmount s c = false) w (exec (rerun s') w)) as Hq
      by by apply Quiet_rerun.
    split; [by eapply exit_pending_quiet | by apply (count_quiet (is_unmount s))].
  - destruct (dispose_spec s' w) as ([St X N Ce Sw] & L & O & C & E & Li).
    cbv zeta in *. simpl. destruct Hp as [Hg Hb Hl].
    destruct (cleanup_other_no_unmount s (w_store w)
                (filter (fun b => b_state b = s') (w_cleanups w))) as [H1 H2].
    { apply Forall_forall. intros b Hin.
      apply list_elem_of_filter in Hin as [Hs Hin]. intros Heq.
      apply Hg. rewrite map_app. apply elem_of_app. left.
      apply list_elem_of_fmap. eauto. }
    split.
    + split; [|lia|by rewrite Li, filter_app, Hl, H2].
      rewrite C, O, <- filter_app. intros Hin. apply Hg.
      by eapply elem_of_map_filter.
    + rewrite L. by apply (count_app_none (is_unmount s)).
  - split.
    + eapply (exit_pending_quiet (fun _ => True)); [done|].
      apply quiet_dispatch, Forall_forall. done.
    + simpl. rewrite dispatch_log, (count_app (is_unmount s)), count_dispatch.
      rewrite (ep_listener _ _ _ Hp). f_equal.
      rewrite filter_cons. simpl.
      destruct (decide (el = el')) as [->|Hne].
      * by rewrite bool_decide_eq_true_2.
      * rewrite bool_decide_eq_false_2 by congruence. done.
  - destruct (source_spec (fun c => is_unmount s c = false) sw kids w)
      as (w1 & H1 & H2); [apply switch_call_no_unmount|].
    cbn [step]. split.
    + eapply exit_pending_quiet; [|exact H2]. by eapply exit_pending_extends.
    + rewrite (count_quiet (is_unmount s) _ _ H2).
      apply (count_extends (is_unmount s)); [apply create_no_unmount | done].
  - rewrite exec_step_mount.
    destruct (run_mounts_spec w) as ([St X N Ce Sw] & L & O & C & E & Li & _).
    cbv zeta in *. destruct Hp as [Hg Hb Hl]. split.
    + split; [by rewrite C, O, app_nil_r | lia | by rewrite Li].
    + rewrite L. apply (count_app_none (is_unmount s)), mount_trace_no_unmount.
  - cbn [step]. pose proof (Presence_rerun_extends sw props kids w) as He.
    split; [by eapply exit_pending_extends|].
    apply (count_extends (is_unmount s)); [apply create_no_unmount | done].
Qed.

Lemma exit_pending_steps s el es w :
  exit_pending s el w →
  exit_pending s el (exec (steps es) w)
  ∧ unmounts_of s (w_log (exec (steps es) w))
    = unmounts_of s (w_log w) + count_events (is_dispatch el) es.
Proof.
  revert w. induction es as [|e es IH]; intros w Hp.
  - split; [done|]. unfold count_events, steps. simpl. rewrite exec_ret. lia.
  - rewrite exec_steps_cons.
    destruct (exit_pending_step s el e w Hp) as [Hp' Hc].
    destruct (IH _ Hp') as [Hp'' Hc'].
    split; [done|]. rewrite Hc', Hc. unfold count_events.
    rewrite filter_cons. destruct (is_dispatch el e); simpl; lia.
Qed.

Lemma filter_unique (l : list Binding) (b : Binding) :
  NoDup (map b_state l) → b ∈ l →
  filter (fun b' => b_state b' = b_state b) l = [b].
Proof.
  induction l as [|a l IH]; simpl; intros Hn Hin; [by apply elem_of_nil in Hin|].
  apply NoDup_cons in Hn as [Hnot Hn]. rewrite filter_cons.
  apply elem_of_cons in Hin as [->|Hin].
  - rewrite decide_True by done. f_equal.
    destruct (filter _ l) as [|x l'] eqn:Hf; [done|].
    exfalso. apply Hnot.
    assert (Hx : x ∈ filter (fun b' => b_state b' = b_state a) l)
      by (rewrite Hf; apply elem_of_cons; by left).
    apply list_elem_of_filter in Hx as [Hs Hx].
    apply list_elem_of_fmap. eauto.
  - rewrite decide_False; [by apply IH|].
    intros Heq. apply Hnot. apply list_elem_of_fmap. eauto.
Qed.

Lemma no_listener_while_bound s w :
  wf w → s ∈ map b_state (w_cleanups w ++ w_onmount w) →
  filter (fun l => is_unmount_listener s l) (w_listeners w) = [].
Proof.
  intros [_ _ _ _ Hl _] Hs.
  induction (w_listeners w) as [|l ls IH]; [done|].
  apply Forall_cons in Hl as [Hl Hls].
  rewrite filter_cons_False; [by apply IH|].
  unfold is_unmount_listener. destruct l as [e [s' e'|]]; simpl in *; [|intros []].
  destruct Hl as (_ & _ & Hnot). intros Heq.
  apply bool_decide_unpack in Heq. congruence.
Qed.

(** Disposing a mounted binding whose cleanup defers. *)
Lemma dispose_deferred w b :
  wf w → b ∈ w_cleanups w → defers (w_store w) b = true →
  let w' := exec (dispose (b_state b)) w in
  exit_pending (b_state b) (b_el b) w'
  ∧ w_log w' = w_log w ++
      [CSetActive (b_state b) "exit" true;
       CAddEventListener (b_el b) "motioncomplete" (CbUnmount (b_state b) (b_el b))]
  ∧ w_listeners w' = w_listeners w ++ [(b_el b, CbUnmount (b_state b) (b_el b))].
Proof.
  intros Hw Hb Hd.
  destruct (dispose_spec (b_state b) w) as ([St X N Ce Sw] & L & O & C & E & Li).
  cbv zeta in *.
  assert (Hn : NoDup (map b_state (w_cleanups w))).
  { pose proof (wf_nodup _ Hw) as Hn. rewrite map_app in Hn.
    by apply NoDup_app in Hn as (? & _ & _). }
  rewrite (filter_unique _ _ Hn Hb) in L, Li. simpl in L, Li.
  unfold cleanup_trace in L. unfold cleanup_listeners in Li.
  rewrite Hd in L, Li. simpl in L, Li.
  split; [|by split]. split.
  - rewrite C, O, <- filter_app. intros Hin.
    apply list_elem_of_fmap in Hin as (x & Hx & Hin).
    apply list_elem_of_filter in Hin as [Hne _]. congruence.
  - rewrite N. pose proof (wf_bound _ Hw) as Hbd.
    rewrite Forall_forall in Hbd. apply (Hbd b), elem_of_app. by left.
  - rewrite Li, filter_app, no_listener_while_bound; [| done |].
    + simpl. rewrite filter_cons_True; [done|].
      unfold is_unmount_listener. simpl. by rewrite bool_decide_eq_true_2.
    + rewrite map_app. apply elem_of_app. left. apply list_elem_of_fmap. eauto.
Qed.

(** Disposing a mounted binding whose cleanup does not defer. *)
Lemma dispose_immediate w b :
  wf w → b ∈ w_cleanups w → defers (w_store w) b = false →
  let w' := exec (dispose (b_state b)) w in
  w_log w' = w_log w ++ [CUnmount (b_state b)]
  ∧ w_listeners w' = w_listeners w.
Proof.
  intros Hw Hb Hd.
  destruct (dispose_spec (b_state b) w) as (_ & L & O & C & E & Li).
  cbv zeta in *.
  assert (Hn : NoDup (map b_state (w_cleanups w))).
  { pose proof (wf_nodup _ Hw) as Hn. rewrite map_app in Hn.
    by apply NoDup_app in Hn as (? & _ & _). }
  rewrite (filter_unique _ _ Hn Hb) in L, Li. simpl in L, Li.
  unfold cleanup_trace in L. unfold cleanup_listeners in Li.
  rewrite Hd in L, Li. simpl in L, Li. rewrite app_nil_r in Li. done.
Qed.

(* ===================================================================== *)
(** ** A mounted binding is updated once per run of its effect *)
(* ===================================================================== *)

Lemma mount_trace_no_update s bs :
  Forall (fun c => is_update s c = false) (concat (map mount_trace bs)).
Proof.
  induction bs as [|b bs IH]; simpl; [constructor|].
  repeat (constructor; [done|]). exact IH.
Qed.

Lemma flush_trace_other_no_update s st bs :
  Forall (fun b => b_state b ≠ s) bs →
  Forall (fun c => is_update s c = false) (flush_trace st bs).
Proof.
  intros H. apply Forall_app. split; [apply mount_trace_no_update|].
  induction H as [|b bs Hb _ IH]; simpl; [constructor|].
  constructor; [|exact IH]. simpl. by apply bool_decide_eq_false.
Qed.

Lemma count_rerun s st (bs : list Binding) :
  length (filter (fun c => is_update s c)
            (map (fun b => CUpdate (b_state b) (b_options b st)) bs))
  = length (filter (fun b => b_state b = s) bs).
Proof.
  induction bs as [|b bs IH]; [done|]. simpl.
  rewrite (filter_cons (fun b => b_state b = s)).
  destruct (decide (b_state b = s)) as [Hs|Hs].
  - rewrite filter_cons_True; [simpl; by rewrite IH|].
    simpl. by rewrite bool_decide_eq_true_2.
  - rewrite filter_cons_False; [exact IH|].
    simpl. rewrite bool_decide_eq_false_2 by done. intros [].
Qed.

Lemma filter_filter_other s s' (bs : list Binding) :
  s' ≠ s →
  filter (fun b => b_state b = s) (filter (fun b => b_state b ≠ s') bs)
  = filter (fun b => b_state b = s) bs.
Proof.
  intros Hne. induction bs as [|b bs IH]; [done|].
  rewrite (filter_cons (fun b => b_state b ≠ s')).
  rewrite (filter_cons (fun b => b_state b = s)).
  destruct (decide (b_state b = s)) as [Hs|Hs].
  - rewrite decide_True by congruence. rewrite filter_cons_True by done.
    by rewrite IH.
  - destruct (decide (b_state b ≠ s')); [|done].
    rewrite filter_cons_False by done. done.
Qed.

Lemma filter_none (P : Binding → Prop) `{∀ x, Decision (P x)} (l : list Binding) :
  Forall (fun x => ¬ P x) l → filter P l = [].
Proof.
  induction 1 as [|x l Hx _ IH]; [done|]. by rewrite filter_cons_False.
Qed.

Lemma onmount_other w b :
  wf w → b ∈ w_cleanups w →
  Forall (fun b' => b_state b' ≠ b_state b) (w_onmount w).
Proof.
  intros Hw Hb. pose proof (wf_nodup _ Hw) as Hn.
  rewrite map_app in Hn. apply NoDup_app in Hn as (_ & Hdis & _).
  apply Forall_forall. intros b' Hb' Heq.
  apply (Hdis (b_state b)); apply list_elem_of_fmap; eauto.
Qed.

Lemma mounted_extends b w w' : mounted b w → extends w w' → mounted b w'.
Proof.
  intros [Hc He] Hext. split.
  - by rewrite (ext_cleanups _ _ Hext).
  - by rewrite (ext_effects _ _ Hext).
Qed.

Lemma mounted_quiet P b w w' : mounted b w → quiet P w w' → mounted b w'.
Proof.
  intros [Hc He] Hq. split.
  - by rewrite (q_cleanups _ _ _ Hq).
  - by rewrite (q_effects _ _ _ Hq).
Qed.

Lemma mounted_step b e w :
  wf w → mounted b w → is_dispose (b_state b) e = false →
  mounted b (exec (step e) w)
  ∧ updates_count (b_state b) (w_log (exec (step e) w))
    = updates_count (b_state b) (w_log w)
      + (if is_rerun (b_state b) e then 1 else 0).
Proof.
  intros Hw Hm Hnd. unfold updates_count.
  destruct e as [v|t o p| |st|s'|s'|el'|sw kids| |sw props kids]; cbn [is_rerun];
    rewrite ?Nat.add_0_r.
  - rewrite exec_step_render. pose proof (Ext_render v w) as He.
    split; [by eapply mounted_extends|].
    apply (count_extends (is_update (b_state b))); [apply create_no_update | done].
  - rewrite exec_step_create. pose proof (Ext_createMotion t o p w) as He.
    split; [by eapply mounted_extends|].
    apply (count_extends (is_update (b_state b))); [apply create_no_update | done].
  - cbn [step]. destruct (flush_spec w) as (_ & L & O & C & E & Li).
    cbv zeta in *. destruct Hm as [Hc He].
    pose proof (onmount_other w b Hw Hc) as Hoth.
    split.
    + split; [rewrite C; apply elem_of_app; by left |].
      rewrite E, filter_app, He, filter_none; [done|].
      eapply Forall_impl; [exact Hoth|]. done.
    + rewrite L.
      by apply (count_app_none (is_update (b_state b))), flush_trace_other_no_update.
  - cbn [step]. destruct Hm as [Hc He]. by split.
  - cbn [step]. assert (quiet (fun _ => True) w (exec (rerun s') w)) as Hq
      by by apply Quiet_rerun.
    split; [by eapply mounted_quiet|].
    rewrite rerun_log, (count_app (is_update (b_state b))), count_rerun. f_equal.
    destruct (decide (s' = b_state b)) as [->|Hne].
    + rewrite bool_decide_eq_true_2 by done.
      rewrite (m_effect _ _ Hm). by rewrite filter_cons_True.
    + rewrite bool_decide_eq_false_2 by done.
      rewrite filter_none; [done|]. apply Forall_forall. intros x Hx.
      apply list_elem_of_filter in Hx as [Hx _]. congruence.
  - cbn [step]. simpl in Hnd. apply bool_decide_eq_false in Hnd.
    destruct (dispose_spec s' w) as (_ & L & O & C & E & Li).
    cbv zeta in *. destruct Hm as [Hc He]. split.
    + split.
      * rewrite C. apply list_elem_of_filter. split; [|done]. congruence.
      * rewrite E. by rewrite filter_filter_other.
    + rewrite L. apply (count_app_none (is_update (b_state b))), cleanup_trace_no_update.
  - cbn [step].
    assert (quiet (fun c => is_update (b_state b) c = false) w (exec (dispatch el') w)) as Hq.
    { apply quiet_dispatch, Forall_forall. intros [e [|]]; done. }
    split; [by eapply mounted_quiet | by apply (count_quiet (is_update (b_state b)))].
  - destruct (source_spec (fun c => is_update (b_state b) c = false) sw kids w)
      as (w1 & H1 & H2); [apply switch_call_no_update|].
    cbn [step]. split.
    + eapply mounted_quiet; [|exact H2]. by eapply mounted_extends.
    + rewrite (count_quiet (is_update (b_state b)) _ _ H2).
      apply (count_extends (is_update (b_state b))); [apply create_no_update | done].
  - rewrite exec_step_mount.
    destruct (run_mounts_spec w) as (_ & L & O & C & E & Li & _).
    cbv zeta in *. destruct Hm as [Hc He].
    pose proof (onmount_other w b Hw Hc) as Hoth.
    split.
    + split; [rewrite C; apply elem_of_app; by left |].
      rewrite E, filter_app, He, filter_none; [done|].
      eapply Forall_impl; [exact Hoth|]. done.
    + rewrite L.
      apply (count_app_none (is_update (b_state b))), mount_trace_no_update.
  - cbn [step]. pose proof (Presence_rerun_extends sw props kids w) as He.
    split; [by eapply mounted_extends|].
    apply (count_extends (is_update (b_state b))); [apply create_no_update | done].
Qed.

Lemma mounted_steps b es w :
  wf w → mounted b w → count_events (is_dispose (b_state b)) es = 0 →
  mounted b (exec (steps es) w)
  ∧ updates_count (b_state b) (w_log (exec (steps es) w))
    = updates_count (b_state b) (w_log w)
      + count_events (is_rerun (b_state b)) es.
Proof.
  revert w. induction es as [|e es IH]; intros w Hw Hm Hnd.
  - split; [done|]. unfold count_events, steps. simpl. rewrite exec_ret. lia.
  - rewrite exec_steps_cons. unfold count_events in Hnd.
    rewrite filter_cons in Hnd.
    destruct (is_dispose (b_state b) e) eqn:Hd; [done|]. simpl in Hnd.
    destruct (mounted_step b e w Hw Hm Hd) as [Hm' Hc].
    destruct (IH _ (wf_step e w Hw) Hm' Hnd) as [Hm'' Hc'].
    split; [done|]. rewrite Hc', Hc. unfold count_events.
    rewrite (filter_cons _ e). destruct (is_rerun (b_state b) e); simpl; lia.
Qed.

Lemma count_flush_trace s st (bs : list Binding) :
  length (filter (fun c => is_update s c) (flush_trace st bs))
  = length (filter (fun b => b_state b = s) bs).
Proof.
  unfold flush_trace.
  rewrite (count_app_none_l (is_update s)) by apply mount_trace_no_update.
  apply count_rerun.
Qed.

Lemma fresh_no_updates w s :
  wf w → w_next w ≤ s → updates_count s (w_log w) = 0.
Proof.
  intros Hw Hs. unfold updates_count. apply (count_none (is_update s)).
  eapply Forall_impl; [exact (wf_log _ Hw)|].
  intros [] Hc; try done. unfold bounded in Hc. simpl in *.
  apply bool_decide_eq_false. lia.
Qed.

(** Flushing mounts a queued binding: its effect is created and runs
    once. *)
Lemma flush_mounts w b :
  wf w → b ∈ w_onmount w →
  mounted b (exec flush w)
  ∧ CCreateEffect (b_state b) ∈ w_log (exec flush w)
  ∧ updates_count (b_state b) (w_log (exec flush w))
    = updates_count (b_state b) (w_log w) + 1.
Proof.
  intros Hw Hb.
  destruct (flush_spec w) as (_ & L & O & C & E & Li). cbv zeta in *.
  pose proof (wf_nodup _ Hw) as Hn. rewrite map_app in Hn.
  apply NoDup_app in Hn as (_ & Hdis & Hn).
  assert (Hone : filter (fun b' => b_state b' = b_state b) (w_onmount w) = [b])
    by by apply filter_unique.
  split; [split|split].
  - rewrite C. apply elem_of_app. by right.
  - rewrite E, filter_app, Hone, filter_none; [done|].
    apply Forall_forall. intros b' Hb' Heq.
    pose proof (wf_effects _ Hw) as He. rewrite Forall_forall in He.
    apply (Hdis (b_state b)); apply list_elem_of_fmap; eauto.
  - rewrite L. apply elem_of_app. right. apply elem_of_app. left.
    apply list_elem_of_In, in_concat. exists (mount_trace b).
    split; [apply in_map, list_elem_of_In, Hb|]. simpl. auto.
  - unfold updates_count.
    by rewrite L, (count_app (is_update (b_state b))), count_flush_trace, Hone.
Qed.

Lemma queued_then_flush w b es :
  wf w → b ∈ w_onmount w → updates_count (b_state b) (w_log w) = 0 →
  count_events (is_dispose (b_state b)) es = 0 →
  CCreateEffect (b_state b) ∈ w_log (exec flush w)
  ∧ updates_count (b_state b) (w_log (exec (steps es) (exec flush w)))
    = 1 + count_events (is_rerun (b_state b)) es.
Proof.
  intros Hw Hb H0 Hnd.
  destruct (flush_mounts w b Hw Hb) as (Hm & Hce & Hc).
  split; [done|].
  destruct (mounted_steps b es _ (wf_flush _ Hw) Hm Hnd) as [_ ->]. lia.
Qed.

(** The binding that [createMotion] queues. *)
Lemma createMotion_queued target options presence w :
  let w' := exec (createMotion target options presence) w in
  let f := match options with OFun f => f | OStatic o => fun _ => o end in
  eval (createMotion target options presence) w = w_next w
  ∧ mkBinding (w_next w) target f presence ∈ w_onmount w'.
Proof.
  unfold createMotion, createAndBindMotionState, read_presence.
  destruct presence as [[c|v]|]; wsimpl.
  all: split; [done|]; apply elem_of_app; right; apply list_elem_of_here.
Qed.

(** The binding that [MotionComponent] queues. *)
Lemma MotionComponent_queued props children w :
  Ext children →
  let w' := exec (MotionComponent props children) w in
  mkBinding (S (w_next w)) (w_next w) (fun st => pick OPTION_KEYS (props st))
    (lookup_presence (w_ctx w)) ∈ w_onmount w'.
Proof.
  intros Hc. unfold MotionComponent.
  rewrite !exec_bind. unfold usePresenceContext, useParentContext.
  rewrite !exec_gets, !eval_gets.
  set (w1 := exec fresh w).
  change (eval fresh w) with (w_next w).
  change (w_ctx w1) with (w_ctx w).
  set (b := mkBinding _ _ _ _).
  set (w2 := exec (createAndBindMotionState _ _ _ _) w1).
  assert (Hs : eval (createAndBindMotionState (w_next w)
                 (fun st => pick OPTION_KEYS (props st))
                 (lookup_presence (w_ctx w)) (lookup_parent (w_ctx w))) w1
               = S (w_next w)).
  { unfold createAndBindMotionState, read_presence.
    destruct (lookup_presence (w_ctx w)) as [[c|v]|]; by wsimpl. }
  assert (Hb : b ∈ w_onmount w2).
  { subst w2 b. unfold createAndBindMotionState, read_presence.
    destruct (lookup_presence (w_ctx w)) as [[c|v]|]; wsimpl;
      apply elem_of_app; right; apply list_elem_of_here. }
  rewrite Hs.
  match goal with |- context [exec (provide ?e ?m) w2] =>
    assert (Hext : extends w2 (exec (provide e m) w2)) end.
  { apply Ext_provide.
    apply Ext_bind; [apply Ext_gets|]. intros p.
    apply Ext_bind; [apply Hc|]. intros kids. apply Ext_ret. }
  destruct (ext_onmount _ _ Hext) as (bs & -> & _).
  apply elem_of_app. by left.
Qed.

(* ===================================================================== *)
(** ** Claim C1: cleanup with and without an exit target *)
(* ===================================================================== *)

(** C1.  Cleanup of a mounted binding, in any world the environment can
    reach.  If the binding has a presence flag and its current options
    declare [exit] (a truthy value), the cleanup calls
    [setActive("exit", true)] and registers [unmount] for
    [motioncomplete] on the element, and nothing else: [unmount] is not
    called, and however the environment goes on, it has been called
    exactly as many times as [motioncomplete] was dispatched on the
    element since.  If there is no presence flag or no [exit], the
    cleanup calls [unmount] at once and registers no listener. *)
Theorem C1_cleanup_defers_unmount (w : World) (b : Binding) :
  reachable w → b ∈ w_cleanups w →
  let s := b_state b in
  let el := b_el b in
  let exit := get (b_options b (w_store w)) "exit" in
  let w' := exec (step (EDispose s)) w in
  (is_Some (b_presence b) → truthy exit = true →
     w_log w' = w_log w ++
       [CSetActive s "exit" true;
        CAddEventListener el "motioncomplete" (CbUnmount s el)]
     ∧ w_listeners w' = w_listeners w ++ [(el, CbUnmount s el)]
     ∧ ∀ es, unmounts_of s (w_log (exec (steps es) w'))
             = unmounts_of s (w_log w) + count_events (is_dispatch el) es)
  ∧ (b_presence b = None ∨ truthy exit = false →
     w_log w' = w_log w ++ [CUnmount s]
     ∧ w_listeners w' = w_listeners w).
Proof.
  intros Hr Hb s el exit w'. subst s el exit w'. cbn [step].
  apply wf_reachable in Hr. split.
  - intros [p Hp] Hexit.
    assert (Hd : defers (w_store w) b = true).
    { unfold defers. by rewrite Hp. }
    destruct (dispose_deferred w b Hr Hb Hd) as (Hep & L & Li).
    cbv zeta in *. split; [done|]. split; [done|]. intros es.
    destruct (exit_pending_steps _ _ es _ Hep) as [_ ->].
    rewrite L. unfold unmounts_of.
    rewrite (count_app_none (is_unmount (b_state b))); [done|].
    by repeat constructor.
  - intros Hno.
    assert (Hd : defers (w_store w) b = false).
    { unfold defers. destruct Hno as [->|Hf]; [done|].
      by destruct (b_presence b). }
    by apply dispose_immediate.
Qed.

Lemma C1_cleanup_defers_unmount_witness :
  reachable sample_mounted_world
  ∧ sample_binding ∈ w_cleanups sample_mounted_world
  ∧ unmounts_of 0
      (w_log (exec (steps [EDispose 0; EFlush; EDispatch 7]) sample_mounted_world))
    = 1.
Proof.
  assert (Hr : reachable sample_mounted_world) by (eexists; reflexivity).
  assert (Hb : sample_binding ∈ w_cleanups sample_mounted_world)
    by (vm_compute; apply list_elem_of_here).
  split; [exact Hr|]. split; [exact Hb|].
  destruct (C1_cleanup_defers_unmount sample_mounted_world sample_binding Hr Hb)
    as [Hdefer _].
  destruct Hdefer as (_ & _ & Hcount); [by eexists | reflexivity |].
  specialize (Hcount [EFlush; EDispatch 7]).
  cbn [b_state b_el sample_binding] in Hcount.
  rewrite exec_steps_cons, Hcount. reflexivity.
Defined.

(* ===================================================================== *)
(** ** Claims C2 and C6: the exit hook and the listeners it leaves *)
(* ===================================================================== *)

Lemma Keep_ret {A} (a : A) : Keep (ret a).
Proof. done. Qed.

Lemma Keep_gets {A} (f : World → A) : Keep (gets f).
Proof. done. Qed.

Lemma Keep_bind {A B} (m : M A) (k : A → M B) :
  Keep m → (∀ a, Keep (k a)) → Keep (bind m k).
Proof. intros Hm Hk w. rewrite exec_bind. by rewrite Hk, Hm. Qed.

Lemma Keep_for_each {A} (l : list A) (f : A → M unit) :
  (∀ x, Keep (f x)) → Keep (for_each l f).
Proof.
  intros Hf. induction l as [|x l IH]; simpl; [apply Keep_ret|].
  apply Keep_bind; [apply Hf | intros _; exact IH].
Qed.

Lemma Keep_enterTransition sw : Keep (enterTransition sw).
Proof.
  apply Keep_bind; [apply Keep_gets|]. intros [s|]; [|apply Keep_ret].
  by destruct (sw_next s).
Qed.

Lemma Keep_invoke cb : Keep (invoke cb).
Proof.
  destruct cb as [s el|sw el after]; simpl; [done|].
  unfold run_remove. apply Keep_bind; [done|]. intros _.
  apply Keep_bind; [done|]. intros _.
  destruct after; [apply Keep_enterTransition | apply Keep_ret].
Qed.

Lemma Keep_dispatch el : Keep (dispatch el).
Proof.
  apply Keep_bind; [apply Keep_gets|]. intros ls.
  apply Keep_for_each. intros l. apply Keep_invoke.
Qed.

Lemma count_map_invoke (f : Call → bool) (ls : list (El * Callback)) :
  length (filter (fun c => f c) (map (fun l => invoke_call l.2) ls))
  = length (filter (fun l => f (invoke_call l.2)) ls).
Proof.
  induction ls as [|l ls IH]; [done|]. simpl.
  rewrite (filter_cons (fun c => f c)), (filter_cons (fun l => f (invoke_call l.2))).
  destruct (f (invoke_call l.2)); simpl; by rewrite IH.
Qed.

Lemma dispatch_removes sw el n w :
  removes_of sw el (w_log (exec (steps (repeat (EDispatch el) n)) w))
  = removes_of sw el (w_log w) + n * pending_removes sw el w.
Proof.
  revert w. induction n as [|n IH]; intros w.
  - unfold steps. simpl. rewrite exec_ret. lia.
  - cbn [repeat]. rewrite exec_steps_cons, IH. cbn [step].
    unfold pending_removes at 1. rewrite Keep_dispatch.
    fold (pending_removes sw el w).
    unfold removes_of at 1. rewrite dispatch_log, (count_app (is_remove sw el)).
    rewrite count_map_invoke. fold (removes_of sw el (w_log w)).
    fold (pending_removes sw el w). lia.
Qed.

Lemma onExit_deferred sw el after w s :
  w_mounted w !! el = Some s →
  truthy (get (default ∅ (w_opts w !! s)) "exit") = true →
  exec (Presence_onExit sw el after) w
  = exec (onCompleteExit el (CbRemove sw el after)) w.
Proof.
  intros Hm He.
  unfold Presence_onExit, mountedStates_get, state_getOptions, exec, bind, gets, ret.
  simpl. rewrite Hm. simpl. by rewrite He.
Qed.

Lemma pending_removes_registered sw el after w :
  pending_removes sw el (exec (onCompleteExit el (CbRemove sw el after)) w)
  = S (pending_removes sw el w).
Proof.
  unfold pending_removes. wsimpl. rewrite !filter_app, length_app.
  rewrite (filter_cons_True (fun l => l.1 = el)) by done.
  rewrite filter_cons_True; [simpl; lia|].
  simpl. rewrite !bool_decide_eq_true_2 by done. done.
Qed.

Lemma onExit_immediate sw el after w :
  truthy (match w_mounted w !! el with
          | Some s => get (default ∅ (w_opts w !! s)) "exit"
          | None => VUndefined
          end) = false →
  exec (Presence_onExit sw el after) w = exec (run_remove sw el after) w.
Proof.
  intros He.
  unfold Presence_onExit, mountedStates_get, state_getOptions, exec, bind, gets, ret.
  simpl. destruct (w_mounted w !! el) as [s|]; simpl in *; [by rewrite He | done].
Qed.

(** C2.  The [onExit] hook of the transition coordinator, in any world.
    If [mountedStates] records no state for the element, or the recorded
    state's options have no (truthy) [exit], the removal callback runs
    at once: the hook is exactly one call of [remove].  If [exit] is
    declared, the hook only registers [remove] for [motioncomplete] on
    the element: nothing is removed, and [remove] runs when the event is
    dispatched, once for every dispatch and registered closure. *)
Theorem C2_onExit_removes_or_defers (w : World) (sw : SwitchId) (el : El)
    (after : bool) :
  let w' := exec (Presence_onExit sw el after) w in
  (w_mounted w !! el = None →
     w' = exec (run_remove sw el after) w
     ∧ w_log w' = w_log w ++ [CRemove sw el]
     ∧ w_listeners w' = w_listeners w)
  ∧ (∀ s, w_mounted w !! el = Some s →
       truthy (get (default ∅ (w_opts w !! s)) "exit") = false →
       w' = exec (run_remove sw el after) w
       ∧ w_log w' = w_log w ++ [CRemove sw el]
       ∧ w_listeners w' = w_listeners w)
  ∧ (∀ s, w_mounted w !! el = Some s →
       truthy (get (default ∅ (w_opts w !! s)) "exit") = true →
       w_log w' = w_log w ++
         [CAddEventListener el "motioncomplete" (CbRemove sw el after)]
       ∧ w_listeners w' = w_listeners w ++ [(el, CbRemove sw el after)]
       ∧ w_switches w' = w_switches w
       ∧ ∀ n, removes_of sw el
                (w_log (exec (steps (repeat (EDispatch el) n)) w'))
              = removes_of sw el (w_log w) + n * S (pending_removes sw el w)).
Proof.
  intros w'. subst w'.
  assert (Him : exec (Presence_onExit sw el after) w
                = exec (run_remove sw el after) w →
    exec (Presence_onExit sw el after) w = exec (run_remove sw el after) w
    ∧ w_log (exec (Presence_onExit sw el after) w) = w_log w ++ [CRemove sw el]
    ∧ w_listeners (exec (Presence_onExit sw el after) w) = w_listeners w).
  { intros ->. split; [done|]. split.
    - apply (invoke_log (CbRemove sw el after)).
    - apply (Keep_invoke (CbRemove sw el after)). }
  split; [|split].
  - intros Hm. apply Him, onExit_immediate. by rewrite Hm.
  - intros s Hm He. apply Him, onExit_immediate. by rewrite Hm.
  - intros s Hm He. rewrite (onExit_deferred _ _ _ _ s Hm He).
    split; [done|]. split; [done|]. split; [done|]. intros n.
    rewrite dispatch_removes, pending_removes_registered.
    unfold removes_of at 1. wsimpl.
    rewrite (count_app_none (is_remove sw el)); [done|]. by repeat constructor.
Qed.

(** An element whose mounted state declares [exit], seen by switch 3. *)
Lemma C2_onExit_removes_or_defers_witness :
  w_mounted sample_mounted_world !! 7 = Some 0
  ∧ truthy (get (default ∅ (w_opts sample_mounted_world !! 0)) "exit") = true
  ∧ removes_of 3 7
      (w_log (exec (steps (repeat (EDispatch 7) 1))
                (exec (Presence_onExit 3 7 true) sample_mounted_world)))
    = 1.
Proof.
  assert (Hm : w_mounted sample_mounted_world !! 7 = Some 0) by reflexivity.
  assert (He : truthy (get (default ∅ (w_opts sample_mounted_world !! 0)) "exit")
               = true) by reflexivity.
  split; [exact Hm|]. split; [exact He|].
  destruct (C2_onExit_removes_or_defers sample_mounted_world 3 7 true)
    as (_ & _ & Hdefer).
  destruct (Hdefer 0 Hm He) as (_ & _ & _ & Hcount).
  rewrite (Hcount 1). reflexivity.
Defined.

(** C6, as stated, fails: a binding with a presence flag and an [exit]
    target is mounted and cleaned up, then [motioncomplete] is
    dispatched twice on its element; the deferred [unmount] runs twice. *)
Lemma C6_listener_not_one_shot :
  ¬ (unmounts_of 0
       (w_log (exec (steps [EDispose 0; EDispatch 7; EDispatch 7])
                 sample_mounted_world)) ≤ 1).
Proof. vm_compute. lia. Qed.

(** C6, amended.  The listener that a deferred exit registers stays
    registered and is not guarded: every [motioncomplete] dispatched on
    the element calls the deferred callback again.  After [n] events the
    deferred [unmount] of a cleaned-up binding has run [n] times, and the
    [remove] closure deferred by the coordinator has run [n] times for
    each time it was registered. *)
Theorem C6_listener_fires_on_every_event (n : nat) :
  (∀ w b, reachable w → b ∈ w_cleanups w →
     is_Some (b_presence b) →
     truthy (get (b_options b (w_store w)) "exit") = true →
     unmounts_of (b_state b)
       (w_log (exec (steps (repeat (EDispatch (b_el b)) n))
                 (exec (step (EDispose (b_state b))) w)))
     = unmounts_of (b_state b) (w_log w) + n)
  ∧ (∀ w sw el after s,
       w_mounted w !! el = Some s →
       truthy (get (default ∅ (w_opts w !! s)) "exit") = true →
       removes_of sw el
         (w_log (exec (steps (repeat (EDispatch el) n))
                   (exec (Presence_onExit sw el after) w)))
       = removes_of sw el (w_log w) + n * S (pending_removes sw el w)).
Proof.
  split.
  - intros w b Hr Hb Hp He. cbn [step].
    assert (Hd : defers (w_store w) b = true).
    { unfold defers. destruct Hp as [p ->]. done. }
    destruct (dispose_deferred w b (wf_reachable _ Hr) Hb Hd) as (Hep & L & _).
    cbv zeta in *.
    destruct (exit_pending_steps _ _ (repeat (EDispatch (b_el b)) n) _ Hep)
      as [_ ->].
    rewrite L. unfold unmounts_of.
    rewrite (count_app_none (is_unmount (b_state b))) by by repeat constructor.
    f_equal. unfold count_events. clear.
    induction n as [|n IH]; [done|]. cbn [repeat].
    rewrite filter_cons_True; [simpl; by rewrite IH|].
    simpl. by rewrite bool_decide_eq_true_2.
  - intros w sw el after s Hm He.
    rewrite (onExit_deferred _ _ _ _ s Hm He).
    rewrite dispatch_removes, pending_removes_registered.
    unfold removes_of at 1. wsimpl.
    rewrite (count_app_none (is_remove sw el)); [done|]. by repeat constructor.
Qed.

Lemma C6_listener_fires_on_every_event_witness :
  reachable sample_mounted_world
  ∧ sample_binding ∈ w_cleanups sample_mounted_world
  ∧ unmounts_of 0
      (w_log (exec (steps (repeat (EDispatch 7) 3))
                (exec (step (EDispose 0)) sample_mounted_world)))
    = 3.
Proof.
  assert (Hr : reachable sample_mounted_world) by (eexists; reflexivity).
  assert (Hb : sample_binding ∈ w_cleanups sample_mounted_world)
    by (vm_compute; apply list_elem_of_here).
  split; [exact Hr|]. split; [exact Hb|].
  destruct (C6_listener_fires_on_every_event 3) as [Hunmount _].
  specialize (Hunmount sample_mounted_world sample_binding Hr Hb).
  cbn [b_state b_el b_presence b_options sample_binding] in Hunmount.
  rewrite Hunmount; [reflexivity | by eexists | reflexivity].
Defined.

(* ===================================================================== *)
(** ** Claim C3: the update effect *)
(* ===================================================================== *)

(** C3, as stated, fails: [createMotion] is given a static options
    object and the binding is mounted; the update effect is created and
    [update] is called once. *)
Lemma C3_static_source_is_wired :
  CCreateEffect 0 ∈
    w_log (exec (steps [ECreateMotion 7 (OStatic sample_exit_options) None; EFlush])
             empty_world)
  ∧ updates_count 0
      (w_log (exec (steps [ECreateMotion 7 (OStatic sample_exit_options) None;
                           EFlush]) empty_world))
    ≠ 0.
Proof.
  split.
  - vm_compute.
    repeat first [apply list_elem_of_here | apply list_elem_of_further].
  - vm_compute. lia.
Qed.

Lemma steps_two e1 e2 w :
  exec (steps [e1; e2]) w = exec (step e2) (exec (step e1) w).
Proof. by rewrite !exec_steps_cons. Qed.

(** C3, amended.  The options source always reaches the binder as a
    function ([createMotion] wraps a static object in a constant one,
    [MotionComponent] passes a producer), so mounting always creates the
    update effect.  The effect calls [update] once when it first runs,
    in the batch that mounts the binding, and once each time the runtime
    runs it again: as long as the binding is not disposed, after [N]
    re-runs the handle has received exactly [N + 1] update calls,
    whatever else the environment did meanwhile.
    A static source has no dependency and is never re-run: one call.
    Each re-run passes what the producer returns at that time. *)
Theorem C3_update_per_effect_run (w : World) (es : list Event) :
  reachable w →
  (∀ target options presence,
     let s := w_next w in
     let w1 := exec (steps [ECreateMotion target options presence; EFlush]) w in
     count_events (is_dispose s) es = 0 →
     CCreateEffect s ∈ w_log w1
     ∧ updates_count s (w_log (exec (steps es) w1))
       = 1 + count_events (is_rerun s) es)
  ∧ (∀ tag props kids,
       let s := S (w_next w) in
       let w1 := exec (steps [ERender (VMotion tag props kids); EFlush]) w in
       count_events (is_dispose s) es = 0 →
       CCreateEffect s ∈ w_log w1
       ∧ updates_count s (w_log (exec (steps es) w1))
         = 1 + count_events (is_rerun s) es)
  ∧ (∀ b w2, mounted b w2 →
       w_log (exec (step (ERerun (b_state b))) w2)
       = w_log w2 ++ [CUpdate (b_state b) (b_options b (w_store w2))]).
Proof.
  intros Hr. apply wf_reachable in Hr. split; [|split].
  - intros target options presence s w1 Hnd. subst s w1.
    rewrite steps_two, exec_step_create. cbn [step].
    destruct (createMotion_queued target options presence w) as [_ Hq].
    cbv zeta in Hq.
    pose proof (Ext_createMotion target options presence w) as Hext.
    apply (queued_then_flush _ _ es (wf_extends _ _ Hr Hext) Hq); [|done].
    cbn [b_state]. unfold updates_count.
    rewrite (count_extends (is_update (w_next w)) _ _ (create_no_update _) Hext).
    by apply fresh_no_updates.
  - intros tag props kids s w1 Hnd. subst s w1.
    rewrite steps_two, exec_step_render. cbn [step].
    pose proof (Ext_render (VMotion tag props kids) w) as Hext.
    assert (Hq : ∃ b, b_state b = S (w_next w)
                      ∧ b ∈ w_onmount (exec (render (VMotion tag props kids)) w)).
    { destruct tag as [t|].
      - rewrite render_VMotion_tag. eexists. split; [|
          apply (MotionComponent_queued _ (render_list kids) w), Ext_render_all].
        done.
      - rewrite render_VMotion_plain. eexists. split; [|
          apply (MotionComponent_queued _ (render_list kids) w), Ext_render_all].
        done. }
    destruct Hq as (b & Hs & Hq). rewrite <- Hs in *.
    apply (queued_then_flush _ _ es (wf_extends _ _ Hr Hext) Hq); [|done].
    unfold updates_count.
    rewrite (count_extends (is_update (b_state b)) _ _ (create_no_update _) Hext).
    apply fresh_no_updates; [done | lia].
  - intros b w2 Hm. cbn [step]. by rewrite rerun_log, (m_effect _ _ Hm).
Qed.

Lemma C3_update_per_effect_run_witness :
  reachable empty_world
  ∧ updates_count 0
      (w_log (exec (steps [EWrite ∅; ERerun 0; EDispatch 7; ERerun 0])
                (exec (steps [ECreateMotion 7 (OStatic sample_exit_options) None;
                              EFlush]) empty_world)))
    = 3.
Proof.
  split; [exact reachable_empty|].
  destruct (C3_update_per_effect_run empty_world
              [EWrite ∅; ERerun 0; EDispatch 7; ERerun 0] reachable_empty)
    as (Hcreate & _ & _).
  destruct (Hcreate 7 (OStatic sample_exit_options) None) as [_ Hcount];
    [reflexivity|].
  cbn [w_next empty_world] in Hcount. rewrite Hcount. reflexivity.
Defined.

(* ===================================================================== *)
(** ** The flag and the switch of a [Presence] stay as it left them *)
(* ===================================================================== *)

Lemma exec_provide {A} (e : CtxEntry) (m : M A) w :
  exec (provide e m) w
  = set_ctx (fun _ => w_ctx w) (exec m (set_ctx (fun c => e :: c) w)).
Proof.
  unfold provide, exec, bind, gets, modify, ret. simpl.
  by destruct (m _).
Qed.

Lemma eval_provide {A} (e : CtxEntry) (m : M A) w :
  eval (provide e m) w = eval m (set_ctx (fun c => e :: c) w).
Proof.
  unfold provide, eval, bind, gets, modify, ret. simpl.
  by destruct (m _).
Qed.

Lemma presence_alive_extends c sw ctx mode w w' :
  presence_alive c sw ctx mode w → extends w w' → presence_alive c sw ctx mode w'.
Proof.
  intros [Hc Hs Hcell Hsw] Hext.
  pose proof (ext_next _ _ Hext).
  split; [lia | lia | |].
  - by rewrite (ext_cells _ _ Hext).
  - by rewrite (ext_switches _ _ Hext).
Qed.

Lemma presence_alive_quiet P c sw ctx mode w w' :
  presence_alive c sw ctx mode w → quiet P w w' → presence_alive c sw ctx mode w'.
Proof.
  intros [Hc Hs Hcell (s & Hsw & Hctx & Hmode)] Hq.
  split; rewrite ?(q_next _ _ _ Hq), ?(q_cells _ _ _ Hq); try done.
  destruct (q_switches _ _ _ Hq sw s Hsw) as (s' & ? & ? & ?).
  exists s'. repeat split; congruence.
Qed.

Lemma presence_alive_frame c sw ctx mode w w' :
  presence_alive c sw ctx mode w → same_frame w w' → presence_alive c sw ctx mode w'.
Proof.
  intros [Hc Hs Hcell Hsw] [St X N Ce Sw].
  split; rewrite ?N, ?Ce, ?Sw; done.
Qed.

Lemma presence_alive_step c sw ctx mode e w :
  presence_alive c sw ctx mode w → presence_alive c sw ctx mode (exec (step e) w).
Proof.
  intros Hp. destruct e as [v|t o p| |st|s|s|el|k kids| |k props kids].
  - rewrite exec_step_render. eapply presence_alive_extends; [done|apply Ext_render].
  - rewrite exec_step_create.
    eapply presence_alive_extends; [done|apply Ext_createMotion].
  - eapply presence_alive_frame; [done|]. by destruct (flush_spec w) as [? _].
  - by destruct Hp.
  - eapply (presence_alive_quiet (fun _ => True)); [done|]. by apply Quiet_rerun.
  - eapply presence_alive_frame; [done|]. by destruct (dispose_spec s w) as [? _].
  - eapply (presence_alive_quiet (fun _ => True)); [done|].
    apply quiet_dispatch, Forall_forall. done.
  - destruct (source_spec (fun _ => True) k kids w) as (w1 & H1 & H2); [done|].
    eapply presence_alive_quiet; [|exact H2]. by eapply presence_alive_extends.
  - rewrite exec_step_mount.
    eapply presence_alive_frame; [done|]. by destruct (run_mounts_spec w) as [? _].
  - eapply presence_alive_extends; [done|apply Presence_rerun_extends].
Qed.

Lemma presence_alive_steps c sw ctx mode es w :
  presence_alive c sw ctx mode w → presence_alive c sw ctx mode (exec (steps es) w).
Proof.
  revert w. induction es as [|e es IH]; intros w Hp; [done|].
  rewrite exec_steps_cons. by apply IH, presence_alive_step.
Qed.

Lemma createSwitchTransition_spec init appear mode w :
  eval (createSwitchTransition init appear mode) w = w_next w
  ∧ w_next (exec (createSwitchTransition init appear mode) w) = S (w_next w)
  ∧ ∃ s, w_switches (exec (createSwitchTransition init appear mode) w)
           !! w_next w = Some s
         ∧ sw_ctx s = w_ctx w ∧ sw_mode s = mode.
Proof.
  unfold createSwitchTransition.
  rewrite !eval_bind, !exec_bind, exec_gets, exec_modify, exec_ret.
  unfold eval at 1 2 3 4 5. simpl. split; [done|].
  set (w1 := set_switches _ _).
  destruct (Quiet_source_changed (fun _ => True) (fun _ _ => I)
              (w_next w) init w1) as [_ _ Hn _ _ _ _ _ _ Hsw].
  split; [exact Hn|].
  edestruct (Hsw (w_next w)) as (s' & Hs' & Hc & Hm).
  { subst w1. simpl. apply lookup_insert_eq. }
  exists s'. by repeat split.
Qed.

Lemma Presence_alive props children w :
  Ext children →
  ∃ sw, eval (Presence props children) w = NSwitch sw
        ∧ presence_alive (w_next w) sw
            (EParent None :: EPresence (PCell (w_next w)) :: w_ctx w)
            (Presence_mode (props (w_store w)))
            (exec (Presence props children) w).
Proof.
  intros Hc. unfold Presence.
  rewrite eval_bind, exec_bind, exec_gets, eval_gets.
  rewrite eval_bind, exec_bind.
  change (eval (new_cell (Presence_initial (props (w_store w)))) w) with (w_next w).
  set (c := w_next w).
  set (w1 := exec (new_cell _) w).
  rewrite eval_bind, exec_bind, eval_bind, exec_bind.
  unfold write_cell at 1 2. rewrite exec_modify, exec_ret.
  unfold eval at 1. unfold ret at 1. cbn [fst].
  rewrite !eval_provide, !exec_provide.
  set (w3 := set_ctx _ (set_ctx _ w1)).
  pose proof (Hc w3) as Hext.
  unfold Presence_children, resolveFirst, read_cell.
  unfold exec at 1 in Hext. unfold eval, exec, bind, gets.
  destruct (children w3) as [ns w4]. cbn [fst snd] in *.
  match goal with |- context [createSwitchTransition ?i ?a ?m w4] =>
    destruct (createSwitchTransition_spec i a m w4)
      as (Hev & Hnext & s & Hs & Hctx & Hmode);
    unfold eval, exec in Hev, Hnext, Hs;
    destruct (createSwitchTransition i a m w4) as [sw w5] end.
  cbn [fst snd] in *. subst sw.
  exists (w_next w4). split; [done|].
  pose proof (ext_next _ _ Hext) as Hn34.
  assert (Hn3 : w_next w3 = S c) by done.
  split; simpl.
  - lia.
  - lia.
  - apply lookup_insert_eq.
  - exists s. split; [done|]. split.
    + rewrite Hctx, (ext_ctx _ _ Hext). done.
    + rewrite Hmode, (ext_store _ _ Hext). done.
Qed.

Lemma grows_refl w : grows w w.
Proof. exists []. by rewrite app_nil_r. Qed.

Lemma grows_trans w1 w2 w3 : grows w1 w2 → grows w2 w3 → grows w1 w3.
Proof. intros [l1 H1] [l2 H2]. exists (l1 ++ l2). by rewrite H2, H1, app_assoc. Qed.

Lemma grows_extends w w' : extends w w' → grows w w'.
Proof. intros H. destruct (ext_log _ _ H) as (l & Hl & _). by exists l. Qed.

Lemma grows_quiet P w w' : quiet P w w' → grows w w'.
Proof. intros H. destruct (q_log _ _ _ H) as (l & Hl & _). by exists l. Qed.

Lemma grows_from w w' c : grows w w' →
  ∀ l0, w_log w = l0 ++ [c] → ∃ l, w_log w' = l0 ++ c :: l.
Proof.
  intros [l Hl] l0 H0. exists l. by rewrite Hl, H0, <- app_assoc.
Qed.

Lemma createAndBind_spec el options presence parent w :
  let w' := exec (createAndBindMotionState el options presence parent) w in
  eval (createAndBindMotionState el options presence parent) w = w_next w
  ∧ w_log w' = w_log w ++
      [CCreateMotionState (w_next w)
         (construction_options (presence_value presence w) (options (w_store w)))
         parent]
  ∧ w_opts w' !! w_next w
    = Some (construction_options (presence_value presence w) (options (w_store w))).
Proof.
  unfold createAndBindMotionState, presence_value, construction_options, read_presence.
  destruct presence as [[c|v]|]; wsimpl; repeat split; apply lookup_insert_eq.
Qed.

Lemma MotionComponent_log props children w :
  Ext children →
  ∃ l, w_log (exec (MotionComponent props children) w)
       = w_log w ++
         CCreateMotionState (S (w_next w))
           (construction_options
              (presence_value (lookup_presence (w_ctx w)) w)
              (pick OPTION_KEYS (props (w_store w))))
           (lookup_parent (w_ctx w)) :: l.
Proof.
  intros Hc. unfold MotionComponent.
  rewrite !exec_bind. unfold usePresenceContext, useParentContext.
  rewrite !exec_gets, !eval_gets.
  set (w1 := exec fresh w).
  change (eval fresh w) with (w_next w). change (w_ctx w1) with (w_ctx w).
  destruct (createAndBind_spec (w_next w) (fun st => pick OPTION_KEYS (props st))
              (lookup_presence (w_ctx w)) (lookup_parent (w_ctx w)) w1)
    as (Hev & Hlog & _). cbv zeta in *.
  rewrite Hev.
  match goal with |- context [exec (provide ?e ?m) ?w2] =>
    assert (Hext : extends w2 (exec (provide e m) w2)) end.
  { apply Ext_provide.
    apply Ext_bind; [apply Ext_gets|]. intros p.
    apply Ext_bind; [apply Hc|]. intros kids. apply Ext_ret. }
  assert (Hpv : presence_value (lookup_presence (w_ctx w)) w1
                = presence_value (lookup_presence (w_ctx w)) w).
  { unfold presence_value, read_presence.
    by destruct (lookup_presence _) as [[|]|]. }
  rewrite Hpv in Hlog.
  change (w_log w1) with (w_log w) in Hlog.
  change (w_next w1) with (S (w_next w)) in Hlog.
  change (w_store w1) with (w_store w) in Hlog.
  destruct (grows_extends _ _ Hext) as [l Hl].
  exists l. rewrite Hl, Hlog, <- app_assoc. done.
Qed.

Lemma render_VMotion tag props kids :
  render (VMotion tag props kids)
  = MotionComponent (motion_props tag props) (render_list kids).
Proof. by destruct tag. Qed.

(** Rendering a list of views that starts with a [Motion] element:
    the first call is the creation of its handle. *)
Lemma render_list_Motion_first tag props kids rest w :
  ∃ l, w_log (exec (render_list (VMotion tag props kids :: rest)) w)
       = w_log w ++
         CCreateMotionState (S (w_next w))
           (construction_options
              (presence_value (lookup_presence (w_ctx w)) w)
              (pick OPTION_KEYS (motion_props tag props (w_store w))))
           (lookup_parent (w_ctx w)) :: l.
Proof.
  cbn [render_list]. rewrite exec_bind, render_VMotion.
  destruct (MotionComponent_log (motion_props tag props) (render_list kids) w
              (Ext_render_all kids)) as [l Hl].
  set (w1 := exec (MotionComponent _ _) w) in *.
  match goal with |- context [exec ?m w1] =>
    assert (Hext : extends w1 (exec m w1)) end.
  { apply Ext_bind; [apply Ext_render_all|]. intros ns. apply Ext_ret. }
  destruct (grows_extends _ _ Hext) as [l' Hl'].
  exists (l ++ l'). rewrite Hl', Hl, <- app_assoc. done.
Qed.

(** The first render of a [Presence] whose first child is a [Motion]
    element: the child's handle is created while the flag still holds
    [props.initial !== false]. *)
Lemma Presence_first_render props tag cprops ckids rest w :
  ∃ l, w_log (exec (Presence props
                      (render_list (VMotion tag cprops ckids :: rest))) w)
       = w_log w ++
         CCreateMotionState (S (S (w_next w)))
           (construction_options
              (VBool (Presence_initial (props (w_store w))))
              (pick OPTION_KEYS (motion_props tag cprops (w_store w))))
           None :: l.
Proof.
  unfold Presence.
  rewrite exec_bind, exec_gets, eval_gets, exec_bind.
  change (eval (new_cell (Presence_initial (props (w_store w)))) w) with (w_next w).
  set (c := w_next w).
  set (w1 := exec (new_cell _) w).
  rewrite exec_bind, exec_bind.
  unfold write_cell at 1. rewrite exec_modify, exec_ret.
  rewrite !exec_provide.
  set (w3 := set_ctx _ (set_ctx _ w1)).
  destruct (render_list_Motion_first tag cprops ckids rest w3) as [l Hl].
  assert (Hpv : presence_value (lookup_presence (w_ctx w3)) w3
                = VBool (Presence_initial (props (w_store w)))).
  { unfold presence_value, eval. simpl. by rewrite lookup_insert_eq. }
  rewrite Hpv in Hl.
  change (w_log w3) with (w_log w) in Hl.
  change (w_next w3) with (S c) in Hl.
  change (w_store w3) with (w_store w) in Hl.
  change (lookup_parent (w_ctx w3)) with (@None nat) in Hl.
  unfold Presence_children, resolveFirst, read_cell.
  unfold exec at 1 in Hl. unfold exec, bind, gets.
  destruct (render_list _ w3) as [ns w4]. cbn [fst snd] in *.
  match goal with |- context [createSwitchTransition ?i ?a ?m w4] =>
    pose proof (grows_extends _ _ (Ext_createSwitchTransition i a m w4)) as [l' Hl'];
    unfold exec in Hl';
    destruct (createSwitchTransition i a m w4) as [sw w5] end.
  cbn [fst snd] in *. simpl.
  exists (l ++ l'). rewrite Hl', Hl, <- app_assoc. done.
Qed.

(** A later insertion under a live [Presence]: the children are rendered
    again in the context of the [Presence], where the flag reads [true]
    and the parent scope is reset; the new [Motion] element's handle is
    created with the options as given. *)
Lemma source_insert_log c sw ctx mode tag cprops ckids rest w :
  presence_alive c sw (EParent None :: EPresence (PCell c) :: ctx) mode w →
  ∃ l, w_log (exec (source sw (VMotion tag cprops ckids :: rest)) w)
       = w_log w ++
         CCreateMotionState (S (w_next w))
           (pick OPTION_KEYS (motion_props tag cprops (w_store w)))
           None :: l.
Proof.
  intros [Hc Hs Hcell (s & Hsw & Hctx & Hmode)].
  unfold source. rewrite exec_bind, exec_gets, eval_gets, Hsw.
  rewrite !exec_bind, exec_gets, eval_gets, !exec_modify.
  set (w0 := set_ctx (fun _ => sw_ctx s) w).
  destruct (render_list_Motion_first tag cprops ckids rest w0) as [l Hl].
  assert (Hpv : presence_value (lookup_presence (w_ctx w0)) w0 = VBool true).
  { unfold presence_value, eval. simpl. rewrite Hctx. simpl. by rewrite Hcell. }
  rewrite Hpv in Hl.
  assert (Hpar : lookup_parent (w_ctx w0) = None).
  { simpl. by rewrite Hctx. }
  rewrite Hpar in Hl.
  change (w_log w0) with (w_log w) in Hl.
  change (w_next w0) with (w_next w) in Hl.
  change (w_store w0) with (w_store w) in Hl.
  unfold construction_options in Hl. cbn [is_false] in Hl.
  unfold resolveFirst. rewrite exec_bind, eval_bind, exec_gets.
  set (w1 := exec (render_list _) w0) in *.
  match goal with |- context [exec (source_changed sw ?f) ?w2] =>
    pose proof (grows_quiet _ _ _
      (Quiet_source_changed (fun _ => True) (fun _ _ => I) sw f w2)) as [l' Hl'] end.
  exists (l ++ l'). rewrite Hl'. simpl. rewrite Hl, <- app_assoc. done.
Qed.

(* ===================================================================== *)
(** ** Replacing the child of an out-in switch *)
(* ===================================================================== *)

(** The shown child [a] is mounted with an [exit] target and the source
    changes to [b]: the switch registers [remove] on [a] and holds [b]
    back. *)
Lemma swap_out_in w sw s a b sa :
  w_switches w !! sw = Some s → sw_prev s = Some a → sw_exiting s = false →
  a ≠ b → w_mounted w !! a = Some sa →
  truthy (get (default ∅ (w_opts w !! sa)) "exit") = true →
  sw_mode s = OutIn →
  let w1 := exec (source_changed sw (Some b)) w in
  w_switches w1
  = <[sw := mkSwitch OutIn (sw_returned s) (Some b) true (Some b) (sw_ctx s)]>
      (w_switches w)
  ∧ w_listeners w1 = w_listeners w ++ [(a, CbRemove sw a true)]
  ∧ w_next w1 = w_next w
  ∧ w_mounted w1 = w_mounted w.
Proof.
  intros Hs Hp He Hab Hm Hx Hmode.
  unfold source_changed, triggerTransitions, exitTransition, Presence_onExit,
    enterTransition, run_remove.
  wsimpl. rewrite Hs. simpl.
  rewrite decide_False by congruence. simpl.
  rewrite Hs. simpl. rewrite lookup_insert_eq. simpl. rewrite Hmode, He, Hp. simpl.
  rewrite Hm. simpl. rewrite Hx. simpl.
  rewrite !lookup_insert_eq. simpl. rewrite !insert_insert_eq.
  unfold switch_set_prev, switch_set_exiting, switch_set_next. simpl.
  rewrite Hmode. done.
Qed.

(* ===================================================================== *)
(** ** Claims C4 and C5: the presence flag *)
(* ===================================================================== *)

(** C4.  A [Presence] whose first child is a [Motion] element is
    rendered in any world.  Its flag first holds [props.initial !== false],
    so it is [false] exactly for [initial={false}], and the child present
    at the first render gets its handle created with [initial] forced off
    in that case only.  When [Presence] returns, the flag reads [true],
    and it reads [true] after anything the environment does later: a
    binder that reads the same accessor then creates its handle with
    the options unchanged, and so does a [Motion] element that a later
    change of the children inserts under the same [Presence]. *)
Theorem C4_flag_false_only_during_first_render (w : World) (props : Props)
    (tag : option string) (cprops : Props) (ckids rest : list View) :
  let c := w_next w in
  let kids := VMotion tag cprops ckids :: rest in
  let w' := exec (render (VPresence props kids)) w in
  let first_options := pick OPTION_KEYS (motion_props tag cprops (w_store w)) in
  (Presence_initial (props (w_store w)) = false
     ↔ get (props (w_store w)) "initial" = VBool false)
  ∧ (∃ l, w_log w' = w_log w ++
       CCreateMotionState (S (S c))
         (if Presence_initial (props (w_store w)) then first_options
          else <["initial" := VBool false]> first_options)
         None :: l)
  ∧ ∃ sw, eval (render (VPresence props kids)) w = NSwitch sw
      ∧ ∀ es,
          let w2 := exec (steps es) w' in
          presence_value (Some (PCell c)) w2 = VBool true
          ∧ (∀ el options parent,
               w_log (exec (createAndBindMotionState el options
                              (Some (PCell c)) parent) w2)
               = w_log w2 ++
                 [CCreateMotionState (w_next w2) (options (w_store w2)) parent])
          ∧ (∀ tag2 cprops2 ckids2 rest2,
               ∃ l, w_log (exec (step (ESource sw
                                   (VMotion tag2 cprops2 ckids2 :: rest2))) w2)
                    = w_log w2 ++
                      CCreateMotionState (S (w_next w2))
                        (pick OPTION_KEYS (motion_props tag2 cprops2 (w_store w2)))
                        None :: l).
Proof.
  intros c kids w' first_options. subst c kids w' first_options.
  rewrite render_VPresence. split; [|split].
  - unfold Presence_initial.
    destruct (get (props (w_store w)) "initial") as [| |[|]| | |]; simpl;
      split; congruence.
  - change (fix go (l : list View) : M (list Node) := _) with render_list.
    destruct (Presence_first_render props tag cprops ckids rest w) as [l Hl].
    exists l. rewrite Hl. unfold construction_options. simpl.
    by destruct (Presence_initial _).
  - change (fix go (l : list View) : M (list Node) := _) with render_list.
    destruct (Presence_alive props
                (render_list (VMotion tag cprops ckids :: rest)) w
                (Ext_render_all _)) as (sw & Hev & Ha).
    exists sw. split; [done|]. intros es w2. subst w2.
    pose proof (presence_alive_steps _ _ _ _ es _ Ha) as Ha2.
    assert (Hpv : presence_value (Some (PCell (w_next w)))
                    (exec (steps es)
                       (exec (Presence props
                          (render_list (VMotion tag cprops ckids :: rest))) w))
                  = VBool true).
    { unfold presence_value, read_presence, eval, gets. cbn [fst].
      by rewrite (pa_cell _ _ _ _ _ Ha2). }
    split; [exact Hpv|]. split.
    + intros el options parent.
      destruct (createAndBind_spec el options (Some (PCell (w_next w))) parent
                  (exec (steps es)
                     (exec (Presence props
                        (render_list (VMotion tag cprops ckids :: rest))) w)))
        as (_ & Hl & _).
      cbv zeta in Hl. rewrite Hl, Hpv. done.
    + intros tag2 cprops2 ckids2 rest2. cbn [step].
      by eapply source_insert_log.
Qed.

(** C5.  Construction of a binding, in any world.  If the presence flag
    is present and reads [false], the handle is created with the result
    of the options function in which [initial] is set to [false]
    (whatever it was) and every other option is unchanged.  Otherwise
    (no flag, or a flag that does not read [false]) the handle is
    created with the result of the options function as it is.  The
    override is made for the construction only: the update effect of the
    binding that was queued passes the result of the options function
    unchanged, in any world and whatever the flag reads then. *)
Theorem C5_initial_forced_off_at_construction (w : World) (el : El)
    (options : Accessor) (presence : option PresenceState)
    (parent : option StateId) :
  let s := w_next w in
  let o := options (w_store w) in
  let w1 := exec (createAndBindMotionState el options presence parent) w in
  (presence_value presence w = VBool false →
     w_log w1 = w_log w ++
       [CCreateMotionState s (<["initial" := VBool false]> o) parent]
     ∧ get (<["initial" := VBool false]> o) "initial" = VBool false
     ∧ ∀ k, k ≠ "initial" → get (<["initial" := VBool false]> o) k = get o k)
  ∧ (presence_value presence w ≠ VBool false →
     w_log w1 = w_log w ++ [CCreateMotionState s o parent])
  ∧ (presence = None → presence_value presence w = VUndefined)
  ∧ w_onmount w1 = w_onmount w ++ [mkBinding s el options presence]
  ∧ ∀ w2, w_log (exec (run_effect (mkBinding s el options presence)) w2)
          = w_log w2 ++ [CUpdate s (options (w_store w2))].
Proof.
  intros s o w1. subst s o w1.
  destruct (createAndBind_spec el options presence parent w) as (_ & Hl & _).
  cbv zeta in Hl. unfold construction_options in Hl.
  split; [|split; [|split; [|split]]].
  - intros Hf. rewrite Hf in Hl. split; [exact Hl|]. split.
    + unfold get. by rewrite lookup_insert_eq.
    + intros k Hk. unfold get. by rewrite lookup_insert_ne.
  - intros Hf. rewrite Hl.
    destruct (presence_value presence w) as [| |[|]| | |]; done.
  - by intros ->.
  - unfold createAndBindMotionState, read_presence.
    destruct presence as [[c|v]|]; by wsimpl.
  - intros w2. by wsimpl.
Qed.

(** A binder constructed while a constant flag reads [false]. *)
Lemma C5_initial_forced_off_at_construction_witness :
  presence_value (Some (PConst (VBool false))) empty_world = VBool false
  ∧ w_log (exec (createAndBindMotionState 7
                   (fun _ => {[ "initial" := VObj [("opacity", VNum 0)] ]})
                   (Some (PConst (VBool false))) None) empty_world)
    = [CCreateMotionState 0 {[ "initial" := VBool false ]} None].
Proof.
  assert (Hf : presence_value (Some (PConst (VBool false))) empty_world
               = VBool false) by reflexivity.
  split; [exact Hf|].
  destruct (C5_initial_forced_off_at_construction empty_world 7
              (fun _ => {[ "initial" := VObj [("opacity", VNum 0)] ]})
              (Some (PConst (VBool false))) None) as [Hforce _].
  destruct (Hforce Hf) as [Hlog _]. rewrite Hlog. reflexivity.
Defined.

(* ===================================================================== *)
(** ** Claim C7: the replacement does not wait for the exit *)
(* ===================================================================== *)

(** C7.  The code does not do what the claim and the documentation of
    [exitBeforeEnter] (line 15) say.  A [Presence] with [exitBeforeEnter]
    shows a mounted [Motion] element that has an [exit] target; the
    element is cleaned up, the children change to a new [Motion]
    element, and the runtime runs its batch.  The exit has started and
    has not completed: [setActive("exit", true)] was called on the old
    handle, no [motioncomplete] event was dispatched, neither [unmount]
    nor [remove] has run, and the switch, in out-in mode, still shows
    the old element and holds the new one back.  Yet [state.mount] and
    [update] have already been called on the handle of the replacement:
    the engine has started its entrance. *)
Example C7_replacement_enters_before_exit_completes :
  let w :=
    exec (steps [ERender (VPresence (fun _ => {[ "exitBeforeEnter" := VBool true ]})
                            [VMotion (Some "div") (fun _ => sample_exit_options) []]);
                 EFlush;
                 EDispose 2;
                 ESource 3 [VMotion (Some "span") (fun _ => ∅) []];
                 EFlush]) empty_world in
  w_switches w !! 3
    = Some (mkSwitch OutIn [1] (Some 4) true (Some 4)
              [EParent None; EPresence (PCell 0)])
  ∧ calls_on 2 (w_log w)
    = [CCreateMotionState 2 sample_exit_options None; CMount 2 1; CCreateEffect 2;
       CUpdate 2 sample_exit_options; CSetActive 2 "exit" true;
       CAddEventListener 1 "motioncomplete" (CbUnmount 2 1)]
  ∧ removes_of 3 1 (w_log w) = 0
  ∧ calls_on 5 (w_log w)
    = [CCreateMotionState 5 ∅ None; CMount 5 4; CCreateEffect 5; CUpdate 5 ∅].
Proof. vm_compute. repeat split. Qed.

(* ===================================================================== *)
(** ** Claims C8, C9 and C10: defaults, tags and the parent scope *)
(* ===================================================================== *)

(** C8.  The defaults of [Presence].  With no [initial] prop the flag
    starts [true]; it starts [false] only for the boolean [false]; with
    no [exitBeforeEnter] prop the mode is parallel.  In a rendered
    [Presence] these are the values in use: without [initial] the
    [Motion] child of the first render has its handle created with its
    options unchanged, and without [exitBeforeEnter] the switch is in
    parallel mode. *)
Theorem C8_presence_defaults (w : World) (props : Props) (tag : option string)
    (cprops : Props) (ckids rest : list View) :
  let p := props (w_store w) in
  let kids := VMotion tag cprops ckids :: rest in
  let w' := exec (render (VPresence props kids)) w in
  (p !! "initial" = None → Presence_initial p = true)
  ∧ (Presence_initial p = false ↔ get p "initial" = VBool false)
  ∧ (p !! "exitBeforeEnter" = None → Presence_mode p = Parallel)
  ∧ (p !! "initial" = None →
       ∃ l, w_log w' = w_log w ++
         CCreateMotionState (S (S (w_next w)))
           (pick OPTION_KEYS (motion_props tag cprops (w_store w))) None :: l)
  ∧ (p !! "exitBeforeEnter" = None →
       ∃ sw s, eval (render (VPresence props kids)) w = NSwitch sw
               ∧ w_switches w' !! sw = Some s ∧ sw_mode s = Parallel).
Proof.
  intros p kids w'. subst p kids w'. rewrite render_VPresence.
  change (fix go (l : list View) : M (list Node) := _) with render_list.
  assert (Hi : props (w_store w) !! "initial" = None →
               Presence_initial (props (w_store w)) = true).
  { intros H. unfold Presence_initial, get. by rewrite H. }
  assert (Hm : props (w_store w) !! "exitBeforeEnter" = None →
               Presence_mode (props (w_store w)) = Parallel).
  { intros H. unfold Presence_mode, get. by rewrite H. }
  split; [exact Hi|]. split; [|split; [exact Hm|split]].
  - unfold Presence_initial.
    destruct (get (props (w_store w)) "initial") as [| |[|]| | |]; simpl;
      split; congruence.
  - intros H. destruct (Presence_first_render props tag cprops ckids rest w)
      as [l Hl].
    exists l. rewrite Hl, (Hi H). done.
  - intros H.
    destruct (Presence_alive props
                (render_list (VMotion tag cprops ckids :: rest)) w
                (Ext_render_all _)) as (sw & Hev & Ha).
    destruct (pa_switch _ _ _ _ _ Ha) as (s & Hs & _ & Hmode).
    exists sw, s. rewrite Hmode, (Hm H). done.
Qed.

(** A [Presence] given no props at all. *)
Lemma C8_presence_defaults_witness :
  (∅ : Obj) !! "initial" = None
  ∧ Presence_initial ∅ = true
  ∧ Presence_mode ∅ = Parallel.
Proof.
  destruct (C8_presence_defaults empty_world (fun _ => ∅) None (fun _ => ∅) [] [])
    as (Hi & _ & Hm & _).
  split; [reflexivity|]. split; [apply Hi | apply Hm]; reflexivity.
Defined.

Lemma mergeProps_tag props tag st :
  get (mergeProps props (fun _ => {[ "tag" := VStr tag ]}) st) "tag" = VStr tag.
Proof.
  unfold get, mergeProps. rewrite lookup_union_with, lookup_singleton_eq.
  by destruct (props st !! "tag").
Qed.

Lemma mergeProps_other props tag st k :
  k ≠ "tag" →
  get (mergeProps props (fun _ => {[ "tag" := VStr tag ]}) st) k = get (props st) k.
Proof.
  intros Hk. unfold get, mergeProps.
  rewrite lookup_union_with, lookup_singleton_ne by done.
  by destruct (props st !! k).
Qed.

Lemma attrs_lookup_named props k :
  k ∈ OPTION_KEYS ++ ATTR_KEYS → attrs props !! k = None.
Proof.
  intros Hk. apply map_lookup_filter_None. right. intros v _ Hn. by apply Hn.
Qed.

Lemma attrs_lookup_other props k :
  k ∉ OPTION_KEYS ++ ATTR_KEYS → attrs props !! k = props !! k.
Proof.
  intros Hk. destruct (props !! k) as [v|] eqn:Hv.
  - by apply map_lookup_filter_Some.
  - apply map_lookup_filter_None. by left.
Qed.

Lemma Dynamic_props_lookup props k :
  Dynamic_props props !! k
  = union_with (fun a o => Some (if is_undefined a then o else a))
      (PValue <$> attrs props !! k) (own_props props !! k).
Proof. unfold Dynamic_props. by rewrite lookup_union_with, lookup_fmap. Qed.

Lemma Dynamic_props_own props k p :
  k ∉ OPTION_KEYS ++ ATTR_KEYS → own_props props !! k = Some p →
  Dynamic_props props !! k
  = Some (match defined props k with Some v => PValue v | None => p end).
Proof.
  intros Hk Ho. rewrite Dynamic_props_lookup, attrs_lookup_other, Ho by done.
  unfold defined. destruct (props !! k) as [[]|]; done.
Qed.

(** The component that [Dynamic] is given: [props.tag || "div"], unless
    the props hold a defined [component], which is merged last. *)
Lemma Dynamic_props_component props :
  Dynamic_props props !! "component"
  = Some (PValue (default (js_or (get props "tag") (VStr "div"))
                    (defined props "component"))).
Proof.
  rewrite (Dynamic_props_own _ _ (PValue (js_or (get props "tag") (VStr "div")))).
  - by destruct (defined props "component").
  - intros Hk. not_in_keys Hk.
  - done.
Qed.

Lemma MotionComponent_node props children w :
  ∃ kids, eval (MotionComponent props children) w
          = NElem (w_next w)
              (default (js_or (get (props (w_store w)) "tag") (VStr "div"))
                 (defined (props (w_store w)) "component"))
              kids.
Proof.
  unfold MotionComponent, createAndBindMotionState, read_presence, provide.
  unfold usePresenceContext, useParentContext.
  destruct (lookup_presence (w_ctx w)) as [[c|v]|] eqn:Hp;
    unfold eval, bind, gets, fresh, modify, ret, createMotionState, onMount, emit;
    simpl; rewrite Hp; simpl;
    match goal with |- context [children ?w0] => destruct (children w0) as [ns w'] end;
    unfold Dynamic; rewrite Dynamic_props_component; by eexists.
Qed.

Lemma defined_mergeProps_tag props tag st k :
  k ≠ "tag" →
  defined (mergeProps props (fun _ => {[ "tag" := VStr tag ]}) st) k
  = defined (props st) k.
Proof.
  intros Hk. unfold defined, mergeProps.
  rewrite lookup_union_with, lookup_singleton_ne by done.
  by destruct (props st !! k).
Qed.

(** C9, as stated, fails: [<Motion.span component="p">] renders a [p]
    element, not a [span], and [<Motion component="p">], which has no
    [tag], renders a [p] element, not a [div]. *)
Lemma C9_component_prop_replaces_tag :
  eval (Motion "span" (fun _ => {[ "component" := VStr "p" ]}) (ret [])) empty_world
  = NElem 0 (VStr "p") []
  ∧ eval (Motion "span" (fun _ => {[ "component" := VStr "p" ]}) (ret [])) empty_world
    ≠ NElem 0 (VStr "span") []
  ∧ eval (MotionComponent (fun _ => {[ "component" := VStr "p" ]}) (ret [])) empty_world
    = NElem 0 (VStr "p") []
  ∧ eval (MotionComponent (fun _ => {[ "component" := VStr "p" ]}) (ret [])) empty_world
    ≠ NElem 0 (VStr "div") [].
Proof. vm_compute. repeat split; discriminate. Qed.

(** C9, amended.  [Motion[tag]] is a component that calls
    [MotionComponent] with the given props in which [tag] is set to the
    property name, the other props unchanged.  The props that are
    neither options nor attributes are merged last into the props of
    [Dynamic] (line 171), so a defined [component] prop is the component
    that is rendered, whatever the tag.  When the props hold no defined
    [component], [MotionComponent] renders [props.tag] when that is
    truthy and ["div"] otherwise, so [Motion[tag]] renders a [tag]
    element for every non-empty name.  The component is a getter: what
    [Dynamic] is given at any later time follows the props of that
    time in the same way. *)
Theorem C9_motion_proxy_tag (tag : string) (props : Props)
    (children : M (list Node)) (w : World) :
  let p := props (w_store w) in
  Motion tag props children
    = MotionComponent (mergeProps props (fun _ => {[ "tag" := VStr tag ]})) children
  ∧ (∀ st, get (mergeProps props (fun _ => {[ "tag" := VStr tag ]}) st) "tag"
           = VStr tag)
  ∧ (∀ st k, k ≠ "tag" →
       get (mergeProps props (fun _ => {[ "tag" := VStr tag ]}) st) k
       = get (props st) k)
  ∧ (defined p "component" = None →
       (tag ≠ "" →
          ∃ kids, eval (Motion tag props children) w = NElem (w_next w) (VStr tag) kids)
       ∧ (truthy (get p "tag") = false →
            ∃ kids, eval (MotionComponent props children) w
                    = NElem (w_next w) (VStr "div") kids)
       ∧ (truthy (get p "tag") = true →
            ∃ kids, eval (MotionComponent props children) w
                    = NElem (w_next w) (get p "tag") kids))
  ∧ (∀ c, defined p "component" = Some c →
       (∃ kids, eval (Motion tag props children) w = NElem (w_next w) c kids)
       ∧ (∃ kids, eval (MotionComponent props children) w = NElem (w_next w) c kids))
  ∧ (∀ st, tag ≠ "" →
       Dynamic_props (mergeProps props (fun _ => {[ "tag" := VStr tag ]}) st)
         !! "component"
       = Some (PValue (default (VStr tag) (defined (props st) "component")))).
Proof.
  intros p. subst p.
  assert (Htag : tag ≠ "" →
            js_or (VStr tag) (VStr "div") = VStr tag).
  { intros Hne. unfold js_or. simpl. by destruct (String.eqb_spec tag ""). }
  split; [done|]. split; [intros st; apply mergeProps_tag|].
  split; [intros st k; apply mergeProps_other|].
  split; [|split].
  - intros Hd. split; [|split].
    + intros Hne. unfold Motion.
      destruct (MotionComponent_node
                  (mergeProps props (fun _ => {[ "tag" := VStr tag ]})) children w)
        as [kids Hk].
      exists kids.
      rewrite Hk, mergeProps_tag, defined_mergeProps_tag, Hd by done.
      simpl. by rewrite Htag.
    + intros Hf. destruct (MotionComponent_node props children w) as [kids Hk].
      exists kids. rewrite Hk, Hd. unfold js_or. by rewrite Hf.
    + intros Ht. destruct (MotionComponent_node props children w) as [kids Hk].
      exists kids. rewrite Hk, Hd. unfold js_or. by rewrite Ht.
  - intros c Hd. split.
    + unfold Motion.
      destruct (MotionComponent_node
                  (mergeProps props (fun _ => {[ "tag" := VStr tag ]})) children w)
        as [kids Hk].
      exists kids. by rewrite Hk, defined_mergeProps_tag, Hd.
    + destruct (MotionComponent_node props children w) as [kids Hk].
      exists kids. by rewrite Hk, Hd.
  - intros st Hne.
    by rewrite Dynamic_props_component, mergeProps_tag, defined_mergeProps_tag, Htag.
Qed.

(** [<Motion.span class="box">] and [<Motion class="box">]. *)
Lemma C9_motion_proxy_tag_witness :
  defined ({[ "class" := VStr "box" ]} : Obj) "component" = None
  ∧ "span" ≠ ""
  ∧ eval (Motion "span" (fun _ => {[ "class" := VStr "box" ]}) (ret [])) empty_world
    = NElem 0 (VStr "span") []
  ∧ eval (MotionComponent (fun _ => {[ "class" := VStr "box" ]}) (ret [])) empty_world
    = NElem 0 (VStr "div") [].
Proof.
  assert (Hd : defined ({[ "class" := VStr "box" ]} : Obj) "component" = None)
    by reflexivity.
  assert (Hne : "span" ≠ "") by discriminate.
  destruct (C9_motion_proxy_tag "span" (fun _ => {[ "class" := VStr "box" ]})
              (ret []) empty_world) as (_ & _ & _ & Hnone & _).
  destruct (Hnone Hd) as (Htag & Hdiv & _).
  split; [exact Hd|]. split; [exact Hne|]. split.
  - destruct (Htag Hne) as [kids Hk]. reflexivity.
  - destruct (Hdiv eq_refl) as [kids Hk]. reflexivity.
Defined.

(** The world in which [MotionComponent] renders its children. *)
Lemma MotionComponent_children_world props children w :
  ∃ w2 o,
    w_log w2 = w_log w ++
      [CCreateMotionState (S (w_next w)) o (lookup_parent (w_ctx w))]
    ∧ w_next w2 = S (S (w_next w))
    ∧ w_ctx w2 = EParent (Some (S (w_next w))) :: w_ctx w
    ∧ w_log (exec (MotionComponent props children) w) = w_log (exec children w2).
Proof.
  unfold MotionComponent, createAndBindMotionState, read_presence, provide.
  unfold usePresenceContext, useParentContext.
  destruct (lookup_presence (w_ctx w)) as [[c|v]|] eqn:Hp;
    unfold exec, bind, gets, fresh, modify, ret, createMotionState, onMount, emit;
    simpl; rewrite Hp; simpl;
    match goal with |- context [children ?w0] =>
      exists w0; eexists; destruct (children w0) as [ns w'] eqn:Hc end;
    simpl; repeat split.
Qed.

(** C10.  In any world, whatever the context chain holds:
    [createMotion] and the directive [motion] create their handle with
    no parent state; [MotionComponent] creates its handle with the value
    of the nearest [ParentContext] provider and is itself the provider
    for its children, so a [Motion] element directly inside another gets
    the outer handle as parent; and [Presence] provides [undefined], so a
    [Motion] element directly inside a [Presence] gets no parent. *)
Theorem C10_parent_scope (w : World) :
  (∀ target options presence,
     ∃ o, w_log (exec (createMotion target options presence) w)
          = w_log w ++ [CCreateMotionState (w_next w) o None])
  ∧ (∀ el props,
       ∃ o, w_log (exec (motion el props) w)
            = w_log w ++ [CCreateMotionState (w_next w) o None])
  ∧ (∀ tag props kids,
       ∃ o l, w_log (exec (render (VMotion tag props kids)) w)
              = w_log w ++
                CCreateMotionState (S (w_next w)) o (lookup_parent (w_ctx w)) :: l)
  ∧ (∀ s ctx, lookup_parent (EParent s :: ctx) = s
              ∧ ∀ p, lookup_parent (EPresence p :: ctx) = lookup_parent ctx)
  ∧ (∀ tag props tag2 props2 kids2 rest,
       ∃ o o2 l,
         w_log (exec (render (VMotion tag props
                                (VMotion tag2 props2 kids2 :: rest))) w)
         = w_log w ++
           CCreateMotionState (S (w_next w)) o (lookup_parent (w_ctx w))
           :: CCreateMotionState (S (S (S (w_next w)))) o2 (Some (S (w_next w)))
           :: l)
  ∧ (∀ props tag cprops ckids rest,
       ∃ o l,
         w_log (exec (render (VPresence props (VMotion tag cprops ckids :: rest))) w)
         = w_log w ++ CCreateMotionState (S (S (w_next w))) o None :: l).
Proof.
  split; [|split; [|split; [|split; [|split]]]].
  - intros target options presence. unfold createMotion.
    destruct (createAndBind_spec target
                (match options with OFun f => f | OStatic o => fun _ => o end)
                presence None w) as (_ & Hl & _).
    eexists. exact Hl.
  - intros el props. unfold motion.
    rewrite exec_bind. unfold usePresenceContext. rewrite exec_gets, eval_gets.
    rewrite exec_bind, exec_ret. unfold createMotion.
    destruct (createAndBind_spec el
                (match props with OFun f => f | OStatic o => fun _ => o end)
                (lookup_presence (w_ctx w)) None w) as (_ & Hl & _).
    eexists. exact Hl.
  - intros tag props kids. rewrite render_VMotion.
    destruct (MotionComponent_log (motion_props tag props) (render_list kids) w
                (Ext_render_all kids)) as [l Hl].
    eexists _, l. exact Hl.
  - by intros s ctx.
  - intros tag props tag2 props2 kids2 rest. rewrite render_VMotion.
    destruct (MotionComponent_children_world (motion_props tag props)
                (render_list (VMotion tag2 props2 kids2 :: rest)) w)
      as (w2 & o & Hlog & Hn & Hctx & Hl).
    destruct (render_list_Motion_first tag2 props2 kids2 rest w2) as [l Hl2].
    eexists o, _, l. rewrite Hl, Hl2, Hlog, Hn, Hctx, <- app_assoc. done.
  - intros props tag cprops ckids rest. rewrite render_VPresence.
    change (fix go (l : list View) : M (list Node) := _) with render_list.
    destruct (Presence_first_render props tag cprops ckids rest w) as [l Hl].
    eexists _, l. exact Hl.
Qed.

(** A [Motion] element holding a [Presence] that holds a [Motion]
    element: the inner handle has no parent. *)
Lemma C10_parent_scope_witness :
  w_log (exec (render (VMotion (Some "div") (fun _ => ∅)
                 [VPresence (fun _ => ∅) [VMotion (Some "span") (fun _ => ∅) []]]))
           empty_world)
  = [CCreateMotionState 1 ∅ None; CCreateMotionState 4 ∅ None]
  ∧ w_log (exec (render (VMotion (Some "div") (fun _ => ∅)
                   [VMotion (Some "span") (fun _ => ∅) []]))
             empty_world)
    = [CCreateMotionState 1 ∅ None; CCreateMotionState 3 ∅ (Some 1)].
Proof.
  destruct (C10_parent_scope empty_world) as (_ & _ & _ & _ & Hnested & Hpresence).
  destruct (Hnested (Some "div") (fun _ => ∅) (Some "span") (fun _ => ∅) [] [])
    as (o & o2 & l & Hl).
  split; reflexivity.
Defined.

(* ===================================================================== *)
(** ** Rendering creates one handle for each mount callback it queues *)
(* ===================================================================== *)

Lemma queues_same w w' :
  w_onmount w' = w_onmount w → w_log w' = w_log w → queues w w'.
Proof.
  intros Ho Hl. exists [], []. rewrite !app_nil_r. repeat split; [done..|constructor].
Qed.

Lemma queues_trans w1 w2 w3 : queues w1 w2 → queues w2 w3 → queues w1 w3.
Proof.
  intros (bs1 & l1 & O1 & L1 & C1) (bs2 & l2 & O2 & L2 & C2).
  exists (bs1 ++ bs2), (l1 ++ l2). rewrite O2, L2, O1, L1, <- !app_assoc.
  repeat split. by apply Forall2_app.
Qed.

Lemma Queues_ret {A} (a : A) : Queues (ret a).
Proof. intros w. by apply queues_same. Qed.

Lemma Queues_gets {A} (f : World → A) : Queues (gets f).
Proof. intros w. by apply queues_same. Qed.

Lemma Queues_bind {A B} (m : M A) (k : A → M B) :
  Queues m → (∀ a, Queues (k a)) → Queues (bind m k).
Proof.
  intros Hm Hk w. rewrite exec_bind. eapply queues_trans; [apply Hm | apply Hk].
Qed.

Lemma Queues_fresh : Queues fresh.
Proof. intros w. by apply queues_same. Qed.

Lemma Queues_provide {A} (e : CtxEntry) (m : M A) : Queues m → Queues (provide e m).
Proof.
  intros Hm w. rewrite exec_provide.
  destruct (Hm (set_ctx (fun c => e :: c) w)) as (bs & l & O & L & C).
  exists bs, l. by repeat split.
Qed.

Lemma Queues_createAndBindMotionState el options presence parent :
  Queues (createAndBindMotionState el options presence parent).
Proof.
  intros w.
  exists [mkBinding (w_next w) el options presence],
    [CCreateMotionState (w_next w)
       (construction_options (presence_value presence w) (options (w_store w)))
       parent].
  unfold createAndBindMotionState, presence_value, construction_options, read_presence.
  destruct presence as [[c|v]|]; wsimpl; repeat split;
    repeat constructor; simpl; eauto.
Qed.

Lemma Queues_createMotion target options presence :
  Queues (createMotion target options presence).
Proof. apply Queues_createAndBindMotionState. Qed.

Lemma Queues_motion el props : Queues (motion el props).
Proof.
  apply Queues_bind; [apply Queues_gets|]. intros p.
  apply Queues_bind; [apply Queues_createMotion|]. intros _. apply Queues_ret.
Qed.

Lemma Queues_MotionComponent props children :
  Queues children → Queues (MotionComponent props children).
Proof.
  intros Hc. unfold MotionComponent.
  apply Queues_bind; [apply Queues_fresh|]. intros root.
  apply Queues_bind; [apply Queues_gets|]. intros presence.
  apply Queues_bind; [apply Queues_gets|]. intros parent.
  apply Queues_bind; [apply Queues_createAndBindMotionState|]. intros state.
  apply Queues_provide.
  apply Queues_bind; [apply Queues_gets|]. intros p.
  apply Queues_bind; [apply Hc|]. intros kids. apply Queues_ret.
Qed.

(** Creating the switch for the first child touches nothing but the
    switch. *)
Lemma createSwitchTransition_only init appear mode w :
  only_switch (w_next w) (set_next S w)
    (exec (createSwitchTransition init appear mode) w).
Proof.
  unfold createSwitchTransition.
  rewrite !exec_bind, exec_gets, exec_modify, exec_ret. unfold eval at 1 2 3. simpl.
  eapply only_switch_trans; [|apply only_switch_source_first].
  - split; [done|]. intros k Hk. simpl. by rewrite lookup_insert_ne.
  - intros s. simpl. rewrite lookup_insert_eq. intros [= <-]. simpl.
    destruct appear; auto.
Qed.

Lemma Queues_createSwitchTransition init appear mode :
  Queues (createSwitchTransition init appear mode).
Proof.
  intros w. destruct (createSwitchTransition_only init appear mode w) as [E _].
  apply queues_same; by rewrite E.
Qed.

Lemma Queues_Presence props children :
  Queues children → Queues (Presence props children).
Proof.
  intros Hc. unfold Presence.
  apply Queues_bind; [apply Queues_gets|]. intros p.
  apply Queues_bind; [intros w; by apply queues_same|]. intros initial.
  apply Queues_bind; [|intros render].
  - apply Queues_provide, Queues_provide. unfold Presence_children, resolveFirst.
    apply Queues_bind; [|intros first].
    { apply Queues_bind; [apply Hc|]. intros ns. apply Queues_gets. }
    apply Queues_bind; [apply Queues_gets|]. intros appear.
    apply Queues_bind; [apply Queues_gets|]. intros p'.
    apply Queues_createSwitchTransition.
  - apply Queues_bind; [intros w; by apply queues_same|]. intros _.
    apply Queues_ret.
Qed.

Lemma Queues_render_list kids :
  Forall (fun v => Queues (render v)) kids → Queues (render_list kids).
Proof.
  induction 1 as [|k l Hk _ IH]; simpl; [apply Queues_ret|].
  apply Queues_bind; [exact Hk|]. intros n.
  apply Queues_bind; [exact IH|]. intros ns. apply Queues_ret.
Qed.

Lemma Queues_render v : Queues (render v).
Proof.
  induction v as [tag props kids IH|props kids IH|d kids IH] using View_ind';
    apply Queues_render_list in IH.
  - rewrite render_VMotion. by apply Queues_MotionComponent.
  - rewrite render_VPresence. by apply Queues_Presence.
  - rewrite render_VNative.
    apply Queues_bind; [apply Queues_fresh|]. intros el.
    apply Queues_bind; [destruct d; [apply Queues_motion | apply Queues_ret]|].
    intros _.
    apply Queues_bind; [exact IH|]. intros ns. apply Queues_ret.
Qed.

Lemma Queues_render_all kids : Queues (render_list kids).
Proof. apply Queues_render_list, Forall_forall. intros v _. apply Queues_render. Qed.

(* ===================================================================== *)
(** ** Every rendered element has its own handle *)
(* ===================================================================== *)

Lemma pairs_same w w' :
  w_next w ≤ w_next w' → w_onmount w' = w_onmount w → pairs w w'.
Proof. intros Hn Ho. split; [done|]. exists []. by rewrite app_nil_r. Qed.

Lemma pairs_trans w1 w2 w3 : pairs w1 w2 → pairs w2 w3 → pairs w1 w3.
Proof.
  intros (N1 & bs1 & O1 & F1) (N2 & bs2 & O2 & F2). split; [lia|].
  exists (bs1 ++ bs2). rewrite O2, O1, <- app_assoc. split; [done|].
  apply Forall_app. split; [done|].
  eapply Forall_impl; [exact F2|]. intros b [? ?]. split; [lia | done].
Qed.

Lemma Pairs_ret {A} (a : A) : Pairs (ret a).
Proof. intros w. by apply pairs_same. Qed.

Lemma Pairs_gets {A} (f : World → A) : Pairs (gets f).
Proof. intros w. by apply pairs_same. Qed.

Lemma Pairs_bind {A B} (m : M A) (k : A → M B) :
  Pairs m → (∀ a, Pairs (k a)) → Pairs (bind m k).
Proof.
  intros Hm Hk w. rewrite exec_bind. eapply pairs_trans; [apply Hm | apply Hk].
Qed.

Lemma Pairs_provide {A} (e : CtxEntry) (m : M A) : Pairs m → Pairs (provide e m).
Proof.
  intros Hm w. rewrite exec_provide.
  destruct (Hm (set_ctx (fun c => e :: c) w)) as (N & bs & O & F).
  split; [done|]. by exists bs.
Qed.

Lemma createAndBind_onmount el options presence parent w :
  w_onmount (exec (createAndBindMotionState el options presence parent) w)
  = w_onmount w ++ [mkBinding (w_next w) el options presence]
  ∧ w_next (exec (createAndBindMotionState el options presence parent) w)
    = S (w_next w).
Proof.
  unfold createAndBindMotionState, read_presence.
  destruct presence as [[c|v]|]; by wsimpl.
Qed.

(** The binder is called for the element created last. *)
Lemma pairs_createAndBind options presence parent w :
  pairs w (exec (createAndBindMotionState (w_next w) options presence parent)
             (exec fresh w)).
Proof.
  destruct (createAndBind_onmount (w_next w) options presence parent (exec fresh w))
    as [O N].
  split; [rewrite N; simpl; lia|].
  eexists. split; [exact O|]. by repeat constructor.
Qed.

Lemma Pairs_MotionComponent props children :
  Pairs children → Pairs (MotionComponent props children).
Proof.
  intros Hc w. unfold MotionComponent.
  rewrite !exec_bind. unfold usePresenceContext, useParentContext.
  rewrite !exec_gets, !eval_gets.
  change (eval fresh w) with (w_next w).
  eapply pairs_trans; [apply pairs_createAndBind|].
  apply Pairs_provide.
  apply Pairs_bind; [apply Pairs_gets|]. intros p.
  apply Pairs_bind; [apply Hc|]. intros kids. apply Pairs_ret.
Qed.

Lemma Pairs_createSwitchTransition init appear mode :
  Pairs (createSwitchTransition init appear mode).
Proof.
  intros w. destruct (createSwitchTransition_only init appear mode w) as [E _].
  apply pairs_same; rewrite E; simpl; [lia | done].
Qed.

Lemma Pairs_Presence props children :
  Pairs children → Pairs (Presence props children).
Proof.
  intros Hc. unfold Presence.
  apply Pairs_bind; [apply Pairs_gets|]. intros p.
  apply Pairs_bind; [intros w; apply pairs_same; simpl; [lia | done]|].
  intros initial.
  apply Pairs_bind; [|intros render].
  - apply Pairs_provide, Pairs_provide. unfold Presence_children, resolveFirst.
    apply Pairs_bind; [|intros first].
    { apply Pairs_bind; [apply Hc|]. intros ns. apply Pairs_gets. }
    apply Pairs_bind; [apply Pairs_gets|]. intros appear.
    apply Pairs_bind; [apply Pairs_gets|]. intros p'.
    apply Pairs_createSwitchTransition.
  - apply Pairs_bind; [intros w; by apply pairs_same|]. intros _.
    apply Pairs_ret.
Qed.

Lemma Pairs_render_list kids :
  Forall (fun v => Pairs (render v)) kids → Pairs (render_list kids).
Proof.
  induction 1 as [|k l Hk _ IH]; simpl; [apply Pairs_ret|].
  apply Pairs_bind; [exact Hk|]. intros n.
  apply Pairs_bind; [exact IH|]. intros ns. apply Pairs_ret.
Qed.

Lemma Pairs_render v : Pairs (render v).
Proof.
  induction v as [tag props kids IH|props kids IH|d kids IH] using View_ind';
    apply Pairs_render_list in IH.
  - rewrite render_VMotion. by apply Pairs_MotionComponent.
  - rewrite render_VPresence. by apply Pairs_Presence.
  - rewrite render_VNative. intros w. rewrite !exec_bind, exec_ret.
    change (eval fresh w) with (w_next w).
    eapply pairs_trans; [|apply IH].
    destruct d as [opts|]; [|apply pairs_same; simpl; [lia | done]].
    unfold motion, usePresenceContext, createMotion.
    rewrite !exec_bind, exec_gets, eval_gets, exec_ret.
    apply pairs_createAndBind.
Qed.

(** Counting the mount callbacks that rendering queues. *)
Lemma Counts_ret {A} (a : A) : Counts 0 (ret a).
Proof. intros w. rewrite exec_ret. lia. Qed.

Lemma Counts_gets {A} (f : World → A) : Counts 0 (gets f).
Proof. intros w. rewrite exec_gets. lia. Qed.

Lemma Counts_bind {A B} n1 n2 (m : M A) (k : A → M B) :
  Counts n1 m → (∀ a, Counts n2 (k a)) → Counts (n1 + n2) (bind m k).
Proof. intros Hm Hk w. rewrite exec_bind, Hk, Hm. lia. Qed.

Lemma Counts_same {A} (m : M A) :
  (∀ w, w_onmount (exec m w) = w_onmount w) → Counts 0 m.
Proof. intros H w. rewrite H. lia. Qed.

Lemma Counts_provide {A} n (e : CtxEntry) (m : M A) :
  Counts n m → Counts n (provide e m).
Proof.
  intros Hm w. rewrite exec_provide. simpl.
  apply (Hm (set_ctx (fun c => e :: c) w)).
Qed.

Lemma Counts_createAndBindMotionState el options presence parent :
  Counts 1 (createAndBindMotionState el options presence parent).
Proof.
  intros w. destruct (createAndBind_onmount el options presence parent w) as [-> _].
  by rewrite length_app.
Qed.

Lemma Counts_motion el props : Counts 1 (motion el props).
Proof.
  unfold motion, createMotion.
  apply (Counts_bind 0 1); [apply Counts_gets|]. intros p.
  apply (Counts_bind 1 0); [apply Counts_createAndBindMotionState|]. intros _.
  apply Counts_ret.
Qed.

Lemma Counts_MotionComponent n props children :
  Counts n children → Counts (S n) (MotionComponent props children).
Proof.
  intros Hc. unfold MotionComponent.
  apply (Counts_bind 0 (S n)); [by apply Counts_same|]. intros root.
  apply (Counts_bind 0 (S n)); [apply Counts_gets|]. intros presence.
  apply (Counts_bind 0 (S n)); [apply Counts_gets|]. intros parent.
  apply (Counts_bind 1 n); [apply Counts_createAndBindMotionState|]. intros state.
  apply Counts_provide.
  apply (Counts_bind 0 n); [apply Counts_gets|]. intros p.
  rewrite <- (Nat.add_0_r n).
  apply Counts_bind; [apply Hc|]. intros kids. apply Counts_ret.
Qed.

Lemma Counts_createSwitchTransition init appear mode :
  Counts 0 (createSwitchTransition init appear mode).
Proof.
  apply Counts_same. intros w.
  destruct (createSwitchTransition_only init appear mode w) as [E _]. by rewrite E.
Qed.

Lemma Counts_Presence_children n props children initial :
  Counts n children → Counts n (Presence_children props children initial).
Proof.
  intros Hc. unfold Presence_children, resolveFirst.
  rewrite <- (Nat.add_0_r n).
  apply Counts_bind; [|intros first].
  { rewrite <- (Nat.add_0_r n).
    apply Counts_bind; [apply Hc|]. intros ns. apply Counts_gets. }
  apply (Counts_bind 0 0); [apply Counts_gets|]. intros appear.
  apply (Counts_bind 0 0); [apply Counts_gets|]. intros p.
  apply Counts_createSwitchTransition.
Qed.

Lemma Counts_Presence n props children :
  Counts n children → Counts n (Presence props children).
Proof.
  intros Hc. unfold Presence.
  apply (Counts_bind 0 n); [apply Counts_gets|]. intros p.
  apply (Counts_bind 0 n); [by apply Counts_same|]. intros initial.
  rewrite <- (Nat.add_0_r n).
  apply Counts_bind; [|intros render].
  - by apply Counts_provide, Counts_provide, Counts_Presence_children.
  - apply (Counts_bind 0 0); [by apply Counts_same|]. intros _. apply Counts_ret.
Qed.

Lemma Counts_render_list kids :
  Forall (fun v => Counts (bindings_in v) (render v)) kids →
  Counts (list_sum (map bindings_in kids)) (render_list kids).
Proof.
  induction 1 as [|k l Hk _ IH]; simpl; [apply Counts_ret|].
  apply Counts_bind; [exact Hk|]. intros n.
  rewrite <- (Nat.add_0_r (list_sum _)).
  apply Counts_bind; [exact IH|]. intros ns. apply Counts_ret.
Qed.

Lemma Counts_render v : Counts (bindings_in v) (render v).
Proof.
  induction v as [tag props kids IH|props kids IH|d kids IH] using View_ind';
    apply Counts_render_list in IH; cbn [bindings_in].
  - rewrite render_VMotion. by apply Counts_MotionComponent.
  - rewrite render_VPresence. by apply Counts_Presence.
  - rewrite render_VNative.
    replace (match d with
             | Some _ => S (list_sum (map bindings_in kids))
             | None => list_sum (map bindings_in kids)
             end)
      with (0 + ((match d with Some _ => 1 | None => 0 end)
                 + (list_sum (map bindings_in kids) + 0)))
      by (destruct d; simpl; lia).
    apply Counts_bind; [by apply Counts_same|]. intros el.
    apply Counts_bind; [destruct d; [apply Counts_motion | apply Counts_ret]|].
    intros _.
    apply Counts_bind; [exact IH|]. intros ns. apply Counts_ret.
Qed.

(** The binding of a [Motion] element is the first that its rendering
    queues, and it is bound to the element that is rendered. *)
Lemma MotionComponent_first props children w :
  Ext children →
  ∃ bs, w_onmount (exec (MotionComponent props children) w)
        = w_onmount w
          ++ mkBinding (S (w_next w)) (w_next w)
               (fun st => pick OPTION_KEYS (props st)) (lookup_presence (w_ctx w))
          :: bs.
Proof.
  intros Hc. unfold MotionComponent.
  rewrite !exec_bind. unfold usePresenceContext, useParentContext.
  rewrite !exec_gets, !eval_gets.
  set (w1 := exec fresh w).
  change (eval fresh w) with (w_next w).
  change (w_ctx w1) with (w_ctx w).
  destruct (createAndBind_onmount (w_next w) (fun st => pick OPTION_KEYS (props st))
              (lookup_presence (w_ctx w)) (lookup_parent (w_ctx w)) w1) as [O N].
  destruct (createAndBind_spec (w_next w) (fun st => pick OPTION_KEYS (props st))
              (lookup_presence (w_ctx w)) (lookup_parent (w_ctx w)) w1)
    as (Hev & _). cbv zeta in Hev. rewrite Hev.
  set (w2 := exec (createAndBindMotionState _ _ _ _) w1) in *.
  match goal with |- context [exec (provide ?e ?m) w2] =>
    assert (Hext : extends w2 (exec (provide e m) w2)) end.
  { apply Ext_provide.
    apply Ext_bind; [apply Ext_gets|]. intros p.
    apply Ext_bind; [apply Hc|]. intros kids. apply Ext_ret. }
  destruct (ext_onmount _ _ Hext) as (bs & -> & _).
  exists bs. rewrite O, <- app_assoc. done.
Qed.

Lemma directive_first opts kids w :
  let f := match opts with OFun f => f | OStatic o => fun _ => o end in
  (∃ bs, w_onmount (exec (render (VNative (Some opts) kids)) w)
         = w_onmount w
           ++ mkBinding (S (w_next w)) (w_next w) f (lookup_presence (w_ctx w)) :: bs)
  ∧ ∃ ns, eval (render (VNative (Some opts) kids)) w
          = NElem (w_next w) (VStr "div") ns.
Proof.
  cbv zeta. rewrite render_VNative. split.
  - rewrite !exec_bind, exec_ret.
    change (eval fresh w) with (w_next w).
    set (w1 := exec fresh w).
    unfold motion, usePresenceContext, createMotion.
    rewrite !exec_bind, exec_gets, eval_gets, exec_ret.
    change (w_ctx w1) with (w_ctx w).
    destruct (createAndBind_onmount (w_next w)
                (match opts with OFun f => f | OStatic o => fun _ => o end)
                (lookup_presence (w_ctx w)) None w1) as [O N].
    set (w2 := exec (createAndBindMotionState _ _ _ _) w1) in *.
    destruct (ext_onmount _ _ (Ext_render_all kids w2)) as (bs & -> & _).
    exists bs. by rewrite O, <- app_assoc.
  - unfold eval, bind, ret, fresh. simpl.
    destruct (motion _ _ _) as [u w2].
    destruct (render_list kids w2) as [ns w3]. by exists ns.
Qed.

(** X3.  Rendering a view, whatever it holds, queues one mount callback
    for each binding of the view (one for each [Motion] element and one
    for each [use:motion] directive, at any depth) and calls
    [createMotionState] once for each, in the same order; it makes no
    other call, mounts nothing and registers no cleanup, effect or
    listener.  The handles are new and pairwise distinct, and so are the
    elements they are bound to.  The first binding of a [Motion] element
    or of an element with the directive is bound to the very element
    that is rendered. *)
Theorem render_creates_one_handle_per_binding (v : View) (w : World) :
  let w' := exec (render v) w in
  ∃ bs l, w_onmount w' = w_onmount w ++ bs
          ∧ w_log w' = w_log w ++ l
          ∧ length bs = bindings_in v
          ∧ Forall2 (fun b c => ∃ o p, c = CCreateMotionState (b_state b) o p) bs l
          ∧ Forall (fun b => w_next w ≤ b_el b ∧ b_state b = S (b_el b)
                             ∧ b_state b < w_next w') bs
          ∧ NoDup (map b_state bs)
          ∧ NoDup (map b_el bs)
          ∧ w_mounted w' = w_mounted w
          ∧ w_cleanups w' = w_cleanups w
          ∧ w_effects w' = w_effects w
          ∧ w_listeners w' = w_listeners w
          ∧ (∀ tag props kids, v = VMotion tag props kids →
               ∃ c ns rest,
                 eval (render v) w = NElem (w_next w) c ns
                 ∧ bs = mkBinding (S (w_next w)) (w_next w)
                          (fun st => pick OPTION_KEYS (motion_props tag props st))
                          (lookup_presence (w_ctx w)) :: rest)
          ∧ (∀ opts kids, v = VNative (Some opts) kids →
               ∃ ns rest,
                 eval (render v) w = NElem (w_next w) (VStr "div") ns
                 ∧ bs = mkBinding (S (w_next w)) (w_next w)
                          (match opts with OFun f => f | OStatic o => fun _ => o end)
                          (lookup_presence (w_ctx w)) :: rest).
Proof.
  cbv zeta.
  destruct (Queues_render v w) as (bs & l & O & L & Hcr).
  pose proof (Ext_render v w) as Hext.
  destruct (ext_onmount _ _ Hext) as (bs' & O' & G & D).
  rewrite O in O'. apply app_inv_head in O'. subst bs'.
  destruct (Pairs_render v w) as (_ & bs' & O' & P).
  rewrite O in O'. apply app_inv_head in O'. subst bs'.
  exists bs, l.
  split; [exact O|]. split; [exact L|]. split.
  { pose proof (Counts_render v w) as Hn. rewrite O, length_app in Hn. lia. }
  split; [exact Hcr|]. split.
  { rewrite Forall_forall in G, P. apply Forall_forall. intros b Hb.
    specialize (G b Hb). specialize (P b Hb). simpl in G. lia. }
  split; [exact D|]. split.
  { assert (Heq : map b_state bs = S <$> map b_el bs).
    { rewrite <- list_fmap_compose. apply list_fmap_ext.
      intros i b Hb. apply list_elem_of_lookup_2 in Hb.
      rewrite Forall_forall in P. by apply P. }
    rewrite Heq in D. by apply NoDup_fmap in D; [|apply _]. }
  split; [apply Hext|]. split; [apply Hext|]. split; [apply Hext|].
  split; [apply Hext|]. split.
  - intros tag props kids ->. rewrite render_VMotion in *.
    destruct (MotionComponent_node (motion_props tag props) (render_list kids) w)
      as [ns Hns].
    destruct (MotionComponent_first (motion_props tag props) (render_list kids) w
                (Ext_render_all kids)) as [rest Hrest].
    rewrite O in Hrest. apply app_inv_head in Hrest.
    eexists _, ns, rest. by split.
  - intros opts kids ->.
    destruct (directive_first opts kids w) as [[rest Hrest] [ns Hns]].
    cbv zeta in Hrest. rewrite O in Hrest. apply app_inv_head in Hrest.
    by exists ns, rest.
Qed.

(* ===================================================================== *)
(** ** Every handle follows the life cycle *)
(* ===================================================================== *)

Lemma calls_on_app s l1 l2 : calls_on s (l1 ++ l2) = calls_on s l1 ++ calls_on s l2.
Proof. apply filter_app. Qed.

Lemma run_app p l1 l2 :
  run p (l1 ++ l2) = match run p l1 with Some p' => run p' l2 | None => None end.
Proof.
  revert p. induction l1 as [|c l1 IH]; intros p; simpl; [done|].
  destruct (advance p c); [apply IH | done].
Qed.

Lemma calls_on_none s l :
  Forall (fun c => call_state c ≠ Some s) l → calls_on s l = [].
Proof.
  induction 1 as [|c l Hc _ IH]; [done|].
  unfold calls_on. rewrite filter_cons_False; done.
Qed.

Lemma calls_on_all s l :
  Forall (fun c => call_state c = Some s) l → calls_on s l = l.
Proof.
  induction 1 as [|c l Hc _ IH]; [done|].
  unfold calls_on. rewrite filter_cons_True by done. f_equal. exact IH.
Qed.

Lemma calls_on_bounded n s l : Forall (bounded n) l → n ≤ s → calls_on s l = [].
Proof.
  intros Hb Hn. apply calls_on_none. eapply Forall_impl; [exact Hb|].
  intros c Hc Heq. unfold bounded in Hc. rewrite Heq in Hc. lia.
Qed.

Lemma calls_on_creates_other s bs l :
  creates bs l → s ∉ map b_state bs → calls_on s l = [].
Proof.
  induction 1 as [|b c bs l (o & p & ->) _ IH]; [done|].
  intros Hs. apply not_elem_of_cons in Hs as [Hne Hs].
  unfold calls_on. rewrite filter_cons_False; [by apply IH|].
  simpl. congruence.
Qed.

Lemma calls_on_creates s bs l :
  creates bs l → NoDup (map b_state bs) → s ∈ map b_state bs →
  ∃ o p, calls_on s l = [CCreateMotionState s o p].
Proof.
  induction 1 as [|b c bs l (o & p & ->) Hcr IH]; simpl; intros Hn Hs.
  - by apply elem_of_nil in Hs.
  - apply NoDup_cons in Hn as [Hnot Hn]. unfold calls_on.
    apply elem_of_cons in Hs as [->|Hs].
    + rewrite filter_cons_True by done. exists o, p. f_equal.
      by eapply calls_on_creates_other.
    + rewrite filter_cons_False; [by apply IH|].
      simpl. intros [= Heq]. congruence.
Qed.

Lemma calls_on_traces_other s (f : Binding → list Call) bs :
  (∀ b, Forall (fun c => call_state c = Some (b_state b)) (f b)) →
  s ∉ map b_state bs → calls_on s (concat (map f bs)) = [].
Proof.
  intros Hf. induction bs as [|b bs IH]; simpl; intros Hs; [done|].
  apply not_elem_of_cons in Hs as [Hne Hs].
  rewrite calls_on_app, IH, app_nil_r by done.
  apply calls_on_none. eapply Forall_impl; [apply Hf|].
  simpl. intros c -> [= Heq]. congruence.
Qed.

Lemma calls_on_traces (f : Binding → list Call) bs b :
  (∀ b, Forall (fun c => call_state c = Some (b_state b)) (f b)) →
  NoDup (map b_state bs) → b ∈ bs →
  calls_on (b_state b) (concat (map f bs)) = f b.
Proof.
  intros Hf. induction bs as [|a bs IH]; simpl; intros Hn Hb.
  - by apply elem_of_nil in Hb.
  - apply NoDup_cons in Hn as [Hnot Hn]. rewrite calls_on_app.
    apply elem_of_cons in Hb as [->|Hb].
    + rewrite calls_on_all by apply Hf.
      rewrite (calls_on_traces_other _ f) by done. apply app_nil_r.
    + rewrite IH by done.
      rewrite calls_on_none; [done|].
      eapply Forall_impl; [apply Hf|]. simpl. intros c -> [= Heq].
      apply Hnot. rewrite Heq. apply list_elem_of_fmap. eauto.
Qed.

Lemma mount_trace_on b :
  Forall (fun c => call_state c = Some (b_state b)) (mount_trace b).
Proof. repeat constructor. Qed.

Lemma cleanup_trace_on st b :
  Forall (fun c => call_state c = Some (b_state b)) (cleanup_trace st b).
Proof. unfold cleanup_trace. destruct (defers st b); repeat constructor. Qed.

Lemma run_mount_trace b :
  run Created (mount_trace b) = Some (Wiring (b_el b)).
Proof. done. Qed.

(** The cleanup of a binding that is mounted, whether or not its effect
    has run. *)
Lemma run_cleanup_trace st b p :
  p = Wiring (b_el b) ∨ p = Live (b_el b) →
  run p (cleanup_trace st b)
  = Some (if defers st b then ExitPending (b_el b) else Detached).
Proof.
  unfold cleanup_trace.
  intros [-> | ->]; destruct (defers st b); simpl; try done;
    by rewrite !bool_decide_eq_true_2.
Qed.

(** Runs of the effect: after the first the handle is [Live]. *)
Lemma run_updates el st (bs : list Binding) p :
  p = Wiring el ∨ p = Live el →
  run p (map (first_update st) bs)
  = Some (match bs with [] => p | _ :: _ => Live el end).
Proof.
  intros Hp. destruct bs as [|b bs]; [done|].
  assert (Hl : ∀ l : list Binding,
            run (Live el) (map (first_update st) l) = Some (Live el)).
  { induction l; simpl; done. }
  destruct Hp as [-> | ->]; simpl; apply Hl.
Qed.

Lemma calls_on_updates s st (bs : list Binding) :
  calls_on s (map (first_update st) bs)
  = map (first_update st) (filter (fun b => b_state b = s) bs).
Proof.
  induction bs as [|b bs IH]; [done|]. simpl. unfold calls_on in *.
  rewrite (filter_cons (fun b => b_state b = s)).
  destruct (decide (b_state b = s)) as [Hs|Hs].
  - rewrite filter_cons_True by (simpl; congruence). simpl. by rewrite IH.
  - rewrite filter_cons_False by (simpl; congruence). exact IH.
Qed.

(** The calls that a dispatch makes on [s]: one [unmount] for each of
    its listeners on the element. *)
Lemma run_unmounts s (ls : list (El * Callback)) p :
  (∀ el e, (el, CbUnmount s e) ∈ ls → p = ExitPending e ∨ p = Completed e) →
  ∃ p', run p (calls_on s (map (fun l => invoke_call l.2) ls)) = Some p'
        ∧ (p' = p ∨ ∃ e, p' = Completed e ∧ (p = ExitPending e ∨ p = Completed e)).
Proof.
  revert p. induction ls as [|[el cb] ls IH]; intros p Hp; simpl.
  - exists p. by split; [|left].
  - unfold calls_on. destruct cb as [s' e|sw e after]; simpl.
    + destruct (decide (s' = s)) as [->|Hne].
      * rewrite filter_cons_True by done. simpl.
        assert (Hpe : p = ExitPending e ∨ p = Completed e).
        { apply (Hp el). apply list_elem_of_here. }
        destruct (IH (Completed e)) as (p' & Hrun & Hp').
        { intros el' e' Hin.
          destruct (Hp el' e') as [H1|H1]; [by apply list_elem_of_further|..];
            destruct Hpe as [H2|H2]; simplify_eq; auto. }
        exists p'. split.
        { destruct Hpe as [->| ->]; exact Hrun. }
        right. destruct Hp' as [->|(e' & -> & [H1|H1])]; [eauto|done|].
        injection H1 as <-. eauto.
      * rewrite filter_cons_False by (simpl; congruence).
        apply IH. intros el' e' Hin. apply (Hp el'). by apply list_elem_of_further.
    + rewrite filter_cons_False by done.
      apply IH. intros el' e' Hin. apply (Hp el'). by apply list_elem_of_further.
Qed.

Lemma lifecycle_empty : lifecycle empty_world.
Proof.
  intros s. exists Absent. split; simpl; [done|..]; intros; by apply elem_of_nil in H.
Qed.

(** A step that records no call on [s] and moves no binding of [s]. *)
Lemma lifecycle_at_frame s p w w' l :
  lifecycle_at s w p →
  w_log w' = w_log w ++ l → calls_on s l = [] →
  (∀ b, b ∈ w_onmount w' → b_state b = s → b ∈ w_onmount w) →
  (∀ b, b ∈ w_cleanups w' → b_state b = s → b ∈ w_cleanups w) →
  (∀ el e, (el, CbUnmount s e) ∈ w_listeners w' → (el, CbUnmount s e) ∈ w_listeners w) →
  lifecycle_at s w' p.
Proof.
  intros [Hr Hq Hl He] L Hc O C Li. split.
  - by rewrite L, calls_on_app, Hc, app_nil_r.
  - intros b Hb Hs. eapply Hq; [by apply O | done].
  - intros b Hb Hs. eapply Hl; [by apply C | done].
  - intros el e Hin. eapply He. by apply Li.
Qed.

Lemma lifecycle_queues w w' :
  wf w → lifecycle w → extends w w' → queues w w' → lifecycle w'.
Proof.
  intros Hw Hlc Hext (bs & l & O & L & Hcr) s.
  destruct (ext_onmount _ _ Hext) as (bs' & O' & G & D).
  rewrite O in O'. apply app_inv_head in O'. subst bs'.
  rewrite Forall_forall in G.
  destruct (Hlc s) as [p Hp].
  destruct (decide (s ∈ map b_state bs)) as [Hin|Hnot].
  - destruct (calls_on_creates s bs l Hcr D Hin) as (o & q & Hc).
    apply list_elem_of_fmap in Hin as (b0 & Hs0 & Hb0).
    pose proof (G _ Hb0) as Hge. simpl in Hge.
    assert (Hnil : calls_on s (w_log w) = []).
    { apply (calls_on_bounded (w_next w)); [apply (wf_log _ Hw) | lia]. }
    exists Created. split.
    + by rewrite L, calls_on_app, Hnil, Hc.
    + done.
    + rewrite (ext_cleanups _ _ Hext). intros b Hb Hs.
      pose proof (wf_bound _ Hw) as Hbd. rewrite Forall_forall in Hbd.
      specialize (Hbd b). simpl in Hbd.
      assert (b_state b < w_next w) by (apply Hbd, elem_of_app; by left). lia.
    + rewrite (ext_listeners _ _ Hext). intros el e Hl.
      pose proof (wf_listeners _ Hw) as Hli. rewrite Forall_forall in Hli.
      specialize (Hli _ Hl). simpl in Hli. lia.
  - exists p. eapply lifecycle_at_frame; [exact Hp | exact L | ..].
    + by eapply calls_on_creates_other.
    + rewrite O. intros b Hb Hs. apply elem_of_app in Hb as [Hb|Hb]; [done|].
      exfalso. apply Hnot. apply list_elem_of_fmap. eauto.
    + by rewrite (ext_cleanups _ _ Hext).
    + by rewrite (ext_listeners _ _ Hext).
Qed.

Lemma lifecycle_quiet_switch w w' :
  lifecycle w → quiet (fun c => switch_call c) w w' → lifecycle w'.
Proof.
  intros Hlc Hq s. destruct (Hlc s) as [p Hp]. exists p.
  destruct (q_log _ _ _ Hq) as (l & L & F).
  destruct (q_listeners _ _ _ Hq) as (ls & Li & G).
  eapply lifecycle_at_frame; [exact Hp | exact L | ..].
  - apply calls_on_none. eapply Forall_impl; [exact F|].
    intros [| | | | | ? ? [|] | |]; simpl; done.
  - by rewrite (q_onmount _ _ _ Hq).
  - by rewrite (q_cleanups _ _ _ Hq).
  - rewrite Li. intros el e Hin. apply elem_of_app in Hin as [Hin|Hin]; [done|].
    rewrite Forall_forall in G. by specialize (G _ Hin).
Qed.

(** The mount callbacks take the handles of the queued bindings from
    [Created] to [Wiring]. *)
Lemma lifecycle_mounts w : wf w → lifecycle w → lifecycle (exec run_mounts w).
Proof.
  intros Hw Hlc s.
  destruct (run_mounts_spec w) as (_ & L & O & C & E & Li & _). cbv zeta in *.
  pose proof (wf_nodup _ Hw) as Hn. rewrite map_app in Hn.
  apply NoDup_app in Hn as (Hn1 & Hdis & Hn2).
  destruct (Hlc s) as [p Hp].
  destruct (decide (s ∈ map b_state (w_onmount w))) as [Hin|Hnot].
  - apply list_elem_of_fmap in Hin as (b & -> & Hb).
    pose proof (lc_queued _ _ _ Hp b Hb eq_refl) as ->.
    exists (Wiring (b_el b)). split.
    + rewrite L, calls_on_app, run_app, (lc_run _ _ _ Hp).
      rewrite (calls_on_traces mount_trace); try done.
      intros b'. apply mount_trace_on.
    + rewrite O. intros b' Hb'. by apply elem_of_nil in Hb'.
    + rewrite C. intros b' Hb' Hs. apply elem_of_app in Hb' as [Hb'|Hb'].
      * exfalso. apply (Hdis (b_state b)); apply list_elem_of_fmap; eauto.
      * assert (filter (fun x => b_state x = b_state b) (w_onmount w) = [b]) as Hf1
          by by apply filter_unique.
        assert (b' ∈ filter (fun x => b_state x = b_state b) (w_onmount w)) as Hf2
          by by apply list_elem_of_filter.
        rewrite Hf1 in Hf2. apply list_elem_of_singleton in Hf2. subst. by left.
    + rewrite Li. intros el e Hl.
      pose proof (wf_listeners _ Hw) as Hli. rewrite Forall_forall in Hli.
      specialize (Hli _ Hl). simpl in Hli. destruct Hli as (_ & _ & Hnot).
      exfalso. apply Hnot. rewrite map_app. apply elem_of_app. right.
      apply list_elem_of_fmap. eauto.
  - exists p. eapply lifecycle_at_frame; [exact Hp | exact L | ..].
    + apply calls_on_traces_other; [intros b; apply mount_trace_on | done].
    + rewrite O. intros b Hb. by apply elem_of_nil in Hb.
    + rewrite C. intros b Hb Hs. apply elem_of_app in Hb as [Hb|Hb]; [done|].
      exfalso. apply Hnot. apply list_elem_of_fmap. eauto.
    + by rewrite Li.
Qed.

(** Runs of the effects of mounted bindings: the handles of these
    bindings are [Live] afterwards, the others stay where they are. *)
Lemma lifecycle_run_effects bs w s :
  lifecycle w → Forall (fun b => b ∈ w_cleanups w) bs →
  ∃ p, lifecycle_at s (exec (for_each bs run_effect) w) p
       ∧ ∀ b, b ∈ bs → b_state b = s → p = Live (b_el b).
Proof.
  intros Hlc Hbs.
  destruct (run_effects_spec bs w) as (_ & L & O & C & E & Li). cbv zeta in *.
  rewrite Forall_forall in Hbs.
  destruct (Hlc s) as [p Hp].
  destruct (filter (fun b => b_state b = s) bs) as [|b0 bs0] eqn:Hf.
  - exists p. split.
    + eapply lifecycle_at_frame; [exact Hp | exact L | ..].
      * by rewrite calls_on_updates, Hf.
      * by rewrite O.
      * by rewrite C.
      * by rewrite Li.
    + intros b Hb Hs.
      assert (Hin : b ∈ filter (fun b => b_state b = s) bs)
        by by apply list_elem_of_filter.
      rewrite Hf in Hin. by apply elem_of_nil in Hin.
  - assert (Hb0 : b0 ∈ filter (fun b => b_state b = s) bs)
      by (rewrite Hf; apply list_elem_of_here).
    apply list_elem_of_filter in Hb0 as [Hs0 Hb0].
    pose proof (lc_live _ _ _ Hp b0 (Hbs _ Hb0) Hs0) as Hp0.
    assert (Hlive : ∀ b, b ∈ w_cleanups w → b_state b = s → b_el b = b_el b0).
    { intros b Hb Hs. pose proof (lc_live _ _ _ Hp b Hb Hs) as Hpb.
      destruct Hp0 as [-> | ->]; destruct Hpb as [Hpb|Hpb]; congruence. }
    exists (Live (b_el b0)). split; [split|].
    + rewrite L, calls_on_app, run_app, (lc_run _ _ _ Hp), calls_on_updates, Hf.
      by rewrite (run_updates (b_el b0)).
    + rewrite O. intros b Hb Hs. pose proof (lc_queued _ _ _ Hp b Hb Hs).
      destruct Hp0; congruence.
    + rewrite C. intros b Hb Hs. right. f_equal. symmetry. by apply Hlive.
    + rewrite Li. intros el e Hin.
      destruct (lc_exit _ _ _ Hp el e Hin); destruct Hp0; congruence.
    + intros b Hb Hs. f_equal. symmetry. apply Hlive; [by apply Hbs | done].
Qed.

Lemma flush_mounted w :
  Forall (fun b => b ∈ w_cleanups (exec run_mounts w)) (w_onmount w).
Proof.
  destruct (run_mounts_spec w) as (_ & _ & _ & C & _). cbv zeta in C.
  apply Forall_forall. intros b Hb. rewrite C. apply elem_of_app. by right.
Qed.

Lemma exec_flush w :
  exec flush w = exec (for_each (w_onmount w) run_effect) (exec run_mounts w).
Proof.
  unfold flush. rewrite exec_bind.
  destruct (run_mounts_spec w) as (_ & _ & _ & _ & _ & _ & ->).
  by rewrite created_effects_all.
Qed.

Lemma lifecycle_flush w : wf w → lifecycle w → lifecycle (exec flush w).
Proof.
  intros Hw Hlc s. rewrite exec_flush.
  destruct (lifecycle_run_effects (w_onmount w) (exec run_mounts w) s)
    as (p & Hp & _); [by apply lifecycle_mounts | apply flush_mounted |].
  by exists p.
Qed.

(** After a whole batch the handles of the bindings it mounted are
    [Live]. *)
Lemma flush_live w b :
  wf w → lifecycle w → b ∈ w_onmount w →
  lifecycle_at (b_state b) (exec flush w) (Live (b_el b)).
Proof.
  intros Hw Hlc Hb. rewrite exec_flush.
  destruct (lifecycle_run_effects (w_onmount w) (exec run_mounts w) (b_state b))
    as (p & Hp & Hlive); [by apply lifecycle_mounts | apply flush_mounted |].
  by rewrite <- (Hlive b Hb eq_refl).
Qed.

Lemma lifecycle_rerun s0 w : wf w → lifecycle w → lifecycle (exec (rerun s0) w).
Proof.
  intros Hw Hlc s. unfold rerun. rewrite exec_bind, exec_gets, eval_gets.
  destruct (lifecycle_run_effects
              (filter (fun b => b_state b = s0) (w_effects w)) w s Hlc)
    as (p & Hp & _); [|by exists p].
  apply Forall_forall. intros b Hb. apply list_elem_of_filter in Hb as [_ Hb].
  pose proof (wf_effects _ Hw) as He. rewrite Forall_forall in He. by apply He.
Qed.

Lemma lifecycle_dispose s0 w : wf w → lifecycle w → lifecycle (exec (dispose s0) w).
Proof.
  intros Hw Hlc s.
  destruct (dispose_spec s0 w) as (_ & L & O & C & E & Li). cbv zeta in *.
  pose proof (wf_nodup _ Hw) as Hn. rewrite map_app in Hn.
  apply NoDup_app in Hn as (Hn1 & Hdis & Hn2).
  destruct (Hlc s) as [p Hp].
  destruct (decide (s = s0)) as [->|Hne].
  - destruct (decide (s0 ∈ map b_state (w_cleanups w))) as [Hin|Hnot].
    + apply list_elem_of_fmap in Hin as (b & -> & Hb).
      rewrite (filter_unique _ _ Hn1 Hb) in L, Li. simpl in L, Li.
      rewrite app_nil_r in L, Li.
      pose proof (lc_live _ _ _ Hp b Hb eq_refl) as Hpb.
      exists (if defers (w_store w) b then ExitPending (b_el b) else Detached).
      split.
      * rewrite L, calls_on_app, run_app, (lc_run _ _ _ Hp).
        rewrite calls_on_all by apply cleanup_trace_on. by apply run_cleanup_trace.
      * rewrite O. intros b' Hb' Hs.
        apply list_elem_of_filter in Hb' as [Hne _]. done.
      * rewrite C. intros b' Hb' Hs.
        apply list_elem_of_filter in Hb' as [Hne _]. done.
      * rewrite Li. intros el e Hin. apply elem_of_app in Hin as [Hin|Hin].
        { pose proof (wf_listeners _ Hw) as Hli. rewrite Forall_forall in Hli.
          specialize (Hli _ Hin). simpl in Hli. destruct Hli as (_ & _ & Hnot).
          exfalso. apply Hnot. rewrite map_app. apply elem_of_app. left.
          apply list_elem_of_fmap. eauto. }
        unfold cleanup_listeners in Hin. destruct (defers _ b).
        { apply list_elem_of_singleton in Hin. injection Hin as -> ->. by left. }
        by apply elem_of_nil in Hin.
    + assert (Hnil : filter (fun b => b_state b = s0) (w_cleanups w) = []).
      { apply filter_none, Forall_forall. intros b Hb Hs. apply Hnot.
        apply list_elem_of_fmap. eauto. }
      rewrite Hnil in L, Li. simpl in L, Li. rewrite app_nil_r in Li.
      exists p. eapply lifecycle_at_frame; [exact Hp | exact L | done | ..].
      * rewrite O. intros b Hb _. by apply list_elem_of_filter in Hb as [_ Hb].
      * rewrite C. intros b Hb _. by apply list_elem_of_filter in Hb as [_ Hb].
      * by rewrite Li.
  - exists p. eapply lifecycle_at_frame; [exact Hp | exact L | ..].
    + apply calls_on_none, Forall_forall. intros c Hc.
      apply list_elem_of_In, in_concat in Hc as (tr & Htr & Hc).
      apply in_map_iff in Htr as (b & <- & Hb).
      apply list_elem_of_In, list_elem_of_filter in Hb as [Hs _].
      pose proof (cleanup_trace_on (w_store w) b) as Hon.
      rewrite Forall_forall in Hon. apply list_elem_of_In in Hc.
      rewrite (Hon _ Hc). congruence.
    + rewrite O. intros b Hb _. by apply list_elem_of_filter in Hb as [_ Hb].
    + rewrite C. intros b Hb _. by apply list_elem_of_filter in Hb as [_ Hb].
    + rewrite Li. intros el e Hin. apply elem_of_app in Hin as [Hin|Hin]; [done|].
      exfalso.
      apply list_elem_of_In, in_concat in Hin as (tr & Htr & Hin).
      apply in_map_iff in Htr as (b & <- & Hb).
      apply list_elem_of_In, list_elem_of_filter in Hb as [Hs _].
      unfold cleanup_listeners in Hin. destruct (defers _ b); [|done].
      destruct Hin as [Heq|[]]. injection Heq as _ Heq _. congruence.
Qed.

Lemma lifecycle_dispatch el0 w : wf w → lifecycle w → lifecycle (exec (dispatch el0) w).
Proof.
  intros Hw Hlc s.
  assert (Hq : quiet (fun _ => True) w (exec (dispatch el0) w)).
  { apply quiet_dispatch, Forall_forall. done. }
  destruct (Hlc s) as [p [Hr Hqu Hl He]].
  set (ls := filter (fun l => l.1 = el0) (w_listeners w)).
  destruct (run_unmounts s ls p) as (p' & Hrun & Hp').
  { intros el e Hin. apply (He el). by apply list_elem_of_filter in Hin as [_ Hin]. }
  assert (Hcase : p' = p ∨ (p' ≠ p ∧ ∃ e, p' = Completed e ∧ p = ExitPending e)).
  { destruct Hp' as [->|(e & -> & [->| ->])]; [by left| |by left].
    right. split; [done|eauto]. }
  exists p'. split.
  - rewrite dispatch_log, calls_on_app, run_app, Hr. exact Hrun.
  - rewrite (q_onmount _ _ _ Hq). intros b Hb Hs.
    destruct Hcase as [->|(_ & e & -> & ->)]; [eauto|].
    by specialize (Hqu b Hb Hs).
  - rewrite (q_cleanups _ _ _ Hq). intros b Hb Hs.
    destruct Hcase as [->|(_ & e & -> & ->)]; [eauto|].
    by destruct (Hl b Hb Hs).
  - rewrite Keep_dispatch. intros el e Hin.
    destruct Hcase as [->|(_ & e' & -> & ->)]; [eauto|].
    destruct (He el e Hin) as [[= ->]|[=]]. by right.
Qed.

Lemma source_queues sw kids w :
  ∃ w1, extends w w1 ∧ queues w w1
        ∧ quiet (fun c => switch_call c) w1 (exec (source sw kids) w).
Proof.
  unfold source. rewrite exec_bind, exec_gets, eval_gets.
  destruct (w_switches w !! sw) as [s|].
  2: { exists w. split; [apply extends_refl|].
       split; [by apply queues_same | apply quiet_refl]. }
  rewrite !exec_bind, exec_gets, eval_gets, !exec_modify.
  unfold resolveFirst. rewrite exec_bind, eval_bind, exec_gets.
  set (w0 := set_ctx (fun _ => sw_ctx s) w).
  pose proof (Ext_render_all kids w0) as Hext.
  pose proof (Queues_render_all kids w0) as Hqu.
  set (w1 := exec (render_list kids) w0) in *.
  exists (set_ctx (fun _ => w_ctx w) w1). split; [|split].
  - destruct Hext as [St C N L Ce O Mo B Cl E Li Sw].
    split; simpl; done.
  - destruct Hqu as (bs & l & O & L & Hcr). exists bs, l. by repeat split.
  - by apply Quiet_source_changed.
Qed.

Lemma Queues_Presence_children props children initial :
  Queues children → Queues (Presence_children props children initial).
Proof.
  intros Hc. unfold Presence_children, resolveFirst.
  apply Queues_bind; [|intros first].
  { apply Queues_bind; [apply Hc|]. intros ns. apply Queues_gets. }
  apply Queues_bind; [apply Queues_gets|]. intros appear.
  apply Queues_bind; [apply Queues_gets|]. intros p.
  apply Queues_createSwitchTransition.
Qed.

Lemma Presence_rerun_queues sw props kids w :
  queues w (exec (Presence_rerun sw props kids) w).
Proof.
  unfold Presence_rerun. rewrite exec_bind, exec_gets, eval_gets.
  destruct (w_switches w !! sw) as [s|]; [|by apply queues_same].
  destruct (lookup_presence (sw_ctx s)) as [[c|v]|]; try by apply queues_same.
  rewrite !exec_bind, exec_gets, eval_gets, !exec_modify.
  set (w0 := set_ctx (fun _ => sw_ctx s) w).
  destruct (Queues_Presence_children props (render_list kids) c
              (Queues_render_all kids) w0) as (bs & l & O & L & Hcr).
  exists bs, l. by repeat split.
Qed.

Lemma lifecycle_step e w :
  wf w → lifecycle w → lifecycle (exec (step e) w).
Proof.
  intros Hw Hlc. destruct e as [v|t o p| |st|s|s|el|sw kids| |sw props kids].
  - rewrite exec_step_render.
    eapply lifecycle_queues; [done | done | apply Ext_render | apply Queues_render].
  - rewrite exec_step_create.
    eapply lifecycle_queues;
      [done | done | apply Ext_createMotion | apply Queues_createMotion].
  - by apply lifecycle_flush.
  - intros s. destruct (Hlc s) as [p []]. exists p. by split.
  - by apply lifecycle_rerun.
  - by apply lifecycle_dispose.
  - by apply lifecycle_dispatch.
  - destruct (source_queues sw kids w) as (w1 & H1 & H2 & H3).
    eapply lifecycle_quiet_switch; [|exact H3].
    by eapply lifecycle_queues.
  - rewrite exec_step_mount. by apply lifecycle_mounts.
  - eapply lifecycle_queues;
      [done | done | apply Presence_rerun_extends | apply Presence_rerun_queues].
Qed.

Lemma lifecycle_steps es w :
  wf w → lifecycle w → lifecycle (exec (steps es) w).
Proof.
  revert w. induction es as [|e es IH]; intros w Hw Hlc; [done|].
  rewrite exec_steps_cons. apply IH; [by apply wf_step | by apply lifecycle_step].
Qed.



(* ===================================================================== *)
(** ** [initial={false}] reaches every binding of the first render *)
(* ===================================================================== *)

Lemma first_render_extends c w w' :
  first_render_of c w → extends w w' → first_render_of c w'.
Proof.
  intros [Hx Hc Hb] Hext. pose proof (ext_next _ _ Hext). split.
  - by rewrite (ext_ctx _ _ Hext).
  - by rewrite (ext_cells _ _ Hext).
  - lia.
Qed.

Lemma Forced_ret {A} c (a : A) : Forced c 0 (ret a).
Proof. intros w _. exists []. by rewrite exec_ret, app_nil_r. Qed.

Lemma Forced_bind {A B} c n1 n2 (m : M A) (k : A → M B) :
  Ext m → Forced c n1 m → (∀ a, Forced c n2 (k a)) → Forced c (n1 + n2) (bind m k).
Proof.
  intros He Hm Hk w Hw. rewrite exec_bind.
  destruct (Hm w Hw) as (l1 & L1 & F1 & N1).
  destruct (Hk (eval m w) (exec m w)) as (l2 & L2 & F2 & N2).
  { eapply first_render_extends; [exact Hw | apply He]. }
  exists (l1 ++ l2). rewrite L2, L1, <- app_assoc. split; [done|].
  split; [by apply Forall_app | rewrite length_app; lia].
Qed.

Lemma Forced_fresh c : Forced c 0 fresh.
Proof. intros w _. exists []. by rewrite app_nil_r. Qed.

(** The binder below a [Presence] in its first render. *)
Lemma createAndBind_forced c el options parent w :
  first_render_of c w →
  w_log (exec (createAndBindMotionState el options (lookup_presence (w_ctx w)) parent) w)
  = w_log w ++ [CCreateMotionState (w_next w)
                  (<["initial" := VBool false]> (options (w_store w))) parent].
Proof.
  intros [Hx Hc Hb].
  destruct (createAndBind_spec el options (lookup_presence (w_ctx w)) parent w)
    as (_ & -> & _).
  rewrite Hx. unfold presence_value, construction_options, eval. simpl.
  by rewrite Hc.
Qed.

Lemma forced_insert s o p :
  creates_without_initial (CCreateMotionState s (<["initial" := VBool false]> o) p).
Proof. exists s, (<["initial" := VBool false]> o), p. by rewrite lookup_insert_eq. Qed.

Lemma Forced_motion c el props : Forced c 1 (motion el props).
Proof.
  intros w Hw. unfold motion, usePresenceContext, createMotion.
  rewrite !exec_bind, exec_gets, eval_gets, exec_ret.
  rewrite (createAndBind_forced c) by done.
  eexists. split; [done|]. split; [|done].
  constructor; [apply forced_insert | constructor].
Qed.

Lemma Forced_MotionComponent c n props children :
  Ext children → Forced c n children →
  Forced c (S n) (MotionComponent props children).
Proof.
  intros He Hc w Hw. unfold MotionComponent.
  rewrite !exec_bind. unfold usePresenceContext, useParentContext.
  rewrite !exec_gets, !eval_gets.
  set (w1 := exec fresh w).
  assert (Hw1 : first_render_of c w1).
  { eapply first_render_extends; [exact Hw | apply Ext_fresh]. }
  change (w_ctx w) with (w_ctx w1).
  pose proof (createAndBind_forced c (eval fresh w)
                (fun st => pick OPTION_KEYS (props st))
                (lookup_parent (w_ctx w1)) w1 Hw1) as L1.
  set (m := createAndBindMotionState _ _ _ _) in *.
  assert (Hw2 : first_render_of c (exec m w1)).
  { eapply first_render_extends; [exact Hw1|].
    apply Ext_createAndBindMotionState. }
  set (w2 := exec m w1) in *.
  rewrite exec_provide, exec_bind, exec_gets, exec_bind, exec_ret.
  set (w3 := set_ctx _ w2).
  destruct (Hc w3) as (l & L & F & N).
  { destruct Hw2 as [Hx Hcell Hb]. by split. }
  exists (CCreateMotionState (w_next w1)
            (<["initial" := VBool false]> (pick OPTION_KEYS (props (w_store w1))))
            (lookup_parent (w_ctx w1)) :: l).
  split; [|split].
  - simpl. rewrite L. change (w_log w3) with (w_log w2). rewrite L1.
    by rewrite <- app_assoc.
  - constructor; [apply forced_insert | done].
  - simpl. by rewrite N.
Qed.

Lemma Forced_render_list c kids :
  Forall (fun v => no_presence v = true → Forced c (bindings_in v) (render v)) kids →
  forallb no_presence kids = true →
  Forced c (list_sum (map bindings_in kids)) (render_list kids).
Proof.
  induction 1 as [|k l Hk _ IH]; simpl; intros Hnp; [apply Forced_ret|].
  apply andb_prop in Hnp as [Hk' Hl'].
  apply Forced_bind; [apply Ext_render | by apply Hk|]. intros n.
  rewrite <- (Nat.add_0_r (list_sum _)).
  apply Forced_bind; [apply Ext_render_all | by apply IH|]. intros ns.
  apply Forced_ret.
Qed.

Lemma Forced_render c v :
  no_presence v = true → Forced c (bindings_in v) (render v).
Proof.
  induction v as [tag props kids IH|props kids IH|d kids IH] using View_ind';
    cbn [no_presence bindings_in]; intros Hnp; [|done|].
  - rewrite render_VMotion.
    apply Forced_MotionComponent; [apply Ext_render_all|].
    by apply Forced_render_list.
  - rewrite render_VNative.
    replace (match d with
             | Some _ => S (list_sum (map bindings_in kids))
             | None => list_sum (map bindings_in kids)
             end)
      with (0 + ((match d with Some _ => 1 | None => 0 end) + (list_sum (map bindings_in kids) + 0)))
      by (destruct d; simpl; lia).
    apply Forced_bind; [apply Ext_fresh | apply Forced_fresh|]. intros el.
    apply Forced_bind.
    { destruct d; [apply Ext_motion | apply Ext_ret]. }
    { destruct d; [apply Forced_motion | apply Forced_ret]. }
    intros _.
    apply Forced_bind; [apply Ext_render_all | by apply Forced_render_list|].
    intros ns. apply Forced_ret.
Qed.

Lemma Forced_render_all c kids :
  forallb no_presence kids = true →
  Forced c (list_sum (map bindings_in kids)) (render_list kids).
Proof.
  apply Forced_render_list, Forall_forall. intros v _. apply Forced_render.
Qed.

(** The calls of a [Presence] are those of its children. *)
Lemma Presence_log props children w :
  w_log (exec (Presence props children) w)
  = w_log (exec children
             (set_ctx (fun c => EParent None :: EPresence (PCell (w_next w)) :: c)
                (exec (new_cell (Presence_initial (props (w_store w)))) w))).
Proof.
  unfold Presence.
  rewrite exec_bind, exec_gets, eval_gets, exec_bind.
  change (eval (new_cell (Presence_initial (props (w_store w)))) w) with (w_next w).
  set (w1 := exec (new_cell _) w).
  rewrite exec_bind, exec_bind.
  unfold write_cell at 1. rewrite exec_modify, exec_ret.
  rewrite !exec_provide.
  change (set_ctx (fun c => EParent None :: c)
            (set_ctx (fun c => EPresence (PCell (w_next w)) :: c) w1))
    with (set_ctx (fun c => EParent None :: EPresence (PCell (w_next w)) :: c) w1).
  set (w3 := set_ctx (fun c => EParent None :: EPresence (PCell (w_next w)) :: c) w1).
  unfold Presence_children, resolveFirst, read_cell.
  unfold exec, bind, gets.
  destruct (children w3) as [ns w4]. cbn [fst snd].
  match goal with |- context [createSwitchTransition ?i ?a ?m w4] =>
    destruct (createSwitchTransition_only i a m w4) as [E _];
    unfold exec in E;
    destruct (createSwitchTransition i a m w4) as [sw w5] end.
  cbn [fst snd] in *. simpl. by rewrite E.
Qed.

(** X4.  With [initial={false}] every binding made in the first render
    below the [Presence], at any depth, gets [initial: false]. *)
Theorem initial_false_reaches_every_binding (w : World) (props : Props)
    (kids : list View) :
  Presence_initial (props (w_store w)) = false →
  forallb no_presence kids = true →
  ∃ l, w_log (exec (render (VPresence props kids)) w) = w_log w ++ l
       ∧ length l = list_sum (map bindings_in kids)
       ∧ Forall (fun c => ∃ s o p, c = CCreateMotionState s o p
                                   ∧ o !! "initial" = Some (VBool false)) l.
Proof.
  intros Hi Hnp. rewrite render_VPresence, Presence_log, Hi.
  set (w3 := set_ctx _ _).
  destruct (Forced_render_all (w_next w) kids Hnp w3) as (l & L & F & N).
  { split; simpl; [done | apply lookup_insert_eq | lia]. }
  exists l. by repeat split.
Qed.

(** A [Motion] element holding a directive that holds a [Motion] element:
    three handles, all without their first animation. *)
Lemma initial_false_reaches_every_binding_witness :
  ∃ l, w_log (exec (render
           (VPresence (fun _ => {[ "initial" := VBool false ]})
              [VMotion (Some "div") (fun _ => {[ "initial" := VBool true ]})
                 [VNative (Some (OStatic ∅)) [VMotion None (fun _ => ∅) []]]]))
           empty_world) = w_log empty_world ++ l
       ∧ length l = 3
       ∧ Forall (fun c => ∃ s o p, c = CCreateMotionState s o p
                                   ∧ o !! "initial" = Some (VBool false)) l.
Proof.
  exact (initial_false_reaches_every_binding empty_world
           (fun _ => {[ "initial" := VBool false ]})
           [VMotion (Some "div") (fun _ => {[ "initial" := VBool true ]})
              [VNative (Some (OStatic ∅)) [VMotion None (fun _ => ∅) []]]]
           eq_refl eq_refl).
Defined.

(* ===================================================================== *)
(** ** What reaches the engine and what reaches the element *)
(* ===================================================================== *)

Lemma pick_options_of props : options_of props (pick OPTION_KEYS props).
Proof.
  split; intros k Hk; unfold pick.
  - apply map_lookup_filter_None. right. intros v _. done.
  - destruct (props !! k) as [v|] eqn:Hv.
    + apply map_lookup_filter_Some. done.
    + apply map_lookup_filter_None. by left.
Qed.

Lemma motion_props_option tag props st k :
  k ∈ OPTION_KEYS → motion_props tag props st !! k = props st !! k.
Proof.
  intros Hk. destruct tag as [t|]; [|done]. unfold motion_props, mergeProps.
  rewrite lookup_union_with, lookup_singleton_ne.
  - by destruct (props st !! k).
  - intros <-. not_in_keys Hk.
Qed.

Lemma motion_props_options_of tag props st :
  options_of (props st) (pick OPTION_KEYS (motion_props tag props st)).
Proof.
  destruct (pick_options_of (motion_props tag props st)) as [H1 H2].
  split; [done|]. intros k Hk. rewrite H2 by done. by apply motion_props_option.
Qed.

(** X6.  The engine is given the option props and nothing else: the
    options of [createMotionState] and of every [update] hold no key
    outside [OPTION_KEYS], and each option key as the props have it
    (but for [initial] at construction, which the presence flag can
    force off). *)
Theorem engine_sees_only_option_props (tag : option string) (props : Props)
    (kids : list View) (w : World) :
  let w' := exec (render (VMotion tag props kids)) w in
  ∃ o parent l b,
    w_log w' = w_log w ++ CCreateMotionState (S (w_next w)) o parent :: l
    ∧ (∀ k, k ∉ OPTION_KEYS → o !! k = None)
    ∧ (∀ k, k ∈ OPTION_KEYS → k ≠ "initial" → o !! k = props (w_store w) !! k)
    ∧ b ∈ w_onmount w' ∧ b_state b = S (w_next w)
    ∧ ∀ w2, ∃ o2,
        w_log (exec (run_effect b) w2) = w_log w2 ++ [CUpdate (S (w_next w)) o2]
        ∧ (∀ k, k ∉ OPTION_KEYS → o2 !! k = None)
        ∧ (∀ k, k ∈ OPTION_KEYS → o2 !! k = props (w_store w2) !! k).
Proof.
  cbv zeta. rewrite render_VMotion.
  destruct (MotionComponent_log (motion_props tag props) (render_list kids) w
              (Ext_render_all kids)) as [l Hl].
  pose proof (MotionComponent_queued (motion_props tag props) (render_list kids) w
                (Ext_render_all kids)) as Hb. cbv zeta in Hb.
  destruct (motion_props_options_of tag props (w_store w)) as [H1 H2].
  eexists _, _, l, _. split; [exact Hl|]. split; [|split; [|split; [exact Hb|]]].
  - intros k Hk. unfold construction_options. destruct (is_false _); [|by apply H1].
    rewrite lookup_insert_ne; [by apply H1|]. intros <-. apply Hk. in_keys.
  - intros k Hk Hne. unfold construction_options. destruct (is_false _); [|by apply H2].
    rewrite lookup_insert_ne by done. by apply H2.
  - split; [done|]. intros w2.
    destruct (motion_props_options_of tag props (w_store w2)) as [H3 H4].
    eexists. split; [apply run_effect_spec|]. by split.
Qed.

(** X5.  [createMotion] called without a presence accessor never reads
    [PresenceContext]: whatever providers surround the call, the handle
    is created with the options as given and the cleanup unmounts at
    once, [exit] target or not.  The directive [motion] passes
    [useContext(PresenceContext)], so its binding gets the flag of the
    nearest [Presence]. *)
Theorem createMotion_ignores_presence_context (target : El) (options : OptionsArg)
    (w : World) :
  let f := match options with OFun f => f | OStatic o => fun _ => o end in
  let w' := exec (createMotion target options None) w in
  let b := mkBinding (w_next w) target f None in
  w_log w' = w_log w ++ [CCreateMotionState (w_next w) (f (w_store w)) None]
  ∧ w_onmount w' = w_onmount w ++ [b]
  ∧ (∀ w2, w_log (exec (run_cleanup b) w2) = w_log w2 ++ [CUnmount (w_next w)]
           ∧ w_listeners (exec (run_cleanup b) w2) = w_listeners w2)
  ∧ (let w'' := exec (motion target options) w in
     let p := lookup_presence (w_ctx w) in
     w_log w'' = w_log w ++
       [CCreateMotionState (w_next w)
          (construction_options (presence_value p w) (f (w_store w))) None]
     ∧ w_onmount w'' = w_onmount w ++ [mkBinding (w_next w) target f p]).
Proof.
  cbv zeta. split; [|split; [|split]].
  - by destruct options.
  - by destruct options.
  - intros w2. destruct (run_cleanup_spec (mkBinding (w_next w) target
      (match options with OFun f => f | OStatic o => fun _ => o end) None) w2)
      as (_ & L & _ & _ & _ & Li).
    cbv zeta in *. rewrite L, Li. unfold cleanup_trace, cleanup_listeners, defers.
    simpl. by rewrite app_nil_r.
  - unfold motion, usePresenceContext, createMotion.
    rewrite !exec_bind, exec_gets, eval_gets, exec_ret.
    destruct (createAndBind_spec target
                (match options with OFun f => f | OStatic o => fun _ => o end)
                (lookup_presence (w_ctx w)) None w) as (_ & L & _).
    cbv zeta in L. split; [exact L|].
    unfold createAndBindMotionState, read_presence.
    destruct (lookup_presence (w_ctx w)) as [[c|v]|]; by wsimpl.
Qed.

Lemma own_props_named props k :
  k ∈ OPTION_KEYS ++ ATTR_KEYS → k ≠ "ref" → k ≠ "style" →
  own_props props !! k = None.
Proof.
  intros Hk Hr Hs. unfold OPTION_KEYS, ATTR_KEYS in Hk. simpl in Hk.
  repeat (apply elem_of_cons in Hk as [->|Hk]); try done.
  by apply elem_of_nil in Hk.
Qed.

(** X7.  No option prop and no attribute prop reaches the element under
    its own name: [tag], the animation options and the [onMotion...]
    handlers are not among the props of [Dynamic].  [ref] and [style] are
    there, but always as the library's own callback and style, built
    from the props' values. *)
Theorem element_never_gets_option_props (props : Obj) :
  (∀ k, k ∈ OPTION_KEYS ++ ATTR_KEYS → k ≠ "ref" → k ≠ "style" →
        Dynamic_props props !! k = None)
  ∧ Dynamic_props props !! "ref" = Some (PRef (get props "ref"))
  ∧ Dynamic_props props !! "style"
    = Some (PStyle (if truthy (get props "style")
                    then Some (get props "style") else None)).
Proof.
  split; [|split].
  - intros k Hk Hr Hs.
    by rewrite Dynamic_props_lookup, attrs_lookup_named, own_props_named.
  - rewrite Dynamic_props_lookup, attrs_lookup_named; [done | in_keys].
  - rewrite Dynamic_props_lookup, attrs_lookup_named; [done | in_keys].
Qed.

(** X8.  Every other prop that is not [undefined] reaches the element
    unchanged. *)
Theorem element_gets_every_other_prop (props : Obj) (k : string) (v : value) :
  k ∉ OPTION_KEYS ++ ATTR_KEYS → props !! k = Some v → v ≠ VUndefined →
  Dynamic_props props !! k = Some (PValue v).
Proof.
  intros Hk Hv Hu.
  rewrite Dynamic_props_lookup, attrs_lookup_other, Hv by done. simpl.
  destruct (own_props props !! k); simpl; [|done].
  by destruct v.
Qed.

(** A [class] prop beside an option prop. *)
Lemma element_gets_every_other_prop_witness :
  Dynamic_props {[ "class" := VStr "box"; "animate" := VObj [] ]} !! "class"
  = Some (PValue (VStr "box")).
Proof.
  apply element_gets_every_other_prop; [|reflexivity|discriminate].
  intros Hk. not_in_keys Hk.
Defined.

(** X9.  The component and the event properties of the element are
    defaults: [props.tag || "div"] and [props.onMotionStart] and the
    like are used unless the props hold a defined value under the
    element's own name ([component], [on:motionstart], ...), which then
    wins.  Without a [component] prop the component is the one that
    [MotionComponent] renders. *)
Theorem element_component_and_handlers (props : Obj) :
  Dynamic_props props !! "component"
  = Some (PValue (default (js_or (get props "tag") (VStr "div"))
                    (defined props "component")))
  ∧ (∀ ev name, (ev, name) ∈ HANDLERS →
       Dynamic_props props !! ev
       = Some (PValue (default (get props name) (defined props ev))))
  ∧ (∀ (P : Props) children w,
       P (w_store w) = props → defined props "component" = None →
       ∃ c kids, eval (MotionComponent P children) w = NElem (w_next w) c kids
                 ∧ Dynamic_props props !! "component" = Some (PValue c)).
Proof.
  assert (Hc : Dynamic_props props !! "component"
               = Some (PValue (default (js_or (get props "tag") (VStr "div"))
                                 (defined props "component")))).
  { rewrite (Dynamic_props_own _ _ (PValue (js_or (get props "tag") (VStr "div")))).
    - by destruct (defined props "component").
    - intros Hk. not_in_keys Hk.
    - done. }
  split; [exact Hc|]. split.
  - intros ev name Hin.
    assert (own_props props !! ev = Some (PValue (get props name))
            ∧ ev ∉ OPTION_KEYS ++ ATTR_KEYS) as [Ho Hk].
    { unfold HANDLERS in Hin.
      repeat (apply elem_of_cons in Hin as [Hin|Hin];
        [injection Hin as -> ->; split;
         [reflexivity | intros Hk; not_in_keys Hk] |]).
      by apply elem_of_nil in Hin. }
    rewrite (Dynamic_props_own _ _ _ Hk Ho). by destruct (defined props ev).
  - intros P children w HP Hd.
    destruct (MotionComponent_node P children w) as [kids Hk].
    exists (js_or (get props "tag") (VStr "div")), kids.
    by rewrite Hk, HP, Hc, Hd.
Qed.

(* ===================================================================== *)
(** ** The first render of a [Presence] *)
(* ===================================================================== *)

Lemma createSwitchTransition_world init appear mode w :
  exec (createSwitchTransition init appear mode) w
  = set_switches (insert (w_next w) (idle_switch mode init (w_ctx w))) (set_next S w)
  ∧ eval (createSwitchTransition init appear mode) w = w_next w.
Proof.
  split; [|apply createSwitchTransition_spec].
  unfold createSwitchTransition, source_changed, triggerTransitions, exitTransition,
    enterTransition, idle_switch.
  destruct appear, init as [el|], mode; wsimpl;
    rewrite ?lookup_insert_eq; simpl;
    rewrite ?decide_True by done; rewrite ?decide_False by done; simpl;
    rewrite ?lookup_insert_eq; simpl; rewrite ?lookup_insert_eq; simpl;
    rewrite ?lookup_insert_eq; simpl; rewrite ?insert_insert_eq; done.
Qed.

Lemma Presence_world props children w :
  let n := w_next w in
  let w3 := set_ctx (fun c => EParent None :: EPresence (PCell n) :: c)
              (exec (new_cell (Presence_initial (props (w_store w)))) w) in
  let w4 := exec children w3 in
  let first := first_element (w_switches w4) (eval children w3) in
  exec (Presence props children) w
  = set_cells (insert n true)
      (set_ctx (fun _ => w_ctx w)
         (set_switches
            (insert (w_next w4)
               (idle_switch (Presence_mode (props (w_store w4))) first (w_ctx w4)))
            (set_next S w4)))
  ∧ eval (Presence props children) w = NSwitch (w_next w4).
Proof.
  cbv zeta. unfold Presence.
  rewrite eval_bind, exec_bind, exec_gets, eval_gets.
  rewrite eval_bind, exec_bind.
  change (eval (new_cell (Presence_initial (props (w_store w)))) w) with (w_next w).
  set (w1 := exec (new_cell _) w).
  rewrite eval_bind, exec_bind, eval_bind, exec_bind.
  unfold write_cell at 1 2. rewrite exec_modify, exec_ret.
  unfold eval at 1. unfold ret at 1. cbn [fst].
  rewrite !eval_provide, !exec_provide.
  change (set_ctx (fun c => EParent None :: c)
            (set_ctx (fun c => EPresence (PCell (w_next w)) :: c) w1))
    with (set_ctx (fun c => EParent None :: EPresence (PCell (w_next w)) :: c) w1).
  set (w3 := set_ctx (fun c => EParent None :: EPresence (PCell (w_next w)) :: c) w1).
  unfold Presence_children, resolveFirst, read_cell.
  unfold eval, exec, bind, gets.
  destruct (children w3) as [ns w4]. cbn [fst snd].
  match goal with |- context [createSwitchTransition ?i ?a ?m w4] =>
    destruct (createSwitchTransition_world i a m w4) as [E V];
    unfold exec, eval in E, V;
    destruct (createSwitchTransition i a m w4) as [sw w5] end.
  cbn [fst snd] in *. subst sw w5. done.
Qed.

(** The world after a childless [MotionComponent]. *)
Lemma MotionComponent_leaf props w :
  let p := lookup_presence (w_ctx w) in
  let o := construction_options (presence_value p w)
             (pick OPTION_KEYS (props (w_store w))) in
  let b := mkBinding (S (w_next w)) (w_next w)
             (fun st => pick OPTION_KEYS (props st)) p in
  exec (MotionComponent props (render_list [])) w
  = set_onmount (fun l => l ++ [b])
      (set_log (fun l => l ++ [CCreateMotionState (S (w_next w)) o
                                 (lookup_parent (w_ctx w))])
         (set_opts (insert (S (w_next w)) o) (set_next (fun n => S (S n)) w))).
Proof.
  cbv zeta.
  unfold MotionComponent, createAndBindMotionState, provide, presence_value,
    construction_options, read_presence. unfold usePresenceContext, useParentContext.
  destruct (lookup_presence (w_ctx w)) as [[c|v]|] eqn:Hp;
    unfold eval, exec, bind, gets, fresh, modify, ret, createMotionState, onMount,
      emit, call; simpl; rewrite ?Hp; simpl; destruct w; done.
Qed.

Lemma eval_render_list_cons k l w :
  eval (render_list (k :: l)) w
  = eval (render k) w :: eval (render_list l) (exec (render k) w).
Proof.
  cbn [render_list]. unfold eval, exec, bind, ret.
  destruct (render k w) as [n w1]. simpl. by destruct (render_list l w1).
Qed.

(** X10.  Whatever [initial] and [exitBeforeEnter] are, the first render of
    a [Presence] leaves its switch showing the first child, with nothing
    exiting and nothing waiting to enter; the exit hook is not called
    and no listener is registered. *)
Theorem presence_first_render_is_idle (w : World) (props : Props)
    (kids : list View) :
  let w' := exec (render (VPresence props kids)) w in
  ∃ sw s,
    eval (render (VPresence props kids)) w = NSwitch sw
    ∧ w_switches w' !! sw = Some s
    ∧ sw_mode s = Presence_mode (props (w_store w))
    ∧ sw_exiting s = false
    ∧ sw_next s = None
    ∧ sw_returned s = option_list (sw_prev s)
    ∧ w_listeners w' = w_listeners w
    ∧ Forall (fun c => is_create c) (drop (length (w_log w)) (w_log w'))
    ∧ (kids = [] → sw_returned s = [])
    ∧ (∀ tag cprops ckids rest,
         kids = VMotion tag cprops ckids :: rest → sw_returned s = [S (w_next w)]).
Proof.
  cbv zeta. rewrite render_VPresence.
  destruct (Presence_world props (render_list kids) w) as [E V]. cbv zeta in E, V.
  set (w3 := set_ctx (fun c => EParent None :: EPresence (PCell (w_next w)) :: c)
               (exec (new_cell (Presence_initial (props (w_store w)))) w)) in *.
  pose proof (Ext_render_all kids w3) as Hext.
  set (w4 := exec (render_list kids) w3) in *.
  exists (w_next w4), (idle_switch (Presence_mode (props (w_store w4)))
                        (first_element (w_switches w4) (eval (render_list kids) w3))
                        (w_ctx w4)).
  split; [exact V|]. rewrite E.
  split; [apply lookup_insert_eq|].
  split; [simpl; by rewrite (ext_store _ _ Hext)|].
  split; [done|]. split; [done|]. split; [done|].
  split; [simpl; by rewrite (ext_listeners _ _ Hext)|].
  split; [|split].
  - simpl. destruct (ext_log _ _ Hext) as (l & -> & F).
    change (w_log w3) with (w_log w). rewrite drop_app_length.
    eapply Forall_impl; [exact F|]. by intros c [? _].
  - intros ->. done.
  - intros tag cprops ckids rest ->. unfold idle_switch. cbn [sw_returned].
    rewrite eval_render_list_cons, render_VMotion.
    destruct (MotionComponent_node (motion_props tag cprops) (render_list ckids) w3)
      as [ns ->].
    done.
Qed.

(* ===================================================================== *)
(** ** Removing the [Motion] child of a [Presence] *)
(* ===================================================================== *)

Lemma run_mount_tables b w :
  w_mounted (exec (run_mount b) w) = <[b_el b := b_state b]> (w_mounted w)
  ∧ w_opts (exec (run_mount b) w) = w_opts w.
Proof. unfold run_mount, createEffect. by wsimpl. Qed.

Lemma mount_all_tables bs w :
  w_mounted (exec (for_each bs run_mount) w) = mounted_after bs (w_mounted w)
  ∧ w_opts (exec (for_each bs run_mount) w) = w_opts w.
Proof.
  revert w. induction bs as [|b bs IH]; intros w; [done|].
  cbn [for_each]. rewrite exec_bind.
  destruct (IH (exec (run_mount b) w)) as [-> ->].
  by destruct (run_mount_tables b w) as [-> ->].
Qed.

Lemma run_effects_tables bs w :
  w_mounted (exec (for_each bs run_effect) w) = w_mounted w
  ∧ w_opts (exec (for_each bs run_effect) w) = opts_after (w_store w) bs (w_opts w).
Proof.
  revert w. induction bs as [|b bs IH]; intros w; [done|].
  cbn [for_each]. rewrite exec_bind.
  destruct (IH (exec (run_effect b) w)) as [-> ->].
  unfold run_effect. by wsimpl.
Qed.

Lemma flush_tables w :
  w_mounted (exec flush w) = mounted_after (w_onmount w) (w_mounted w)
  ∧ w_opts (exec flush w) = opts_after (w_store w) (w_onmount w) (w_opts w).
Proof.
  rewrite exec_flush.
  destruct (run_effects_tables (w_onmount w) (exec run_mounts w)) as [-> ->].
  destruct (run_mounts_spec w) as ([St _ _ _ _] & _). cbv zeta in St. rewrite St.
  unfold run_mounts. rewrite !exec_bind, exec_gets, eval_gets, exec_modify, exec_ret.
  by destruct (mount_all_tables (w_onmount w) (set_onmount (fun _ => []) w))
    as [-> ->].
Qed.

Lemma run_cleanup_tables b w :
  w_opts (exec (run_cleanup b) w) = w_opts w
  ∧ w_mounted (exec (run_cleanup b) w)
    = if defers (w_store w) b then w_mounted w else delete (b_el b) (w_mounted w).
Proof.
  unfold run_cleanup, defers.
  destruct (b_presence b) as [p|]; wsimpl; [|done].
  by destruct (truthy _).
Qed.

Lemma dispose_tables w b :
  wf w → b ∈ w_cleanups w →
  w_opts (exec (dispose (b_state b)) w) = w_opts w
  ∧ w_mounted (exec (dispose (b_state b)) w)
    = if defers (w_store w) b then w_mounted w else delete (b_el b) (w_mounted w).
Proof.
  intros Hw Hb.
  assert (Hn : NoDup (map b_state (w_cleanups w))).
  { pose proof (wf_nodup _ Hw) as Hn. rewrite map_app in Hn.
    by apply NoDup_app in Hn as (? & _ & _). }
  unfold dispose. rewrite !exec_bind, exec_gets, eval_gets, !exec_modify.
  rewrite (filter_unique _ _ Hn Hb). cbn [for_each]. rewrite exec_bind, exec_ret.
  match goal with |- context [exec (run_cleanup b) ?w0] =>
    destruct (run_cleanup_tables b w0) as [-> ->] end.
  done.
Qed.

Lemma source_empty sw w : exec (source sw []) w = exec (source_changed sw None) w.
Proof.
  unfold source. rewrite exec_bind, exec_gets, eval_gets.
  destruct (w_switches w !! sw) as [s|] eqn:Hs.
  - rewrite !exec_bind, exec_gets, eval_gets, !exec_modify.
    unfold resolveFirst. rewrite exec_bind, eval_bind, exec_gets. cbn [render_list].
    rewrite exec_ret. unfold eval, ret, gets. cbn [fst].
    assert (Hw : set_ctx (fun _ => w_ctx w) (set_ctx (fun _ => sw_ctx s) w) = w)
      by by destruct w.
    by rewrite Hw.
  - unfold source_changed. by rewrite exec_bind, exec_gets, eval_gets, Hs.
Qed.

(** The shown child leaves and nothing replaces it. *)
Lemma child_leaves_deferred w sw s a sa :
  w_switches w !! sw = Some s → sw_prev s = Some a → sw_exiting s = false →
  sw_next s = None → w_mounted w !! a = Some sa →
  truthy (get (default ∅ (w_opts w !! sa)) "exit") = true →
  let w1 := exec (source_changed sw None) w in
  let cb := CbRemove sw a (enters_after (sw_mode s)) in
  w_log w1 = w_log w ++ [CAddEventListener a "motioncomplete" cb]
  ∧ w_listeners w1 = w_listeners w ++ [(a, cb)]
  ∧ w_switches w1
    = <[sw := mkSwitch (sw_mode s) (sw_returned s) None true None (sw_ctx s)]>
        (w_switches w).
Proof.
  intros Hs Hp He Hn Hm Hx.
  unfold source_changed, triggerTransitions, exitTransition, Presence_onExit,
    enterTransition, run_remove, enters_after.
  wsimpl. rewrite Hs. simpl. rewrite Hp. simpl.
  rewrite Hs. simpl. rewrite lookup_insert_eq. simpl.
  destruct (sw_mode s) eqn:Hmode; simpl; rewrite ?He; simpl;
    rewrite ?lookup_insert_eq; simpl; rewrite Hm; simpl; rewrite Hx; simpl;
    rewrite ?lookup_insert_eq; simpl; rewrite ?Hn; simpl;
    rewrite ?lookup_insert_eq; simpl; rewrite ?insert_insert_eq;
    unfold switch_set_prev, switch_set_exiting, switch_set_next; simpl;
    rewrite ?Hmode; done.
Qed.

Lemma child_leaves_immediate w sw s a :
  w_switches w !! sw = Some s → sw_prev s = Some a → sw_exiting s = false →
  sw_next s = None →
  truthy (match w_mounted w !! a with
          | Some sa => get (default ∅ (w_opts w !! sa)) "exit"
          | None => VUndefined
          end) = false →
  let w1 := exec (source_changed sw None) w in
  w_log w1 = w_log w ++ [CRemove sw a]
  ∧ w_listeners w1 = w_listeners w
  ∧ w_switches w1
    = <[sw := mkSwitch (sw_mode s) (filter (fun e => e ≠ a) (sw_returned s))
                None false None (sw_ctx s)]>
        (w_switches w).
Proof.
  intros Hs Hp He Hn Hx.
  unfold source_changed, triggerTransitions, exitTransition, Presence_onExit,
    run_remove, enterTransition.
  wsimpl. rewrite Hs. simpl. rewrite Hp. simpl.
  rewrite Hs. simpl. rewrite lookup_insert_eq. simpl.
  destruct (sw_mode s) eqn:Hmode; simpl; rewrite ?He; simpl;
    rewrite ?lookup_insert_eq; simpl;
    (destruct (w_mounted w !! a) as [sa|]; simpl in *; rewrite ?Hx; simpl;
     rewrite ?lookup_insert_eq; simpl; rewrite ?lookup_insert_eq; simpl;
     rewrite ?Hn; simpl; rewrite ?lookup_insert_eq; simpl;
     rewrite ?lookup_insert_eq; simpl; rewrite ?Hn; simpl;
     rewrite ?lookup_insert_eq; simpl; rewrite ?insert_insert_eq;
     unfold switch_set_prev, switch_set_exiting, switch_set_next; simpl;
     rewrite ?Hmode; done).
Qed.

Lemma mounted_after_last bs b m :
  mounted_after (bs ++ [b]) m !! b_el b = Some (b_state b).
Proof. unfold mounted_after. rewrite foldl_app. simpl. apply lookup_insert_eq. Qed.

Lemma opts_after_last st bs b m :
  opts_after st (bs ++ [b]) m !! b_state b = Some (b_options b st).
Proof. unfold opts_after. rewrite foldl_app. simpl. apply lookup_insert_eq. Qed.

(** The world after a [Presence] with one childless [Motion] element
    has been rendered. *)
Lemma presence_child_rendered pprops tag props w0 :
  let n := w_next w0 in
  let w := exec (render (VPresence pprops [VMotion tag props []])) w0 in
  let b := mkBinding (S (S n)) (S n)
             (fun st => pick OPTION_KEYS (motion_props tag props st))
             (Some (PCell n)) in
  w_onmount w = w_onmount w0 ++ [b]
  ∧ w_store w = w_store w0
  ∧ w_listeners w = w_listeners w0
  ∧ w_switches w !! S (S (S n))
    = Some (idle_switch (Presence_mode (pprops (w_store w0))) (Some (S n))
              (EParent None :: EPresence (PCell n) :: w_ctx w0)).
Proof.
  cbv zeta. rewrite render_VPresence.
  destruct (Presence_world pprops (render_list [VMotion tag props []]) w0) as [E _].
  cbv zeta in E. rewrite E. clear E.
  set (w3 := set_ctx (fun c => EParent None :: EPresence (PCell (w_next w0)) :: c)
               (exec (new_cell (Presence_initial (pprops (w_store w0)))) w0)).
  assert (Hex : exec (render_list [VMotion tag props []]) w3
                = exec (MotionComponent (motion_props tag props) (render_list [])) w3).
  { cbn [render_list]. by rewrite exec_bind, exec_bind, !exec_ret, render_VMotion. }
  assert (Hev : eval (render_list [VMotion tag props []]) w3
                = [eval (MotionComponent (motion_props tag props) (render_list [])) w3]).
  { by rewrite eval_render_list_cons, render_VMotion. }
  rewrite Hex, Hev.
  destruct (MotionComponent_node (motion_props tag props) (render_list []) w3)
    as [ns ->].
  rewrite MotionComponent_leaf. subst w3.
  split; [done|]. split; [done|]. split; [done|]. apply lookup_insert_eq.
Qed.

Lemma run_remove_returned sw a after w s :
  w_switches w !! sw = Some s → sw_next s = None →
  returned sw (exec (run_remove sw a after) w)
  = filter (fun e => e ≠ a) (sw_returned s).
Proof.
  intros Hs Hn. unfold returned, run_remove, enterTransition.
  destruct after; wsimpl; rewrite Hs; simpl; rewrite ?lookup_insert_eq; simpl;
    rewrite ?Hn; simpl; rewrite ?lookup_insert_eq; done.
Qed.

Lemma filter_listeners_none a (ls : list (El * Callback)) :
  Forall (fun l => l.1 ≠ a) ls → filter (fun l => l.1 = a) ls = [].
Proof.
  induction 1 as [|x l Hx _ IH]; [done|]. by rewrite filter_cons_False.
Qed.

(** X11.  A [Motion] element shown by a [Presence] is mounted and then
    removed.  With an [exit] target the binder and the coordinator both
    wait for the same [motioncomplete] event, which then unmounts the
    handle and removes the element; without one, both act at once. *)
Theorem motion_child_exit (w0 : World) (pprops props : Props) (tag : option string) :
  reachable w0 →
  Forall (fun l => l.1 ≠ S (w_next w0)) (w_listeners w0) →
  let el := S (w_next w0) in
  let s := S (S (w_next w0)) in
  let sw := S (S (S (w_next w0))) in
  let after := enters_after (Presence_mode (pprops (w_store w0))) in
  let w := exec (steps [ERender (VPresence pprops [VMotion tag props []]); EFlush]) w0 in
  let w' := exec (steps [EDispose s; ESource sw []]) w in
  returned sw w = [el]
  ∧ w_mounted w !! el = Some s
  ∧ if truthy (get (props (w_store w0)) "exit")
    then w_log w' = w_log w ++
           [CSetActive s "exit" true;
            CAddEventListener el "motioncomplete" (CbUnmount s el);
            CAddEventListener el "motioncomplete" (CbRemove sw el after)]
         ∧ returned sw w' = [el]
         ∧ w_log (exec (dispatch el) w') = w_log w' ++ [CUnmount s; CRemove sw el]
         ∧ returned sw (exec (dispatch el) w') = []
    else w_log w' = w_log w ++ [CUnmount s; CRemove sw el]
         ∧ returned sw w' = []
         ∧ w_listeners w' = w_listeners w0.
Proof.
  intros Hr Hfresh. cbv zeta. rewrite !steps_two, exec_step_render. cbn [step].
  set (n := w_next w0).
  set (b := mkBinding (S (S n)) (S n)
              (fun st => pick OPTION_KEYS (motion_props tag props st))
              (Some (PCell n))).
  destruct (presence_child_rendered pprops tag props w0) as (O1 & St1 & Li1 & Sw1).
  cbv zeta in O1, St1, Li1, Sw1. fold n in O1, Sw1. fold b in O1.
  set (w1 := exec (render _) w0) in *.
  assert (Hw1 : wf w1).
  { apply wf_reachable in Hr. eapply wf_extends; [exact Hr | apply Ext_render]. }
  destruct (flush_spec w1) as ([St2 _ _ _ Sw2] & L2 & O2 & C2 & E2 & Li2).
  destruct (flush_tables w1) as [M2 Op2]. cbv zeta in *.
  pose proof (wf_flush _ Hw1) as Hw2.
  set (w2 := exec flush w1) in *.
  assert (Hb : b ∈ w_cleanups w2).
  { rewrite C2, O1. apply elem_of_app. right. apply elem_of_app. right.
    apply list_elem_of_here. }
  assert (Hm2 : w_mounted w2 !! S n = Some (S (S n))).
  { rewrite M2, O1. apply (mounted_after_last _ b). }
  assert (Ho2 : w_opts w2 !! S (S n) = Some (b_options b (w_store w2))).
  { rewrite Op2, O1, St2. apply (opts_after_last _ _ b). }
  set (sws := idle_switch (Presence_mode (pprops (w_store w0))) (Some (S n))
                (EParent None :: EPresence (PCell n) :: w_ctx w0)) in *.
  assert (Hsw2 : w_switches w2 !! S (S (S n)) = Some sws) by by rewrite Sw2.
  assert (Hexit : get (b_options b (w_store w2)) "exit" = get (props (w_store w0)) "exit").
  { rewrite St2, St1. unfold get. simpl.
    destruct (motion_props_options_of tag props (w_store w0)) as [_ ->]; [done|].
    in_keys. }
  assert (Hdef : defers (w_store w2) b = truthy (get (props (w_store w0)) "exit")).
  { unfold defers. simpl. by rewrite <- Hexit. }
  assert (Hopt : truthy (get (default ∅ (w_opts w2 !! S (S n))) "exit")
                 = truthy (get (props (w_store w0)) "exit")).
  { rewrite Ho2. simpl. by rewrite <- Hexit. }
  split; [unfold returned; by rewrite Hsw2|]. split; [exact Hm2|].
  destruct (dispose_spec (S (S n)) w2) as ([St3 _ _ _ Sw3] & _). cbv zeta in St3, Sw3.
  destruct (dispose_tables w2 b Hw2 Hb) as [Op3 M3]. simpl in Op3, M3.
  rewrite source_empty.
  destruct (truthy (get (props (w_store w0)) "exit")) eqn:Hx.
  - destruct (dispose_deferred w2 b Hw2 Hb Hdef) as (_ & L3 & Li3).
    cbv zeta in L3, Li3. simpl in L3, Li3. rewrite Hdef in M3.
    set (w3 := exec (dispose (S (S n))) w2) in *.
    destruct (child_leaves_deferred w3 (S (S (S n))) sws (S n) (S (S n)))
      as (L4 & Li4 & Sw4); try (rewrite ?Sw3; done).
    { by rewrite M3. }
    { by rewrite Op3, Hopt. }
    cbv zeta in L4, Li4, Sw4. simpl in L4, Li4, Sw4.
    set (w4 := exec (source_changed _ None) w3) in *.
    split; [by rewrite L4, L3, <- app_assoc|].
    split; [unfold returned; by rewrite Sw4, lookup_insert_eq|].
    assert (Hls : filter (fun l => l.1 = S n) (w_listeners w4)
                  = [(S n, CbUnmount (S (S n)) (S n));
                     (S n, CbRemove (S (S (S n))) (S n)
                             (enters_after (Presence_mode (pprops (w_store w0)))))]).
    { rewrite Li4, Li3, Li2, Li1, !filter_app, filter_listeners_none by done.
      by rewrite !filter_cons_True, !filter_nil by done. }
    split.
    + by rewrite dispatch_log, Hls.
    + unfold dispatch. rewrite exec_bind, exec_gets, eval_gets, Hls.
      cbn [for_each]. rewrite !exec_bind, exec_ret. cbn [invoke snd].
      rewrite (run_remove_returned _ _ _ _
                 (mkSwitch (sw_mode sws) (sw_returned sws) None true None (sw_ctx sws)));
        [| |done].
      * simpl. by rewrite filter_cons_False, filter_nil by (intros H; by apply H).
      * change (w_switches (exec (unmount (S (S n)) (S n)) w4))
          with (w_switches w4). rewrite Sw4. apply lookup_insert_eq.
  - destruct (dispose_immediate w2 b Hw2 Hb Hdef) as (L3 & Li3).
    cbv zeta in L3, Li3. simpl in L3, Li3. rewrite Hdef in M3.
    set (w3 := exec (dispose (S (S n))) w2) in *.
    destruct (child_leaves_immediate w3 (S (S (S n))) sws (S n))
      as (L4 & Li4 & Sw4); try (rewrite ?Sw3; done).
    { by rewrite M3, lookup_delete_eq. }
    cbv zeta in L4, Li4, Sw4. simpl in L4, Li4, Sw4.
    split; [by rewrite L4, L3, <- app_assoc|].
    split; [|by rewrite Li4, Li3, Li2, Li1].
    unfold returned. rewrite Sw4, lookup_insert_eq. simpl.
    by rewrite filter_cons_False, filter_nil by (intros H; by apply H).
Qed.

(** A [div] with an [exit] target under a [Presence] with no props. *)
Lemma motion_child_exit_witness :
  let w := exec (steps [ERender (VPresence (fun _ => ∅)
                                   [VMotion (Some "div")
                                      (fun _ => sample_exit_options) []]);
                        EFlush]) empty_world in
  let w' := exec (steps [EDispose 2; ESource 3 []]) w in
  returned 3 w = [1]
  ∧ returned 3 w' = [1]
  ∧ w_log (exec (dispatch 1) w') = w_log w' ++ [CUnmount 2; CRemove 3 1]
  ∧ returned 3 (exec (dispatch 1) w') = [].
Proof.
  destruct (motion_child_exit empty_world (fun _ => ∅)
              (fun _ => sample_exit_options) (Some "div")
              reachable_empty (Forall_nil_2 _)) as (H1 & _ & H2).
  cbv zeta in H1, H2.
  change (truthy (get sample_exit_options "exit")) with true in H2.
  destruct H2 as (_ & H2 & H3 & H4).
  cbv zeta. split; [exact H1|]. split; [exact H2|]. split; [exact H3 | exact H4].
Defined.

(* ===================================================================== *)
(** ** A replacement is mounted while the switch waits *)
(* ===================================================================== *)

(** The children of a [Presence] change to a list that starts with a
    [Motion] element: its binding is queued and its element is what the
    switch is told to show. *)
Lemma source_Motion_first sw s tag props kids rest w :
  w_switches w !! sw = Some s →
  let b := mkBinding (S (w_next w)) (w_next w)
             (fun st => pick OPTION_KEYS (motion_props tag props st))
             (lookup_presence (sw_ctx s)) in
  ∃ w1, extends w w1 ∧ b ∈ w_onmount w1
        ∧ exec (source sw (VMotion tag props kids :: rest)) w
          = exec (source_changed sw (Some (w_next w))) w1.
Proof.
  intros Hs. cbv zeta. unfold source. rewrite exec_bind, exec_gets, eval_gets, Hs.
  rewrite !exec_bind, exec_gets, eval_gets, !exec_modify.
  unfold resolveFirst. rewrite exec_bind, eval_bind, exec_gets.
  set (w0 := set_ctx (fun _ => sw_ctx s) w).
  pose proof (Ext_render_all (VMotion tag props kids :: rest) w0) as Hext.
  assert (Hb : mkBinding (S (w_next w)) (w_next w)
                 (fun st => pick OPTION_KEYS (motion_props tag props st))
                 (lookup_presence (sw_ctx s))
               ∈ w_onmount (exec (render_list (VMotion tag props kids :: rest)) w0)).
  { cbn [render_list]. rewrite exec_bind, render_VMotion.
    pose proof (MotionComponent_queued (motion_props tag props) (render_list kids) w0
                  (Ext_render_all kids)) as Hq. cbv zeta in Hq.
    set (w1 := exec (MotionComponent _ _) w0) in *.
    match goal with |- context [exec ?m w1] =>
      assert (He : extends w1 (exec m w1)) end.
    { apply Ext_bind; [apply Ext_render_all|]. intros ns. apply Ext_ret. }
    destruct (ext_onmount _ _ He) as (bs & -> & _). apply elem_of_app. by left. }
  assert (Hfirst : eval (gets (fun w' => first_element (w_switches w')
                     (eval (render_list (VMotion tag props kids :: rest)) w0)))
                     (exec (render_list (VMotion tag props kids :: rest)) w0)
                   = Some (w_next w)).
  { rewrite eval_gets, eval_render_list_cons, render_VMotion.
    destruct (MotionComponent_node (motion_props tag props) (render_list kids) w0)
      as [ns ->]. done. }
  rewrite Hfirst.
  set (w1 := exec (render_list _) w0) in *.
  exists (set_ctx (fun _ => w_ctx w) w1). split; [|split; [exact Hb | done]].
  destruct Hext as [St C N L Ce O Mo B Cl E Li Sw]. split; simpl; done.
Qed.

Lemma flush_trace_no_remove sw el st bs :
  Forall (fun c => is_remove sw el c = false) (flush_trace st bs).
Proof.
  apply Forall_app. split.
  - induction bs as [|b bs IH]; simpl; [constructor|].
    repeat (constructor; [done|]). exact IH.
  - induction bs as [|b bs IH]; simpl; by constructor.
Qed.

(** X1.  In out-in mode the replacement joins the rendered list only
    after the exit, but nothing makes its mount callback wait: when the
    runtime runs the queued callbacks the new handle is mounted and
    updated while the old element is still the one shown. *)
Theorem replacement_mounts_while_switch_waits (w : World) (sw : SwitchId)
    (s : Switch) (a : El) (sa : StateId) (tag : option string) (props : Props)
    (kids rest : list View) :
  reachable w →
  w_switches w !! sw = Some s → sw < w_next w →
  sw_mode s = OutIn → sw_prev s = Some a → sw_exiting s = false →
  a < w_next w → w_mounted w !! a = Some sa → sa < w_next w →
  truthy (get (default ∅ (w_opts w !! sa)) "exit") = true →
  let w' := exec (steps [ESource sw (VMotion tag props kids :: rest); EFlush]) w in
  returned sw w' = sw_returned s
  ∧ removes_of sw a (w_log w') = removes_of sw a (w_log w)
  ∧ run Absent (calls_on (S (w_next w)) (w_log w')) = Some (Live (w_next w)).
Proof.
  intros Hr Hs Hsw Hmode Hprev Hex Ha Hm Hsa Hx. cbv zeta.
  rewrite steps_two. cbn [step].
  pose proof (wf_reachable _ Hr) as Hw.
  assert (Hlc : lifecycle w).
  { destruct Hr as [es ->]. apply lifecycle_steps; [apply wf_empty|apply lifecycle_empty]. }
  pose proof (wf_step (ESource sw (VMotion tag props kids :: rest)) w Hw) as Hw1.
  pose proof (lifecycle_step (ESource sw (VMotion tag props kids :: rest)) w Hw Hlc)
    as Hlc1.
  cbn [step] in Hw1, Hlc1.
  destruct (source_Motion_first sw s tag props kids rest w Hs)
    as (w1 & Hext & Hb & Heq). cbv zeta in Hb.
  set (b := mkBinding _ _ _ _) in Hb.
  rewrite Heq in *. clear Heq.
  destruct (swap_out_in w1 sw s a (w_next w) sa) as (Sw2 & Li2 & N2 & M2);
    try done.
  { by rewrite (ext_switches _ _ Hext). }
  { lia. }
  { by rewrite (ext_mounted _ _ Hext). }
  { by rewrite (ext_opts _ _ Hext). }
  cbv zeta in Sw2, Li2, N2, M2.
  assert (Hq : quiet (fun c => switch_call c) w1
                 (exec (source_changed sw (Some (w_next w))) w1))
    by by apply Quiet_source_changed.
  assert (Hl2 : w_log (exec (source_changed sw (Some (w_next w))) w1)
                = w_log w1 ++
                  [CAddEventListener a "motioncomplete" (CbRemove sw a true)]).
  { pose proof (ext_switches _ _ Hext sw Hsw) as Hs1. rewrite Hs in Hs1.
    pose proof (ext_mounted _ _ Hext) as Hm1.
    pose proof (ext_opts _ _ Hext sa Hsa) as Ho1.
    clear -Hs1 Hm1 Ho1 Hmode Hex Hprev Hm Hx Ha.
    unfold source_changed, triggerTransitions, exitTransition,
      Presence_onExit, enterTransition, run_remove.
    wsimpl. rewrite Hs1. simpl.
    rewrite decide_False by (rewrite Hprev; intros [=]; lia). simpl.
    rewrite Hs1. simpl. rewrite lookup_insert_eq. simpl.
    rewrite Hmode, Hex, Hprev. simpl. rewrite Hm1, Hm. simpl.
    rewrite Ho1, Hx. simpl. rewrite ?lookup_insert_eq. done. }
  set (w2 := exec (source_changed sw (Some (w_next w))) w1) in *.
  assert (Hb2 : b ∈ w_onmount w2) by by rewrite (q_onmount _ _ _ Hq).
  clearbody w2.
  destruct (flush_spec w2) as ([_ _ _ _ Sw3] & L3 & O3 & C3 & _). cbv zeta in *.
  split; [|split].
  - unfold returned. by rewrite Sw3, Sw2, lookup_insert_eq.
  - unfold removes_of. rewrite L3, (count_app_none (is_remove sw a)).
    + destruct (ext_log _ _ Hext) as (l1 & Hl1 & F1).
      rewrite Hl2, Hl1, <- app_assoc, (count_app_none (is_remove sw a)); [done|].
      apply Forall_app. split; [|by repeat constructor].
      eapply Forall_impl; [exact F1|]. intros [] [? _]; done.
    + apply flush_trace_no_remove.
  - apply (lc_run _ _ _ (flush_live w2 b Hw1 Hlc1 Hb2)).
Qed.

(** The sample [Presence], its child cleaned up, then replaced. *)
Lemma replacement_mounts_while_switch_waits_witness :
  let w := exec (step (EDispose 2)) sample_presence_world in
  let w' := exec (steps [ESource 3 [VMotion (Some "span") (fun _ => ∅) []]; EFlush]) w in
  returned 3 w' = sw_returned sample_switch
  ∧ removes_of 3 1 (w_log w') = removes_of 3 1 (w_log w)
  ∧ run Absent (calls_on (S (w_next w)) (w_log w')) = Some (Live (w_next w)).
Proof.
  set (w := exec (step (EDispose 2)) sample_presence_world).
  assert (Hr : reachable w).
  { apply reachable_step. eexists. reflexivity. }
  assert (Hs : w_switches w !! 3 = Some sample_switch) by (vm_compute; reflexivity).
  assert (Hsw : 3 < w_next w) by (vm_compute; lia).
  assert (Ha : 1 < w_next w) by (vm_compute; lia).
  assert (Hm : w_mounted w !! 1 = Some 2) by (vm_compute; reflexivity).
  assert (Hsa : 2 < w_next w) by (vm_compute; lia).
  assert (Hx : truthy (get (default ∅ (w_opts w !! 2)) "exit") = true)
    by (vm_compute; reflexivity).
  pose proof (replacement_mounts_while_switch_waits w 3 sample_switch 1 2
                (Some "span") (fun _ => ∅) [] [] Hr Hs Hsw eq_refl eq_refl eq_refl
                Ha Hm Hsa Hx) as H.
  cbv zeta in H. cbv zeta. exact H.
Defined.

(* ===================================================================== *)
(** ** The [children] getter of a [Presence] runs again *)
(* ===================================================================== *)

Lemma Presence_children_world props children c w :
  let w4 := exec children w in
  let first := first_element (w_switches w4) (eval children w) in
  exec (Presence_children props children c) w
  = set_switches
      (insert (w_next w4)
         (idle_switch (Presence_mode (props (w_store w4))) first (w_ctx w4)))
      (set_next S w4)
  ∧ eval (Presence_children props children c) w = w_next w4.
Proof.
  cbv zeta. unfold Presence_children, resolveFirst, read_cell.
  unfold eval, exec, bind, gets.
  destruct (children w) as [ns w4]. cbn [fst snd].
  match goal with |- context [createSwitchTransition ?i ?a ?m w4] =>
    destruct (createSwitchTransition_world i a m w4) as [E V];
    unfold exec, eval in E, V;
    destruct (createSwitchTransition i a m w4) as [sw w5] end.
  cbn [fst snd] in *. by subst sw w5.
Qed.

(** X12.  The [children] getter of a [Presence] runs again (its
    [exitBeforeEnter] has changed) and renders one [Motion] element.
    The new switch transition is made in the mode that the props give
    at that time, whatever the mode of the first one was, and shows the
    new element; the flag reads [true] by then, so the handle of the
    element is created with its options unchanged; the switch of the
    first run is left as it was. *)
Theorem presence_rerun_takes_new_mode (w0 : World) (props : Props)
    (kids0 : list View) (es : list Event) (tag : option string) (cprops : Props) :
  let w2 := exec (steps es) (exec (render (VPresence props kids0)) w0) in
  let el := w_next w2 in
  ∃ sw, eval (render (VPresence props kids0)) w0 = NSwitch sw
    ∧ let w3 := exec (step (EChildren sw props [VMotion tag cprops []])) w2 in
      w_switches w3 !! S (S el)
      = Some (mkSwitch (Presence_mode (props (w_store w2))) [el] None false (Some el)
                (EParent None :: EPresence (PCell (w_next w0)) :: w_ctx w0))
      ∧ w_log w3 = w_log w2 ++
          [CCreateMotionState (S el)
             (pick OPTION_KEYS (motion_props tag cprops (w_store w2))) None]
      ∧ w_onmount w3 = w_onmount w2 ++
          [mkBinding (S el) el
             (fun st => pick OPTION_KEYS (motion_props tag cprops st))
             (Some (PCell (w_next w0)))]
      ∧ w_switches w3 !! sw = w_switches w2 !! sw.
Proof.
  cbv zeta. rewrite render_VPresence.
  change (fix go (l : list View) : M (list Node) := _) with render_list.
  destruct (Presence_alive props (render_list kids0) w0 (Ext_render_all _))
    as (sw & Hev & Ha).
  exists sw. split; [exact Hev|].
  pose proof (presence_alive_steps _ _ _ _ es _ Ha) as Ha2.
  set (w2 := exec (steps es) _) in *. clearbody w2.
  destruct Ha2 as [Hc Hsw Hcell (s & Hs & Hctx & Hmode)].
  cbn [step]. unfold Presence_rerun.
  rewrite exec_bind, exec_gets, eval_gets, Hs, Hctx. cbn [lookup_presence].
  rewrite !exec_bind, exec_gets, eval_gets, !exec_modify.
  set (w := set_ctx (fun _ => EParent None :: EPresence (PCell (w_next w0)) :: w_ctx w0) w2).
  destruct (Presence_children_world props (render_list [VMotion tag cprops []])
              (w_next w0) w) as [E _].
  cbv zeta in E. rewrite E. clear E.
  assert (Hex : exec (render_list [VMotion tag cprops []]) w
                = exec (MotionComponent (motion_props tag cprops) (render_list [])) w).
  { cbn [render_list]. by rewrite exec_bind, exec_bind, !exec_ret, render_VMotion. }
  assert (Hel : eval (render_list [VMotion tag cprops []]) w
                = [eval (MotionComponent (motion_props tag cprops) (render_list [])) w]).
  { by rewrite eval_render_list_cons, render_VMotion. }
  rewrite Hex, Hel.
  destruct (MotionComponent_node (motion_props tag cprops) (render_list []) w)
    as [ns ->].
  rewrite MotionComponent_leaf.
  assert (Hpv : presence_value (lookup_presence (w_ctx w)) w = VBool true).
  { unfold presence_value, eval. simpl. by rewrite Hcell. }
  rewrite Hpv. unfold construction_options. cbn [is_false].
  subst w. simpl. split; [apply lookup_insert_eq|].
  split; [done|]. split; [done|].
  rewrite lookup_insert_ne by lia. exact Hs.
Qed.
